(** * Monster Electrico: tentacle kinematics, collisions and particles

    A shallow embedding of [src/components/MonsterElectricoGame.tsx].

    Numbers.  Every TypeScript [number] that holds a coordinate, a length, an
    angle or a velocity is read as a real number: [Math.cos], [Math.sin],
    [Math.sqrt] are the functions of the Standard Library's [Reals], and the
    decimal constants of the source ([0.8], [0.98], [0.01]) are the rationals
    they denote.  Rounding, signed zeros, [NaN] and the infinities of IEEE
    doubles are outside this model, so an equality proved here is the exact
    counterpart of what the program satisfies up to rounding.  Loop counters
    and array indices are [nat]; the score and the countdown are [Z].

    Objects.  A TypeScript object mutated in place becomes a record that the
    embedded function returns anew.  The program never lets two segments
    share a [pos] or [nextPos] object (the constructor and [lastTarget] always
    build fresh ones), so passing points by value loses nothing.

    Failure.  Calling a method on [undefined] (an array read out of range)
    throws a [TypeError]; functions that can do so return [option], with
    [None] for the throw.

    Randomness.  [Math.random()] reads the next value of a stream
    [nat -> R]; the functions that call it thread the position in the
    stream. *)

From Stdlib Require Import Reals Lra Lia List Bool Arith ZArith.
Import ListNotations.
Local Open Scope R_scope.

(** ** JavaScript primitives *)

Module Js.

(** [if (v)] on a number: zero is falsy, every other real is truthy. *)
Definition truthy (v : R) : bool :=
  if Req_dec_T v 0 then false else true.

Definition ltb (a b : R) : bool := if Rlt_dec a b then true else false.
Definition leb (a b : R) : bool := if Rle_dec a b then true else false.
Definition gtb (a b : R) : bool := ltb b a.
Definition geb (a b : R) : bool := leb b a.

(** [Math.atan2(y, x)]: the angle in (-PI, PI] of the point (x, y). *)
Definition atan2 (y x : R) : R :=
  if Rlt_dec 0 x then atan (y / x)
  else if Rlt_dec x 0 then
    if Rle_dec 0 y then atan (y / x) + PI else atan (y / x) - PI
  else if Rlt_dec 0 y then PI / 2
  else if Rlt_dec y 0 then - (PI / 2)
  else 0.

(** [arr[i]] on an array without holes; [None] is [undefined]. *)
Definition get {A : Type} (arr : list A) (i : nat) : option A :=
  nth_error arr i.

(** The element at an index in range, replaced: the effect of mutating the
    object [arr[i]] in place. *)
Fixpoint set_nth {A : Type} (i : nat) (v : A) (arr : list A) {struct arr}
  : list A :=
  match arr, i with
  | [], _ => []
  | _ :: rest, O => v :: rest
  | a :: rest, S j => a :: set_nth j v rest
  end.

(** [arr[i] = v] on an array that may have holes ([None]): in range the
    slot is overwritten, past the end the array grows to [i + 1] slots and
    the slots in between stay empty. *)
Definition assign {A : Type} (i : nat) (v : A) (arr : list (option A))
  : list (option A) :=
  if (i <? length arr)%nat then set_nth i (Some v) arr
  else arr ++ repeat None (i - length arr) ++ [Some v].

End Js.

(** ** Points and the distance helper *)

Module Point.
Record t : Type := mk { x : R; y : R }.
End Point.

(** [dist(p1x, p1y, p2x, p2y)], with [Math.pow(_, 2)] as [_ ^ 2]. *)
Definition dist (p1x p1y p2x p2y : R) : R :=
  sqrt ((p2x - p1x) ^ 2 + (p2y - p1y) ^ 2).

(** ** class TentacleSegment *)

Module TentacleSegment.

Record t : Type := mk {
  pos : Point.t;
  nextPos : Point.t;
  length : R;
  angle : R;
  first : bool
}.

(** The constructor's [parent] argument: a tentacle (read through [x] and
    [y]) or the previous segment (read through [nextPos]). *)
Inductive parent : Type :=
| OfTentacle (px py : R)
| OfSegment (np : Point.t).

(** [new TentacleSegment(parent, length, angle, first)].  The branch is
    chosen by [first]; reading [x], [y] of a segment or [nextPos] of a
    tentacle finds no such property, which leaves the model ([None]). *)
Definition new (p : parent) (length angle : R) (first : bool) : option t :=
  match first, p with
  | true, OfTentacle px py =>
      Some (mk (Point.mk px py)
               (Point.mk (px + length * cos angle) (py + length * sin angle))
               length angle first)
  | false, OfSegment np =>
      Some (mk (Point.mk (Point.x np) (Point.y np))
               (Point.mk (Point.x np + length * cos angle)
                         (Point.y np + length * sin angle))
               length angle first)
  | _, _ => None
  end.

Definition update (s : t) (target : Point.t) : t :=
  let angle' :=
    Js.atan2 (Point.y target - Point.y (pos s))
             (Point.x target - Point.x (pos s)) in
  let posx := Point.x target + length s * cos (angle' - PI) in
  let posy := Point.y target + length s * sin (angle' - PI) in
  mk (Point.mk posx posy)
     (Point.mk (posx + length s * cos angle') (posy + length s * sin angle'))
     (length s) angle' (first s).

Definition fallback (s : t) (target : Point.t) : t :=
  let posx := Point.x target in
  let posy := Point.y target in
  mk (Point.mk posx posy)
     (Point.mk (posx + length s * cos (angle s))
               (posy + length s * sin (angle s)))
     (length s) (angle s) (first s).

(** The relation the spec states between the four fields. *)
Definition consistent (s : t) : Prop :=
  nextPos s =
  Point.mk (Point.x (pos s) + length s * cos (angle s))
           (Point.y (pos s) + length s * sin (angle s)).

End TentacleSegment.

(** ** Exceptions and the random stream *)

Notation "'try' x <- c ; k" :=
  (match c with Some x => k | None => None end)
  (at level 10, x name, c at level 100, k at level 200, only parsing).

Module Rand.

Definition stream : Type := nat -> R.

(** A computation that may call [Math.random()] and may throw: it reads
    the stream from a position and returns the position it stopped at. *)
Definition M (A : Type) : Type := stream -> nat -> option (A * nat).

Definition ret {A : Type} (a : A) : M A := fun _ k => Some (a, k).

Definition bind {A B : Type} (c : M A) (f : A -> M B) : M B :=
  fun rnd k =>
    match c rnd k with
    | Some (a, k') => f a rnd k'
    | None => None
    end.

Definition lift {A : Type} (o : option A) : M A :=
  fun _ k => match o with Some a => Some (a, k) | None => None end.

(** [Math.random()]. *)
Definition random : M R := fun rnd k => Some (rnd k, S k).

(** [Array.from({ length: n }, () => c)]. *)
Fixpoint array_from {A : Type} (n : nat) (c : M A) : M (list A) :=
  match n with
  | O => ret []
  | S n' => bind c (fun a => bind (array_from n' c) (fun l => ret (a :: l)))
  end.

(** [Math.random()] returns a value in [0, 1). *)
Definition fair (rnd : stream) : Prop := forall k, 0 <= rnd k < 1.

End Rand.

Notation "'do' x <- c ; k" :=
  (Rand.bind c (fun x => k))
  (at level 10, x name, c at level 100, k at level 200, only parsing).

(** ** The canvas, tentacles and the monster *)

Module Canvas.
Record t : Type := mk { width : R; height : R }.
End Canvas.

Module Tentacle.

Record t : Type := mk {
  x : R;
  y : R;
  length : R;
  numSegments : nat;
  segments : list TentacleSegment.t;
  target : Point.t;
  rand : R;
  angle : R;
  dt : R
}.

Definition with_segments (segs : list TentacleSegment.t) (tn : t) : t :=
  mk (x tn) (y tn) (length tn) (numSegments tn) segs (target tn) (rand tn)
     (angle tn) (dt tn).

End Tentacle.

Module Monster.

Record t : Type := mk {
  coreX : R;
  coreY : R;
  coreRadius : R;
  tentacles : list Tentacle.t;
  mouseX : R;
  mouseY : R;
  lastTarget : Point.t;
  targetErrorX : R;
  targetErrorY : R;
  autoMoveTime : R;
  nearBoundary : bool
}.

(** The object held by [monster] when the component mounts. *)
Definition initial : t :=
  mk 400 300 15 [] 400 300 (Point.mk 400 300) 0 0 0 false.

End Monster.

(** The [for (let i = 1; i < numSegments; i++) segments.push(...)] loop of
    [initializeTentacles]: [k] iterations are left and the next index is
    [i]. *)
Fixpoint pushSegments (k i : nat) (segmentLength : R)
    (segs : list TentacleSegment.t) : option (list TentacleSegment.t) :=
  match k with
  | O => Some segs
  | S k' =>
      try prev <- Js.get segs (i - 1) ;
      try s <- TentacleSegment.new
                 (TentacleSegment.OfSegment (TentacleSegment.nextPos prev))
                 segmentLength 0 false ;
      pushSegments k' (S i) segmentLength (segs ++ [s])
  end.

(** The body of the [Array.from] callback of [initializeTentacles]. *)
Definition newTentacle (canvas : Canvas.t) (maxLength minLength : R)
    (numSegments : nat) : Rand.M Tentacle.t :=
  do r <- Rand.random ;
  let length := r * (maxLength - minLength) + minLength in
  do rx <- Rand.random ;
  do ry <- Rand.random ;
  do rr <- Rand.random ;
  let tentacle :=
    Tentacle.mk (rx * Canvas.width canvas) (ry * Canvas.height canvas)
                length numSegments [] (Point.mk 0 0) rr 0 0 in
  let segmentLength := length / INR numSegments in
  do s0 <- Rand.lift
             (TentacleSegment.new
                (TentacleSegment.OfTentacle (Tentacle.x tentacle)
                                            (Tentacle.y tentacle))
                segmentLength 0 true) ;
  do segs <- Rand.lift
               (pushSegments (numSegments - 1) 1 segmentLength [s0]) ;
  Rand.ret (Tentacle.with_segments segs tentacle).

(** [initializeTentacles()]: the new value of [monster.current.tentacles].
    [innerWidth] is [window.innerWidth]. *)
Definition initializeTentacles (canvasRef : option Canvas.t) (innerWidth : R)
    (old : list Tentacle.t) : Rand.M (list Tentacle.t) :=
  match canvasRef with
  | None => Rand.ret old
  | Some canvas =>
      let isMobile := Js.ltb innerWidth 768 in
      let tentacleCount := if isMobile then 150%nat else 300%nat in
      let maxLength := if isMobile then 200 else 300 in
      let minLength := if isMobile then 30 else 50 in
      let numSegments := if isMobile then 20%nat else 30%nat in
      Rand.array_from tentacleCount
        (newTentacle canvas maxLength minLength numSegments)
  end.

(** *** updateMonster: the chain passes *)

(** [for (let i = numSegments - 2; i >= 0; i--)
       segments[i].update(segments[i + 1].pos)]:
    [k] iterations are left and the current index is [k - 1]. *)
Fixpoint ikLoop (k : nat) (segs : list TentacleSegment.t)
    : option (list TentacleSegment.t) :=
  match k with
  | O => Some segs
  | S i =>
      try s <- Js.get segs i ;
      try succ <- Js.get segs (S i) ;
      ikLoop i (Js.set_nth i
                  (TentacleSegment.update s (TentacleSegment.pos succ)) segs)
  end.

(** The tip update followed by the descending loop; [tipTarget] is the
    point the tip segment is updated toward. *)
Definition ikPass (numSegments : nat) (tipTarget : Point.t)
    (segs : list TentacleSegment.t) : option (list TentacleSegment.t) :=
  match numSegments with
  | O => None
  | S last =>
      try tip <- Js.get segs last ;
      ikLoop last (Js.set_nth last (TentacleSegment.update tip tipTarget) segs)
  end.

(** [for (let i = 1; i < numSegments; i++)
       segments[i].fallback(segments[i - 1].nextPos)]:
    [k] iterations are left and the current index is [i]. *)
Fixpoint fallbackLoop (k i : nat) (segs : list TentacleSegment.t)
    : option (list TentacleSegment.t) :=
  match k with
  | O => Some segs
  | S k' =>
      try s <- Js.get segs i ;
      try pred <- Js.get segs (i - 1) ;
      fallbackLoop k' (S i)
        (Js.set_nth i
           (TentacleSegment.fallback s (TentacleSegment.nextPos pred)) segs)
  end.

(** The body of the [if] that follows the loop. *)
Definition fallbackPass (numSegments : nat) (anchor : Point.t)
    (segs : list TentacleSegment.t) : option (list TentacleSegment.t) :=
  try base <- Js.get segs 0 ;
  fallbackLoop (numSegments - 1) 1
    (Js.set_nth 0 (TentacleSegment.fallback base anchor) segs).

(** The lead point [t] computed for a tentacle. *)
Definition leadPoint (target : Point.t) (dt angle : R) : Point.t :=
  Point.mk (Point.x target - 0.8 * dt * cos angle)
           (Point.y target - 0.8 * dt * sin angle).

(** The point the tip segment is updated toward: [if (t.x) ... else ...]. *)
Definition tipTarget (target t : Point.t) : Point.t :=
  if Js.truthy (Point.x t) then t else target.

(** The condition of the fallback [if]. *)
Definition inReach (target lastTarget : Point.t) (tn : Tentacle.t) : bool :=
  Js.leb
    (dist (Tentacle.x tn) (Tentacle.y tn) (Point.x target) (Point.y target))
    (Tentacle.length tn +
     dist (Point.x lastTarget) (Point.y lastTarget)
          (Point.x target) (Point.y target)).

(** The callback of [m.tentacles.forEach] in [updateMonster]. *)
Definition updateTentacle (target lastTarget : Point.t) (tn : Tentacle.t)
    : option Tentacle.t :=
  let angle :=
    Js.atan2 (Point.y target - Tentacle.y tn)
             (Point.x target - Tentacle.x tn) in
  let dt :=
    dist (Point.x lastTarget) (Point.y lastTarget)
         (Point.x target) (Point.y target) + 5 in
  let t := leadPoint target dt angle in
  try segs <- ikPass (Tentacle.numSegments tn) (tipTarget target t)
                     (Tentacle.segments tn) ;
  try segs' <-
    (if inReach target lastTarget tn
     then fallbackPass (Tentacle.numSegments tn)
            (Point.mk (Tentacle.x tn) (Tentacle.y tn)) segs
     else Some segs) ;
  Some (Tentacle.mk (Tentacle.x tn) (Tentacle.y tn) (Tentacle.length tn)
          (Tentacle.numSegments tn) segs' (Tentacle.target tn)
          (Tentacle.rand tn) angle dt).

(** [forEach] with a callback that may throw. *)
Fixpoint forEachTry {A : Type} (f : A -> option A) (l : list A)
    : option (list A) :=
  match l with
  | [] => Some []
  | a :: rest =>
      try a' <- f a ;
      try rest' <- forEachTry f rest ;
      Some (a' :: rest')
  end.

(** *** updateMonster: target acquisition *)

(** The figure-eight point [(autoX, autoY)] at clock [t]. *)
Definition autoX (canvas : Canvas.t) (t : R) : R :=
  let q := 10 in
  let centerX := Canvas.width canvas / 2 in
  let centerY := Canvas.height canvas / 2 in
  centerX + ((centerY / 2 - q) * sqrt 2 * cos t) / ((sin t) ^ 2 + 1).

Definition autoY (canvas : Canvas.t) (t : R) : R :=
  let q := 10 in
  let centerY := Canvas.height canvas / 2 in
  centerY + ((centerY / 2 - q) * sqrt 2 * cos t * sin t) / ((sin t) ^ 2 + 1).

(** The values assigned to [m.targetErrorX] and [m.targetErrorY]. *)
Definition targetError (canvas : Canvas.t) (m : Monster.t) : R * R :=
  if Js.truthy (Monster.mouseX m) && Js.truthy (Monster.mouseY m)
  then (Monster.mouseX m - Monster.coreX m, Monster.mouseY m - Monster.coreY m)
  else (autoX canvas (Monster.autoMoveTime m) - Monster.coreX m,
        autoY canvas (Monster.autoMoveTime m) - Monster.coreY m).

Definition updateMonster (canvasRef : option Canvas.t) (m : Monster.t)
    : option Monster.t :=
  match canvasRef with
  | None => Some m
  | Some canvas =>
      let (targetErrorX, targetErrorY) := targetError canvas m in
      let coreX := Monster.coreX m + targetErrorX / 10 in
      let coreY := Monster.coreY m + targetErrorY / 10 in
      let autoMoveTime := Monster.autoMoveTime m + 0.01 in
      let target := Point.mk coreX coreY in
      let lastTarget := Monster.lastTarget m in
      try tentacles <-
        forEachTry (updateTentacle target lastTarget) (Monster.tentacles m) ;
      Some (Monster.mk coreX coreY (Monster.coreRadius m) tentacles
              (Monster.mouseX m) (Monster.mouseY m)
              (Point.mk (Point.x target) (Point.y target))
              targetErrorX targetErrorY autoMoveTime
              (Monster.nearBoundary m))
  end.

(** ** Orbs and particles *)

Module Orb.
Record t : Type := mk {
  x : R;
  y : R;
  radius : R;
  pulsePhase : R;
  collected : bool
}.

Definition collect (o : t) : t :=
  mk (x o) (y o) (radius o) (pulsePhase o) true.
End Orb.

Module Particle.
Record t : Type := mk {
  x : R;
  y : R;
  vx : R;
  vy : R;
  life : R;
  maxLife : R;
  size : R
}.
End Particle.

(** The object literal shared by [generateOrbs] and [regenerateOrb]. *)
Definition newOrb (canvas : Canvas.t) : Rand.M Orb.t :=
  let borderWidth := 6 in
  let margin := 60 in
  do rx <- Rand.random ;
  do ry <- Rand.random ;
  do rr <- Rand.random ;
  do rp <- Rand.random ;
  Rand.ret
    (Orb.mk
       (margin + borderWidth +
        rx * (Canvas.width canvas - 2 * (margin + borderWidth)))
       (margin + borderWidth +
        ry * (Canvas.height canvas - 2 * (margin + borderWidth)))
       (8 + rr * 4)
       (rp * PI * 2)
       false).

(** [generateOrbs()]: the new value of [orbs.current]. *)
Definition generateOrbs (canvasRef : option Canvas.t)
    (old : list (option Orb.t)) : Rand.M (list (option Orb.t)) :=
  match canvasRef with
  | None => Rand.ret old
  | Some canvas =>
      do l <- Rand.array_from 3 (newOrb canvas) ;
      Rand.ret (map Some l)
  end.

(** [regenerateOrb(index)]. *)
Definition regenerateOrb (canvasRef : option Canvas.t) (index : nat)
    (old : list (option Orb.t)) : Rand.M (list (option Orb.t)) :=
  match canvasRef with
  | None => Rand.ret old
  | Some canvas =>
      do o <- newOrb canvas ;
      Rand.ret (Js.assign index o old)
  end.

(** [createParticles(x, y, count)]: the list after the pushes. *)
Fixpoint createParticles (x y : R) (count : nat) (ps : list Particle.t)
    : Rand.M (list Particle.t) :=
  match count with
  | O => Rand.ret ps
  | S count' =>
      do rvx <- Rand.random ;
      do rvy <- Rand.random ;
      do rml <- Rand.random ;
      do rs <- Rand.random ;
      createParticles x y count'
        (ps ++ [Particle.mk x y ((rvx - 0.5) * 8) ((rvy - 0.5) * 8)
                            1 (30 + rml * 20) (2 + rs * 3)])
  end.

(** What the [filter] callback of [updateParticles] does to one particle. *)
Definition decay (p : Particle.t) : Particle.t :=
  Particle.mk (Particle.x p + Particle.vx p) (Particle.y p + Particle.vy p)
              (Particle.vx p * 0.98) (Particle.vy p * 0.98)
              (Particle.life p - 1) (Particle.maxLife p) (Particle.size p).

(** [updateParticles()]: each particle is mutated, then kept when its
    [life] is still positive. *)
Fixpoint updateParticles (ps : list Particle.t) : list Particle.t :=
  match ps with
  | [] => []
  | p :: rest =>
      let p' := decay p in
      if Js.gtb (Particle.life p') 0
      then p' :: updateParticles rest
      else updateParticles rest
  end.

(** One [ctx.arc] of [drawParticles], with the alpha of its fill style. *)
Module Arc.
Record t : Type := mk { cx : R; cy : R; radius : R; alpha : R }.
End Arc.

Definition drawParticle (particle : Particle.t) : Arc.t :=
  let alpha := Particle.life particle / Particle.maxLife particle in
  Arc.mk (Particle.x particle) (Particle.y particle)
         (Particle.size particle * alpha) alpha.

Definition drawParticles (ps : list Particle.t) : list Arc.t :=
  map drawParticle ps.

(** ** The session *)

Inductive GameState : Type := playing | ended.

Module Game.

(** Everything the component holds: the React state ([gameState], [score],
    [timeLeft]), the refs ([canvasRef], [monster], [orbs], [particles]) and
    the indices of the [regenerateOrb] calls that [setTimeout] has pending. *)
Record t : Type := mk {
  canvasRef : option Canvas.t;
  gameState : GameState;
  score : Z;
  timeLeft : Z;
  monster : Monster.t;
  orbs : list (option Orb.t);
  particles : list Particle.t;
  timeouts : list nat
}.

Definition with_gameState (s : GameState) (g : t) : t :=
  mk (canvasRef g) s (score g) (timeLeft g) (monster g) (orbs g)
     (particles g) (timeouts g).

Definition with_monster (m : Monster.t) (g : t) : t :=
  mk (canvasRef g) (gameState g) (score g) (timeLeft g) m (orbs g)
     (particles g) (timeouts g).

Definition with_particles (ps : list Particle.t) (g : t) : t :=
  mk (canvasRef g) (gameState g) (score g) (timeLeft g) (monster g) (orbs g)
     ps (timeouts g).

(** The component before its first effect has run. *)
Definition mounted (canvas : Canvas.t) : t :=
  mk (Some canvas) playing 0 60 Monster.initial [] [] [].

End Game.

Definition with_nearBoundary (b : bool) (m : Monster.t) : Monster.t :=
  Monster.mk (Monster.coreX m) (Monster.coreY m) (Monster.coreRadius m)
    (Monster.tentacles m) (Monster.mouseX m) (Monster.mouseY m)
    (Monster.lastTarget m) (Monster.targetErrorX m) (Monster.targetErrorY m)
    (Monster.autoMoveTime m) b.

Definition with_mouse (mx my : R) (m : Monster.t) : Monster.t :=
  Monster.mk (Monster.coreX m) (Monster.coreY m) (Monster.coreRadius m)
    (Monster.tentacles m) mx my
    (Monster.lastTarget m) (Monster.targetErrorX m) (Monster.targetErrorY m)
    (Monster.autoMoveTime m) (Monster.nearBoundary m).

Definition with_core (cx cy : R) (m : Monster.t) : Monster.t :=
  Monster.mk cx cy (Monster.coreRadius m)
    (Monster.tentacles m) (Monster.mouseX m) (Monster.mouseY m)
    (Monster.lastTarget m) (Monster.targetErrorX m) (Monster.targetErrorY m)
    (Monster.autoMoveTime m) (Monster.nearBoundary m).

Definition with_tentacles (ts : list Tentacle.t) (m : Monster.t) : Monster.t :=
  Monster.mk (Monster.coreX m) (Monster.coreY m) (Monster.coreRadius m)
    ts (Monster.mouseX m) (Monster.mouseY m)
    (Monster.lastTarget m) (Monster.targetErrorX m) (Monster.targetErrorY m)
    (Monster.autoMoveTime m) (Monster.nearBoundary m).

(** *** checkCollisions *)

(** The first [if] of [checkCollisions]: the core touches the border. *)
Definition boundaryHit (canvas : Canvas.t) (m : Monster.t) : bool :=
  let borderWidth := 6 in
  Js.leb (Monster.coreX m) (Monster.coreRadius m + borderWidth)
  || Js.geb (Monster.coreX m)
            (Canvas.width canvas - Monster.coreRadius m - borderWidth)
  || Js.leb (Monster.coreY m) (Monster.coreRadius m + borderWidth)
  || Js.geb (Monster.coreY m)
            (Canvas.height canvas - Monster.coreRadius m - borderWidth).

(** The value assigned to [m.nearBoundary]. *)
Definition nearBoundaryValue (canvas : Canvas.t) (m : Monster.t) : bool :=
  let borderWidth := 6 in
  let warningDistance := 40 in
  Js.leb (Monster.coreX m)
         (Monster.coreRadius m + borderWidth + warningDistance)
  || Js.geb (Monster.coreX m)
            (Canvas.width canvas - Monster.coreRadius m - borderWidth
             - warningDistance)
  || Js.leb (Monster.coreY m)
            (Monster.coreRadius m + borderWidth + warningDistance)
  || Js.geb (Monster.coreY m)
            (Canvas.height canvas - Monster.coreRadius m - borderWidth
             - warningDistance).

(** The test [distance < m.coreRadius + orb.radius]. *)
Definition touches (m : Monster.t) (orb : Orb.t) : bool :=
  let distance :=
    sqrt ((Monster.coreX m - Orb.x orb) ^ 2 +
          (Monster.coreY m - Orb.y orb) ^ 2) in
  Js.ltb distance (Monster.coreRadius m + Orb.radius orb).

(** The callback of [orbs.current.forEach] at one index; a hole is
    skipped. *)
Definition collideOrb (index : nat) (g : Game.t) : Rand.M Game.t :=
  match nth_error (Game.orbs g) index with
  | Some (Some orb) =>
      if negb (Orb.collected orb) && touches (Game.monster g) orb then
        do ps <- createParticles (Orb.x orb) (Orb.y orb) 15
                   (Game.particles g) ;
        Rand.ret
          (Game.mk (Game.canvasRef g) (Game.gameState g)
             (Game.score g + 1)%Z (Game.timeLeft g) (Game.monster g)
             (Js.set_nth index (Some (Orb.collect orb)) (Game.orbs g))
             ps (Game.timeouts g ++ [index]))
      else Rand.ret g
  | _ => Rand.ret g
  end.

(** [forEach] over the indices [index, index + 1, ...], [k] of them. *)
Fixpoint forEachOrb (k index : nat) (g : Game.t) : Rand.M Game.t :=
  match k with
  | O => Rand.ret g
  | S k' =>
      do g' <- collideOrb index g ;
      forEachOrb k' (S index) g'
  end.

Definition checkCollisions (g : Game.t) : Rand.M Game.t :=
  match Game.canvasRef g with
  | None => Rand.ret g
  | Some canvas =>
      let m := Game.monster g in
      if boundaryHit canvas m then
        Rand.ret (Game.with_gameState ended g)
      else
        let g1 :=
          Game.with_monster
            (with_nearBoundary (nearBoundaryValue canvas m) m) g in
        forEachOrb (length (Game.orbs g1)) 0 g1
  end.

(** *** Events *)

Inductive Event : Type :=
| Frame                      (* one run of [gameLoop] *)
| Second                     (* the callback of the countdown interval *)
| MouseMove (x y : R)        (* pointer at (x, y), canvas coordinates *)
| MouseLeave
| TouchStart (x y : R)
| TouchMove (x y : R)
| TouchEnd
| Timeout (index : nat)      (* a pending [regenerateOrb(index)] fires *)
| StartGame (innerWidth : R) (* the New Game button, and the mount effect *)
| Resize (w h : R).          (* [resizeCanvas], container of size w x h *)

(** [gameLoop]: the simulation half, which is all that the session's
    outcome depends on; the drawing half is [drawPhase] below. *)
Definition gameLoop (g : Game.t) : Rand.M Game.t :=
  match Game.canvasRef g, Game.gameState g with
  | Some _, playing =>
      do m <- Rand.lift (updateMonster (Game.canvasRef g) (Game.monster g)) ;
      let g1 := Game.with_monster m g in
      let g2 := Game.with_particles (updateParticles (Game.particles g1)) g1 in
      checkCollisions g2
  | _, _ => Rand.ret g
  end.

(** The interval of the timer effect exists while the session is playing
    with time left; its callback counts one second down. *)
Definition tickSecond (g : Game.t) : Game.t :=
  match Game.gameState g with
  | playing =>
      if (0 <? Game.timeLeft g)%Z then
        if (Game.timeLeft g <=? 1)%Z then
          Game.mk (Game.canvasRef g) ended (Game.score g) 0%Z
            (Game.monster g) (Game.orbs g) (Game.particles g)
            (Game.timeouts g)
        else
          Game.mk (Game.canvasRef g) (Game.gameState g) (Game.score g)
            (Game.timeLeft g - 1)%Z
            (Game.monster g) (Game.orbs g) (Game.particles g)
            (Game.timeouts g)
      else g
  | ended => g
  end.

(** [handleMouseMove], [handleTouchStart] and [handleTouchMove]. *)
Definition handlePointer (x y : R) (g : Game.t) : Game.t :=
  match Game.canvasRef g with
  | None => g
  | Some _ => Game.with_monster (with_mouse x y (Game.monster g)) g
  end.

Definition handleMouseLeave (g : Game.t) : Game.t :=
  Game.with_monster (with_mouse 0 0 (Game.monster g)) g.

(** Removes the first occurrence of a pending index. *)
Fixpoint removeTimeout (index : nat) (l : list nat) : list nat :=
  match l with
  | [] => []
  | i :: rest => if (i =? index)%nat then rest else i :: removeTimeout index rest
  end.

Definition fireTimeout (index : nat) (g : Game.t) : Rand.M Game.t :=
  if existsb (Nat.eqb index) (Game.timeouts g) then
    do os <- regenerateOrb (Game.canvasRef g) index (Game.orbs g) ;
    Rand.ret
      (Game.mk (Game.canvasRef g) (Game.gameState g) (Game.score g)
         (Game.timeLeft g) (Game.monster g) os (Game.particles g)
         (removeTimeout index (Game.timeouts g)))
  else Rand.ret g.

Definition startGame (innerWidth : R) (g : Game.t) : Rand.M Game.t :=
  do ts <- initializeTentacles (Game.canvasRef g) innerWidth
             (Monster.tentacles (Game.monster g)) ;
  do os <- generateOrbs (Game.canvasRef g) (Game.orbs g) ;
  let m := with_tentacles ts (Game.monster g) in
  let m' :=
    match Game.canvasRef g with
    | Some canvas =>
        with_mouse (Canvas.width canvas / 2) (Canvas.height canvas / 2)
          (with_core (Canvas.width canvas / 2) (Canvas.height canvas / 2) m)
    | None => m
    end in
  Rand.ret (Game.mk (Game.canvasRef g) playing 0%Z 60%Z m' os []
              (Game.timeouts g)).

Definition resizeCanvas (containerWidth containerHeight : R) (g : Game.t)
    : Game.t :=
  match Game.canvasRef g with
  | None => g
  | Some _ =>
      let m := Game.monster g in
      let centerX := containerWidth / 2 in
      let centerY := containerHeight / 2 in
      let coreX :=
        if Js.gtb (Monster.coreX m) (containerWidth - 50)
        then centerX else Monster.coreX m in
      let coreY :=
        if Js.gtb (Monster.coreY m) (containerHeight - 50)
        then centerY else Monster.coreY m in
      Game.mk (Some (Canvas.mk containerWidth containerHeight))
        (Game.gameState g) (Game.score g) (Game.timeLeft g)
        (with_core coreX coreY m) (Game.orbs g) (Game.particles g)
        (Game.timeouts g)
  end.

Definition step (e : Event) (g : Game.t) : Rand.M Game.t :=
  match e with
  | Frame => gameLoop g
  | Second => Rand.ret (tickSecond g)
  | MouseMove x y => Rand.ret (handlePointer x y g)
  | MouseLeave => Rand.ret (handleMouseLeave g)
  | TouchStart x y => Rand.ret (handlePointer x y g)
  | TouchMove x y => Rand.ret (handlePointer x y g)
  | TouchEnd => Rand.ret g
  | Timeout index => fireTimeout index g
  | StartGame innerWidth => startGame innerWidth g
  | Resize w h => Rand.ret (resizeCanvas w h g)
  end.

(** A sequence of events, in order. *)
Fixpoint run (es : list Event) (g : Game.t) : Rand.M Game.t :=
  match es with
  | [] => Rand.ret g
  | e :: rest =>
      do g' <- step e g ;
      run rest g'
  end.

(** *** The chain passes as the spec words them

    Section 4.2 describes the IK pass from the tip backwards (the tip goes
    to its target, every other segment to the position its successor has
    just taken) and the fallback pass from the base forwards (the base goes
    to the anchor, every other segment to its predecessor's [nextPos]).
    These two recursions follow that wording; the theorems below compare
    them with the index loops of the source. *)

Fixpoint ikChain (tipTarget : Point.t) (segs : list TentacleSegment.t)
    : list TentacleSegment.t :=
  match segs with
  | [] => []
  | s :: rest =>
      let rest' := ikChain tipTarget rest in
      let goal :=
        match rest' with
        | [] => tipTarget
        | succ :: _ => TentacleSegment.pos succ
        end in
      TentacleSegment.update s goal :: rest'
  end.

Fixpoint fallbackChain (point : Point.t) (segs : list TentacleSegment.t)
    : list TentacleSegment.t :=
  match segs with
  | [] => []
  | s :: rest =>
      let s' := TentacleSegment.fallback s point in
      s' :: fallbackChain (TentacleSegment.nextPos s') rest
  end.

(** [n] consecutive runs of [updateMonster] with no event in between. *)
Fixpoint updateMonsterTimes (n : nat) (canvasRef : option Canvas.t)
    (m : Monster.t) : option Monster.t :=
  match n with
  | O => Some m
  | S n' =>
      try m' <- updateMonster canvasRef m ;
      updateMonsterTimes n' canvasRef m'
  end.

(** [n] consecutive runs of [updateParticles] with no spawn in between. *)
Fixpoint updateParticlesTimes (n : nat) (ps : list Particle.t)
    : list Particle.t :=
  match n with
  | O => ps
  | S n' => updateParticlesTimes n' (updateParticles ps)
  end.

(** The sum of the [length] fields of a chain. *)
Definition totalLength (segs : list TentacleSegment.t) : R :=
  fold_right (fun s acc => TentacleSegment.length s + acc) 0 segs.

(** A tentacle as [initializeTentacles] leaves it: [numSegments] segments
    (at least one), each of length [length / numSegments]. *)
Definition wellFormed (tn : Tentacle.t) : Prop :=
  (1 <= Tentacle.numSegments tn)%nat /\
  List.length (Tentacle.segments tn) = Tentacle.numSegments tn /\
  Forall (fun s => TentacleSegment.length s =
                   Tentacle.length tn / INR (Tentacle.numSegments tn))
         (Tentacle.segments tn).

(** ** Predicates and closed forms used by the statements *)

(** Two states of one tentacle: same anchor, same [length], same
    [numSegments], and the same segment lengths in the same order. *)
Definition sameShape (tn tn' : Tentacle.t) : Prop :=
  Tentacle.x tn' = Tentacle.x tn /\
  Tentacle.y tn' = Tentacle.y tn /\
  Tentacle.length tn' = Tentacle.length tn /\
  Tentacle.numSegments tn' = Tentacle.numSegments tn /\
  map TentacleSegment.length (Tentacle.segments tn') =
  map TentacleSegment.length (Tentacle.segments tn).

(** The particles pushed by [createParticles(x, y, count)] when the random
    stream is read from position [k]. *)
Fixpoint burst (x y : R) (count : nat) (rnd : Rand.stream) (k : nat)
    : list Particle.t :=
  match count with
  | O => []
  | S count' =>
      Particle.mk x y ((rnd k - 0.5) * 8) ((rnd (S k) - 0.5) * 8)
                  1 (30 + rnd (S (S k)) * 20) (2 + rnd (S (S (S k))) * 3)
      :: burst x y count' rnd (S (S (S (S k))))
  end.

(** The orb in a slot is picked up by this collision check: it is there,
    uncollected, and closer than [coreRadius + orb.radius]. *)
Definition hit (m : Monster.t) (o : option Orb.t) : bool :=
  match o with
  | Some orb => negb (Orb.collected orb) && touches m orb
  | None => false
  end.

(** What the collision check leaves in a slot. *)
Definition mark (m : Monster.t) (o : option Orb.t) : option Orb.t :=
  match o with
  | Some orb => if hit m o then Some (Orb.collect orb) else Some orb
  | None => None
  end.

(** The indices picked up among the slots [todo], the first of which has
    index [index]. *)
Fixpoint hitIndices (m : Monster.t) (index : nat) (todo : list (option Orb.t))
    : list nat :=
  match todo with
  | [] => []
  | o :: rest =>
      if hit m o then index :: hitIndices m (S index) rest
      else hitIndices m (S index) rest
  end.

(** The particles spawned for the slots [todo], in order, 60 random numbers
    being read for each burst. *)
Fixpoint bursts (m : Monster.t) (todo : list (option Orb.t))
    (rnd : Rand.stream) (k : nat) : list Particle.t :=
  match todo with
  | [] => []
  | o :: rest =>
      match o with
      | Some orb =>
          if hit m o
          then burst (Orb.x orb) (Orb.y orb) 15 rnd k
                 ++ bursts m rest rnd (60 + k)
          else bursts m rest rnd k
      | None => bursts m rest rnd k
      end
  end.

(** An orb array in which every slot is filled. *)
Definition noHoles (os : list (option Orb.t)) : Prop :=
  Forall (fun o => o <> None) os.

(** What every state of a mounted component satisfies: the canvas is there,
    the tentacles are well-formed, the orb array has no hole and holds either
    nothing (before the first [startGame]) or three orbs, and every pending
    respawn index is inside it. *)
Definition Inv (g : Game.t) : Prop :=
  Game.canvasRef g <> None /\
  Forall wellFormed (Monster.tentacles (Game.monster g)) /\
  noHoles (Game.orbs g) /\
  Forall (fun i => (i < List.length (Game.orbs g))%nat) (Game.timeouts g) /\
  (Game.orbs g = [] \/ List.length (Game.orbs g) = 3%nat).

(** The core centre is within [d] of one of the four edges. *)
Definition withinOfEdge (canvas : Canvas.t) (m : Monster.t) (d : R) : Prop :=
  Monster.coreX m <= d \/ Canvas.width canvas - Monster.coreX m <= d \/
  Monster.coreY m <= d \/ Canvas.height canvas - Monster.coreY m <= d.

(** ** Sample states *)

(** A two-segment tentacle anchored at the origin, lying along the x axis. *)
Definition sampleTentacle : Tentacle.t :=
  Tentacle.mk 0 0 2 2
    [TentacleSegment.mk (Point.mk 0 0) (Point.mk 1 0) 1 0 true;
     TentacleSegment.mk (Point.mk 1 0) (Point.mk 2 0) 1 0 false]
    (Point.mk 0 0) 0 0 0.

(** An 800 x 600 arena with the core centre 20 = 15 + 6 - 1 pixels from the
    left edge and 42 seconds left. *)
Definition nearLeftEdgeGame : Game.t :=
  Game.mk (Some (Canvas.mk 800 600)) playing 0 42
    (Monster.mk 20 300 15 [] 400 300 (Point.mk 20 300) 0 0 0 false)
    [] [] [].

(** The freshly mounted component after a pointer event at (500, 200). *)
Definition pointerGame : Game.t :=
  handlePointer 500 200 (Game.mounted (Canvas.mk 800 600)).

(** The freshly mounted component after a pointer event at (0, 200): the
    pointer is over the leftmost pixel column of the canvas. *)
Definition edgePointerGame : Game.t :=
  handlePointer 0 200 (Game.mounted (Canvas.mk 800 600)).

(** A canvas resized to 400 x 600 while an orb placed for a wider canvas
    stays at x = 403.  The core (radius 15) has just moved from x = 377 to
    x = 379, pulled by a pointer at x = 397: it is on the right border and
    24 pixels from that orb (radius 10). *)
Definition borderOrb : Orb.t := Orb.mk 403 300 10 0 false.

Definition borderGame : Game.t :=
  Game.mk (Some (Canvas.mk 400 600)) playing 0 42
    (Monster.mk 379 300 15 [] 397 300 (Point.mk 379 300) 20 0 0.5 false)
    [Some borderOrb; Some (Orb.mk 200 100 9 0 false);
     Some (Orb.mk 150 500 11 0 false)]
    [] [].

(** The core (radius 15) sitting on an orb of radius 10, away from the
    border. *)
Definition onOrbGame : Game.t :=
  Game.mk (Some (Canvas.mk 800 600)) playing 0 60
    (Monster.mk 400 300 15 [] 400 300 (Point.mk 400 300) 0 0 0 false)
    [Some (Orb.mk 400 300 10 0 false); Some (Orb.mk 200 100 9 0 false);
     Some (Orb.mk 600 500 11 0 false)]
    [] [].

(** ** Drawing

    The parts of [drawMonster] and [drawOrbs] that do not read the clock
    ([Date.now()]): what they draw is returned as data. *)

(** The radius of the halo that [drawMonster] draws round the core. *)
Definition haloRadius (m : Monster.t) : R :=
  dist (Point.x (Monster.lastTarget m)) (Point.y (Monster.lastTarget m))
       (Monster.coreX m) (Monster.coreY m) + 5.

(** The test of the two tentacle loops of [drawMonster]:
    [dist(tentacle.x, tentacle.y, target.x, target.y) <= tentacle.length]. *)
Definition tentacleLit (m : Monster.t) (tn : Tentacle.t) : bool :=
  Js.leb (dist (Tentacle.x tn) (Tentacle.y tn)
               (Monster.coreX m) (Monster.coreY m))
         (Tentacle.length tn).

Module Dot.
Record t : Type := mk { cx : R; cy : R; radius : R; white : bool }.
End Dot.

(** The dot drawn at a tentacle's anchor: white when lit, dark cyan
    otherwise. *)
Definition tentacleDot (m : Monster.t) (tn : Tentacle.t) : Dot.t :=
  if tentacleLit m tn
  then Dot.mk (Tentacle.x tn) (Tentacle.y tn) (2 * Tentacle.rand tn + 1) true
  else Dot.mk (Tentacle.x tn) (Tentacle.y tn) (Tentacle.rand tn * 2) false.

(** [for (let i = 0; i < numSegments; i++)
       ctx.lineTo(segments[i].nextPos.x, segments[i].nextPos.y)]:
    [k] iterations are left and the current index is [i]. *)
Fixpoint lineTos (k i : nat) (segs : list TentacleSegment.t)
    : option (list Point.t) :=
  match k with
  | O => Some []
  | S k' =>
      try s <- Js.get segs i ;
      try rest <- lineTos k' (S i) segs ;
      Some (Point.mk (Point.x (TentacleSegment.nextPos s))
                     (Point.y (TentacleSegment.nextPos s)) :: rest)
  end.

Module Stroke.
Record t : Type := mk {
  path : list Point.t;
  hue : R;
  lightness : R;
  lineWidth : R
}.
End Stroke.

(** The polyline stroked for a lit tentacle, from its anchor. *)
Definition tentacleStroke (tn : Tentacle.t) : option Stroke.t :=
  try pts <- lineTos (Tentacle.numSegments tn) 0 (Tentacle.segments tn) ;
  Some (Stroke.mk (Point.mk (Tentacle.x tn) (Tentacle.y tn) :: pts)
                  (Tentacle.rand tn * 60 + 180)
                  (Tentacle.rand tn * 60 + 25)
                  (Tentacle.rand tn * 2)).

(** The second [m.tentacles.forEach] of [drawMonster]. *)
Fixpoint drawTentacleLines (m : Monster.t) (ts : list Tentacle.t)
    : option (list Stroke.t) :=
  match ts with
  | [] => Some []
  | tn :: rest =>
      if tentacleLit m tn then
        try st <- tentacleStroke tn ;
        try sts <- drawTentacleLines m rest ;
        Some (st :: sts)
      else drawTentacleLines m rest
  end.

(** The length of a polyline. *)
Fixpoint pathLength (pts : list Point.t) : R :=
  match pts with
  | [] => 0
  | p :: rest =>
      match rest with
      | [] => 0
      | q :: _ =>
          dist (Point.x p) (Point.y p) (Point.x q) (Point.y q)
          + pathLength rest
      end
  end.

(** The fill styles of [drawOrbs]: [colors[index % 3]], the translucent
    white of the middle ring, the white of the inner core. *)
Inductive Fill : Type :=
| Palette (i : nat)
| WhiteGlass
| White.

Module Disc.
Record t : Type := mk { fill : Fill; cx : R; cy : R; radius : R }.
End Disc.

(** [orb.pulsePhase += 0.1]. *)
Definition pulse (orb : Orb.t) : Orb.t :=
  Orb.mk (Orb.x orb) (Orb.y orb) (Orb.radius orb) (Orb.pulsePhase orb + 0.1)
         (Orb.collected orb).

(** The callback of [orbs.current.forEach] in [drawOrbs]: the orb after
    the call and the three discs drawn for it. *)
Definition drawOrb (index : nat) (orb : Orb.t) : Orb.t * list Disc.t :=
  if negb (Orb.collected orb) then
    let orb' := pulse orb in
    let pulseSize := Orb.radius orb' + sin (Orb.pulsePhase orb') * 3 in
    (orb',
     [Disc.mk (Palette (index mod 3)) (Orb.x orb') (Orb.y orb') pulseSize;
      Disc.mk WhiteGlass (Orb.x orb') (Orb.y orb') (pulseSize * 0.7);
      Disc.mk White (Orb.x orb') (Orb.y orb') (pulseSize * 0.4)])
  else (orb, []).

(** [drawOrbs] over the slots from [index] on; a hole is skipped. *)
Fixpoint drawOrbsFrom (index : nat) (os : list (option Orb.t))
    : list (option Orb.t) * list Disc.t :=
  match os with
  | [] => ([], [])
  | o :: rest =>
      let (rest', discs) := drawOrbsFrom (S index) rest in
      match o with
      | None => (None :: rest', discs)
      | Some orb =>
          let (orb', ds) := drawOrb index orb in
          (Some orb' :: rest', ds ++ discs)
      end
  end.

Definition drawOrbs (os : list (option Orb.t))
    : list (option Orb.t) * list Disc.t :=
  drawOrbsFrom 0 os.

(** The state after the drawing half of [gameLoop]: of all the [draw...]
    functions only [drawOrbs] writes to the state. *)
Definition drawPhase (g : Game.t) : Game.t :=
  match Game.canvasRef g with
  | None => g
  | Some _ =>
      Game.mk (Game.canvasRef g) (Game.gameState g) (Game.score g)
        (Game.timeLeft g) (Game.monster g) (fst (drawOrbs (Game.orbs g)))
        (Game.particles g) (Game.timeouts g)
  end.

(** One whole run of [gameLoop]: the drawing half, then the simulation
    half.  In the drawing half [drawBackground] calls [Math.random()] three
    times for each of its 30 stars, [drawOrbs] advances the pulses, and the
    stroking loop of [drawMonster] throws when a lit tentacle has fewer
    segments than [numSegments]; the calls on the canvas context are taken
    to return. *)
Definition frame (g : Game.t) : Rand.M Game.t :=
  fun rnd k =>
    match Game.canvasRef g with
    | None => Some (g, k)
    | Some _ =>
        try strokes <- drawTentacleLines (Game.monster g)
                         (Monster.tentacles (Game.monster g)) ;
        gameLoop (drawPhase g) rnd (90 + k)%nat
    end.

(** Two orb slots that differ at most in [pulsePhase]. *)
Definition sameOrb (o o' : option Orb.t) : Prop :=
  match o, o' with
  | None, None => True
  | Some a, Some b =>
      Orb.x b = Orb.x a /\ Orb.y b = Orb.y a /\
      Orb.radius b = Orb.radius a /\ Orb.collected b = Orb.collected a
  | _, _ => False
  end.

(** Two states that differ at most in the [pulsePhase] of their orbs. *)
Definition samePlay (g g' : Game.t) : Prop :=
  Game.canvasRef g' = Game.canvasRef g /\
  Game.gameState g' = Game.gameState g /\
  Game.score g' = Game.score g /\
  Game.timeLeft g' = Game.timeLeft g /\
  Game.monster g' = Game.monster g /\
  Forall2 sameOrb (Game.orbs g) (Game.orbs g') /\
  Game.particles g' = Game.particles g /\
  Game.timeouts g' = Game.timeouts g.

(** [n] ticks of the countdown with nothing in between. *)
Fixpoint tickSeconds (n : nat) (g : Game.t) : Game.t :=
  match n with
  | O => g
  | S n' => tickSeconds n' (tickSecond g)
  end.

(** No event of the list is a [startGame]. *)
Definition noRestart (es : list Event) : Prop :=
  Forall (fun e => forall iw, e <> StartGame iw) es.

(** A collected orb always has its respawn pending. *)
Definition respawnsPending (g : Game.t) : Prop :=
  forall i orb,
    nth_error (Game.orbs g) i = Some (Some orb) ->
    Orb.collected orb = true -> In i (Game.timeouts g).

(** A monster holding the sample tentacle, with core and pointer at
    (1, 1). *)
Definition sampleMonster : Monster.t :=
  Monster.mk 1 1 15 [sampleTentacle] 1 1 (Point.mk 1 1) 0 0 0 false.

(** The sample monster on an 800 x 600 canvas, in a playing session with
    no orbs. *)
Definition tentacleGame : Game.t :=
  Game.mk (Some (Canvas.mk 800 600)) playing 0 60 sampleMonster [] [] [].

(** No event of the list is a [startGame] or a resize, the two handlers
    that move the core without a tick. *)
Definition noJump (es : list Event) : Prop :=
  Forall (fun e => (forall iw, e <> StartGame iw) /\
                   (forall w h, e <> Resize w h)) es.

(** The session invariant, extended to the particles and the respawns:
    every particle has [life = 1], there are at most 45 of them, and every
    collected orb has its respawn pending. *)
Definition PlayInv (g : Game.t) : Prop :=
  Inv g /\
  Forall (fun p => Particle.life p = 1) (Game.particles g) /\
  (List.length (Game.particles g) <= 45)%nat /\
  respawnsPending g.

(** Two outcomes of a frame that differ at most in the [pulsePhase] of
    the orbs: both throw, or both return, at the same position of the random
    stream. *)
Definition sameOutcome (a b : option (Game.t * nat)) : Prop :=
  match a, b with
  | Some (ga, ka), Some (gb, kb) => ka = kb /\ samePlay ga gb
  | None, None => True
  | _, _ => False
  end.

(** What [drawOrbs] leaves in a slot. *)
Definition pulsed (o : option Orb.t) : option Orb.t :=
  match o with
  | Some orb => Some (if Orb.collected orb then orb else pulse orb)
  | None => None
  end.

(** The slot holds an orb that [drawOrbs] draws. *)
Definition visible (o : option Orb.t) : bool :=
  match o with
  | Some orb => negb (Orb.collected orb)
  | None => false
  end.

(** * Properties *)

(** ** Real-number and list helpers *)

Lemma point_eta (p : Point.t) : Point.mk (Point.x p) (Point.y p) = p.
Proof. destruct p; reflexivity. Qed.

Lemma cos_minus_PI (a : R) : cos (a - PI) = - cos a.
Proof. rewrite cos_minus, cos_PI, sin_PI; ring. Qed.

Lemma sin_minus_PI (a : R) : sin (a - PI) = - sin a.
Proof. rewrite sin_minus, cos_PI, sin_PI; ring. Qed.

Lemma dist_on_circle (tx ty len a : R) :
  dist (tx - len * cos a) (ty - len * sin a) tx ty = Rabs len.
Proof.
  unfold dist.
  replace ((tx - (tx - len * cos a)) ^ 2 + (ty - (ty - len * sin a)) ^ 2)
    with (Rsqr len).
  - apply sqrt_Rsqr_abs.
  - pose proof (sin2_cos2 a) as H. unfold Rsqr in *.
    transitivity (len * len * (sin a * sin a + cos a * cos a)).
    + rewrite H; ring.
    + ring.
Qed.

Lemma leb_true (a b : R) : Js.leb a b = true <-> a <= b.
Proof. unfold Js.leb; destruct (Rle_dec a b); split; intros; try easy. Qed.

Lemma leb_false (a b : R) : Js.leb a b = false <-> b < a.
Proof.
  unfold Js.leb; destruct (Rle_dec a b); split; intros; try easy; lra.
Qed.

Lemma ltb_true (a b : R) : Js.ltb a b = true <-> a < b.
Proof. unfold Js.ltb; destruct (Rlt_dec a b); split; intros; try easy. Qed.

Lemma ltb_false (a b : R) : Js.ltb a b = false <-> b <= a.
Proof.
  unfold Js.ltb; destruct (Rlt_dec a b); split; intros; try easy; lra.
Qed.

Lemma truthy_true (v : R) : Js.truthy v = true <-> v <> 0.
Proof. unfold Js.truthy; destruct (Req_dec_T v 0); split; intros; easy. Qed.

Lemma truthy_false (v : R) : Js.truthy v = false <-> v = 0.
Proof. unfold Js.truthy; destruct (Req_dec_T v 0); split; intros; easy. Qed.

(** ** [Math.atan2] is the polar angle

    The two lemmas pin [Js.atan2] down: it lies in (-PI, PI] and, for any
    point, [r (cos angle, sin angle)] with [r] the distance to the origin
    gives the point back. *)

Lemma norm_factor (x y : R) :
  x <> 0 -> sqrt (x * x + y * y) = Rabs x * sqrt (1 + (y / x)²).
Proof.
  intros Hx. rewrite <- sqrt_Rsqr_abs, <- sqrt_mult.
  - f_equal. unfold Rsqr. field. exact Hx.
  - apply Rle_0_sqr.
  - pose proof (Rle_0_sqr (y / x)). lra.
Qed.

Lemma norm_pos (z : R) : 0 < sqrt (1 + z²).
Proof. apply sqrt_lt_R0. pose proof (Rle_0_sqr z). lra. Qed.

Lemma atan2_polar (x y : R) :
  sqrt (x * x + y * y) * cos (Js.atan2 y x) = x /\
  sqrt (x * x + y * y) * sin (Js.atan2 y x) = y.
Proof.
  unfold Js.atan2.
  destruct (Rlt_dec 0 x) as [Hpos | Hnpos].
  - rewrite norm_factor by lra. rewrite Rabs_right by lra.
    rewrite cos_atan, sin_atan. pose proof (norm_pos (y / x)).
    split; field; lra.
  - destruct (Rlt_dec x 0) as [Hneg | Hnneg].
    + rewrite norm_factor by lra. rewrite Rabs_left by lra.
      pose proof (norm_pos (y / x)).
      destruct (Rle_dec 0 y).
      * rewrite neg_cos, neg_sin, cos_atan, sin_atan. split; field; lra.
      * rewrite cos_minus_PI, sin_minus_PI, cos_atan, sin_atan.
        split; field; lra.
    + assert (x = 0) by lra. subst x.
      replace (0 * 0 + y * y) with (Rsqr y) by (unfold Rsqr; ring).
      rewrite sqrt_Rsqr_abs.
      destruct (Rlt_dec 0 y).
      * rewrite cos_PI2, sin_PI2, Rabs_right by lra. split; ring.
      * destruct (Rlt_dec y 0).
        -- rewrite cos_neg, sin_neg, cos_PI2, sin_PI2, Rabs_left by lra.
           split; ring.
        -- assert (y = 0) by lra. subst y. rewrite Rabs_R0. split; ring.
Qed.

Lemma atan2_range (x y : R) : - PI < Js.atan2 y x <= PI.
Proof.
  pose proof PI_RGT_0 as Hpi. unfold Js.atan2.
  destruct (Rlt_dec 0 x) as [Hpos | Hnpos].
  - pose proof (atan_bound (y / x)). lra.
  - destruct (Rlt_dec x 0) as [Hneg | Hnneg].
    + pose proof (atan_bound (y / x)) as Hb.
      pose proof (Rinv_neg x Hneg) as Hinv.
      destruct (Rle_dec 0 y) as [Hy | Hy].
      * assert (Hz : y / x <= 0) by (unfold Rdiv; nra).
        destruct Hz as [Hz | Hz].
        -- pose proof (atan_increasing _ _ Hz) as Hi.
           rewrite atan_0 in Hi. lra.
        -- rewrite Hz, atan_0. lra.
      * assert (Hz : 0 < y / x) by (unfold Rdiv; nra).
        pose proof (atan_increasing _ _ Hz) as Hi. rewrite atan_0 in Hi. lra.
    + destruct (Rlt_dec 0 y); [lra|]. destruct (Rlt_dec y 0); lra.
Qed.

(** ** The segment (C1, C4) *)

Lemma update_pos (s : TentacleSegment.t) (T : Point.t) :
  TentacleSegment.pos (TentacleSegment.update s T) =
  Point.mk
    (Point.x T - TentacleSegment.length s *
                 cos (TentacleSegment.angle (TentacleSegment.update s T)))
    (Point.y T - TentacleSegment.length s *
                 sin (TentacleSegment.angle (TentacleSegment.update s T))).
Proof.
  unfold TentacleSegment.update; simpl.
  rewrite cos_minus_PI, sin_minus_PI. f_equal; ring.
Qed.

Lemma update_nextPos (s : TentacleSegment.t) (T : Point.t) :
  TentacleSegment.nextPos (TentacleSegment.update s T) = T.
Proof.
  destruct T as [tx ty]. unfold TentacleSegment.update; simpl.
  rewrite cos_minus_PI, sin_minus_PI. f_equal; ring.
Qed.

Lemma update_dist_abs (s : TentacleSegment.t) (T : Point.t) :
  dist (Point.x (TentacleSegment.pos (TentacleSegment.update s T)))
       (Point.y (TentacleSegment.pos (TentacleSegment.update s T)))
       (Point.x T) (Point.y T)
  = Rabs (TentacleSegment.length s).
Proof. rewrite update_pos; simpl. apply dist_on_circle. Qed.

Lemma update_consistent (s : TentacleSegment.t) (T : Point.t) :
  TentacleSegment.consistent (TentacleSegment.update s T).
Proof. reflexivity. Qed.

Lemma fallback_consistent (s : TentacleSegment.t) (P : Point.t) :
  TentacleSegment.consistent (TentacleSegment.fallback s P).
Proof. reflexivity. Qed.

(** C1.  After [update(T)] on a segment of length [len >= 0]: the angle is
    [atan2(T.y - pos.y, T.x - pos.x)] taken at the old [pos]; the new [pos]
    is [T - len (cos angle, sin angle)]; [nextPos], recomputed as
    [pos + len (cos angle, sin angle)], is [T]; and the distance from [pos]
    to [T] is [len].  Over the reals both equalities are exact. *)
Theorem C1_update_reaches_target (s : TentacleSegment.t) (T : Point.t) :
  0 <= TentacleSegment.length s ->
  let s' := TentacleSegment.update s T in
  TentacleSegment.angle s' =
    Js.atan2 (Point.y T - Point.y (TentacleSegment.pos s))
             (Point.x T - Point.x (TentacleSegment.pos s)) /\
  TentacleSegment.pos s' =
    Point.mk
      (Point.x T - TentacleSegment.length s * cos (TentacleSegment.angle s'))
      (Point.y T - TentacleSegment.length s * sin (TentacleSegment.angle s')) /\
  TentacleSegment.nextPos s' =
    Point.mk
      (Point.x (TentacleSegment.pos s') +
       TentacleSegment.length s * cos (TentacleSegment.angle s'))
      (Point.y (TentacleSegment.pos s') +
       TentacleSegment.length s * sin (TentacleSegment.angle s')) /\
  TentacleSegment.length s' = TentacleSegment.length s /\
  TentacleSegment.nextPos s' = T /\
  dist (Point.x (TentacleSegment.pos s')) (Point.y (TentacleSegment.pos s'))
       (Point.x T) (Point.y T) = TentacleSegment.length s.
Proof.
  intros Hlen s'. subst s'.
  repeat split.
  - apply update_pos.
  - apply update_nextPos.
  - rewrite update_dist_abs. apply Rabs_right. lra.
Qed.

(** C1 on the unit segment from the origin along the x axis, pulled to
    (3, 4). *)
Lemma C1_update_reaches_target_witness :
  let s := TentacleSegment.mk (Point.mk 0 0) (Point.mk 1 0) 1 0 true in
  let s' := TentacleSegment.update s (Point.mk 3 4) in
  TentacleSegment.nextPos s' = Point.mk 3 4 /\
  dist (Point.x (TentacleSegment.pos s')) (Point.y (TentacleSegment.pos s'))
       3 4 = 1.
Proof.
  intros s s'.
  assert (H : 0 <= TentacleSegment.length s) by (simpl; lra).
  destruct (C1_update_reaches_target s (Point.mk 3 4) H)
    as (_ & _ & _ & _ & Hn & Hd).
  split; [exact Hn | exact Hd].
Defined.

(** C4.  [nextPos = pos + length (cos angle, sin angle)] holds for the
    segment the constructor returns (from a tentacle when [first], from the
    previous segment otherwise), after [update] and after [fallback];
    [fallback] puts [pos] at the given point and keeps the angle it found;
    neither method changes [length]. *)
Theorem C4_segment_invariant :
  (forall px py len a,
     exists s,
       TentacleSegment.new (TentacleSegment.OfTentacle px py) len a true
         = Some s /\
       TentacleSegment.consistent s /\
       TentacleSegment.pos s = Point.mk px py /\
       TentacleSegment.length s = len /\ TentacleSegment.angle s = a) /\
  (forall np len a,
     exists s,
       TentacleSegment.new (TentacleSegment.OfSegment np) len a false
         = Some s /\
       TentacleSegment.consistent s /\
       TentacleSegment.pos s = np /\
       TentacleSegment.length s = len /\ TentacleSegment.angle s = a) /\
  (forall s T,
     TentacleSegment.consistent (TentacleSegment.update s T) /\
     TentacleSegment.length (TentacleSegment.update s T)
       = TentacleSegment.length s) /\
  (forall s P,
     TentacleSegment.consistent (TentacleSegment.fallback s P) /\
     TentacleSegment.pos (TentacleSegment.fallback s P) = P /\
     TentacleSegment.angle (TentacleSegment.fallback s P)
       = TentacleSegment.angle s /\
     TentacleSegment.length (TentacleSegment.fallback s P)
       = TentacleSegment.length s).
Proof.
  repeat split.
  - intros px py len a. eexists; split; [reflexivity|].
    repeat split.
  - intros np len a. eexists; split; [reflexivity|].
    repeat split. simpl. apply point_eta.
  - simpl. apply point_eta.
Qed.

(** ** The chain passes (C2, C3) *)

Section ArrayLemmas.

Context {A : Type}.

Lemma get_middle (pre post : list A) (a : A) :
  Js.get (pre ++ a :: post) (List.length pre) = Some a.
Proof.
  unfold Js.get. induction pre as [|b pre IH]; simpl; auto.
Qed.

Lemma set_nth_middle (pre post : list A) (a v : A) :
  Js.set_nth (List.length pre) v (pre ++ a :: post) = pre ++ v :: post.
Proof.
  induction pre as [|b pre IH]; simpl; [reflexivity | now rewrite IH].
Qed.

Lemma get_after (pre post : list A) (a b : A) :
  Js.get (pre ++ a :: b :: post) (S (List.length pre)) = Some b.
Proof.
  unfold Js.get. induction pre as [|c pre IH]; simpl; auto.
Qed.

Lemma set_nth_after (pre post : list A) (a b v : A) :
  Js.set_nth (S (List.length pre)) v (pre ++ a :: b :: post)
  = pre ++ a :: v :: post.
Proof.
  induction pre as [|c pre IH]; simpl; [reflexivity | now rewrite IH].
Qed.

Lemma set_nth_length (i : nat) (v : A) (l : list A) :
  List.length (Js.set_nth i v l) = List.length l.
Proof.
  revert i; induction l as [|a l IH]; intros [|i]; simpl; auto.
Qed.

Lemma snoc_of_length (l : list A) (n : nat) :
  List.length l = S n ->
  exists pre a, l = pre ++ [a] /\ List.length pre = n.
Proof.
  intros H. destruct (exists_last (l := l)) as (pre & a & ->).
  - intros ->; discriminate.
  - exists pre, a. split; [reflexivity|].
    rewrite length_app in H; simpl in H; lia.
Qed.

End ArrayLemmas.

Lemma ikChain_length (tgt : Point.t) (segs : list TentacleSegment.t) :
  List.length (ikChain tgt segs) = List.length segs.
Proof. induction segs as [|s segs IH]; simpl; auto. Qed.

Lemma ikChain_app (tgt : Point.t) (pre : list TentacleSegment.t)
    (h : TentacleSegment.t) (post : list TentacleSegment.t) :
  ikChain tgt (pre ++ h :: post) =
  match ikChain tgt (h :: post) with
  | [] => []
  | h' :: post' => ikChain (TentacleSegment.pos h') pre ++ h' :: post'
  end.
Proof.
  induction pre as [|s pre IH].
  - simpl. reflexivity.
  - change ((s :: pre) ++ h :: post) with (s :: (pre ++ h :: post)).
    cbn [ikChain]. rewrite IH. cbn [ikChain].
    destruct pre as [|s2 pre]; reflexivity.
Qed.

Lemma ikChain_snoc (tgt : Point.t) (pre : list TentacleSegment.t)
    (s : TentacleSegment.t) :
  ikChain tgt (pre ++ [s]) =
  ikChain (TentacleSegment.pos (TentacleSegment.update s tgt)) pre
    ++ [TentacleSegment.update s tgt].
Proof. rewrite ikChain_app. reflexivity. Qed.

(** The descending loop, started below a suffix whose first segment [h]
    already has its final position, solves the prefix toward [h]. *)
Lemma ikLoop_prefix (k : nat) :
  forall (pre : list TentacleSegment.t) (h : TentacleSegment.t)
         (post : list TentacleSegment.t),
    List.length pre = k ->
    ikLoop k (pre ++ h :: post) =
    Some (ikChain (TentacleSegment.pos h) pre ++ h :: post).
Proof.
  induction k as [|i IH]; intros pre h post Hlen.
  - destruct pre; [reflexivity | discriminate].
  - destruct (snoc_of_length pre i Hlen) as (pre' & s & -> & Hpre').
    rewrite <- app_assoc. simpl app.
    cbn [ikLoop]. subst i.
    rewrite get_middle, get_after, set_nth_middle.
    rewrite (IH pre' _ (h :: post) eq_refl).
    rewrite ikChain_snoc. rewrite <- app_assoc. reflexivity.
Qed.

(** The index loops of the IK pass compute the recursion from the tip. *)
Lemma ikPass_ikChain (n : nat) (tgt : Point.t)
    (segs : list TentacleSegment.t) :
  (1 <= n)%nat -> List.length segs = n ->
  ikPass n tgt segs = Some (ikChain tgt segs).
Proof.
  intros Hn Hlen. destruct n as [|last]; [lia|].
  destruct (snoc_of_length segs last Hlen) as (pre & tip & -> & Hpre).
  subst last. unfold ikPass. rewrite get_middle, set_nth_middle.
  rewrite (ikLoop_prefix _ pre _ [] eq_refl).
  rewrite ikChain_snoc. reflexivity.
Qed.

(** Every segment of the solved chain is the old segment updated toward
    the solved position of its successor, the tip toward the tip target. *)
Lemma ikChain_nth (tgt : Point.t) (segs : list TentacleSegment.t) :
  forall i s,
    nth_error segs i = Some s ->
    nth_error (ikChain tgt segs) i =
    Some (TentacleSegment.update s
            match nth_error (ikChain tgt segs) (S i) with
            | Some succ => TentacleSegment.pos succ
            | None => tgt
            end).
Proof.
  induction segs as [|a segs IH]; intros [|i] s H; simpl in H; try discriminate.
  - injection H as ->. cbn [ikChain]. simpl.
    destruct (ikChain tgt segs); reflexivity.
  - cbn [ikChain]. simpl nth_error at 1. rewrite (IH i s H). reflexivity.
Qed.

Lemma fallbackChain_length (p : Point.t) (segs : list TentacleSegment.t) :
  List.length (fallbackChain p segs) = List.length segs.
Proof. revert p; induction segs as [|s segs IH]; intros p; simpl; auto. Qed.

(** The ascending loop, started after a prefix whose last segment [pv]
    is already placed, lays the suffix out from [pv.nextPos]. *)
Lemma fallbackLoop_suffix (post : list TentacleSegment.t) :
  forall (pre : list TentacleSegment.t) (pv : TentacleSegment.t),
    fallbackLoop (List.length post) (S (List.length pre)) (pre ++ pv :: post) =
    Some (pre ++ pv :: fallbackChain (TentacleSegment.nextPos pv) post).
Proof.
  induction post as [|s post IH]; intros pre pv.
  - reflexivity.
  - cbn [List.length fallbackLoop].
    rewrite get_after.
    replace (S (List.length pre) - 1)%nat with (List.length pre) by lia.
    rewrite get_middle, set_nth_after.
    pose proof (IH (pre ++ [pv])
                  (TentacleSegment.fallback s (TentacleSegment.nextPos pv)))
      as H.
    rewrite length_app in H; simpl in H.
    replace (List.length pre + 1)%nat with (S (List.length pre)) in H by lia.
    rewrite <- app_assoc in H. simpl in H. rewrite H.
    rewrite <- app_assoc. reflexivity.
Qed.

(** The index loops of the fallback pass compute the recursion from the
    base. *)
Lemma fallbackPass_fallbackChain (n : nat) (anchor : Point.t)
    (segs : list TentacleSegment.t) :
  (1 <= n)%nat -> List.length segs = n ->
  fallbackPass n anchor segs = Some (fallbackChain anchor segs).
Proof.
  intros Hn Hlen. destruct segs as [|base rest]; [simpl in Hlen; lia|].
  unfold fallbackPass. simpl Js.get. cbn [Js.set_nth].
  replace (n - 1)%nat with (List.length rest) by (simpl in Hlen; lia).
  apply (fallbackLoop_suffix rest [] (TentacleSegment.fallback base anchor)).
Qed.

Lemma fallbackChain_link (segs : list TentacleSegment.t) :
  forall p i a s,
    nth_error (fallbackChain p segs) i = Some a ->
    nth_error segs (S i) = Some s ->
    nth_error (fallbackChain p segs) (S i) =
    Some (TentacleSegment.fallback s (TentacleSegment.nextPos a)).
Proof.
  induction segs as [|x rest IH]; intros p i a s Ha Hs; [discriminate|].
  destruct i as [|i].
  - simpl in Ha. injection Ha as <-. simpl in Hs.
    destruct rest as [|s' rest']; [discriminate|]. simpl in Hs.
    injection Hs as ->. reflexivity.
  - simpl in Ha, Hs. cbn [fallbackChain]. simpl nth_error.
    exact (IH _ i a s Ha Hs).
Qed.

Lemma fallbackChain_angles (p : Point.t) (segs : list TentacleSegment.t) :
  map TentacleSegment.angle (fallbackChain p segs) =
  map TentacleSegment.angle segs.
Proof.
  revert p; induction segs as [|s segs IH]; intros p; simpl; [reflexivity|].
  now rewrite IH.
Qed.

(** [updateTentacle] on a chain of the declared size never throws, and its
    segments are the recursion from the tip, followed by the recursion from
    the base when the fallback condition holds. *)
Lemma updateTentacle_chain (T Tprev : Point.t) (tn : Tentacle.t) :
  (1 <= Tentacle.numSegments tn)%nat ->
  List.length (Tentacle.segments tn) = Tentacle.numSegments tn ->
  let angle :=
    Js.atan2 (Point.y T - Tentacle.y tn) (Point.x T - Tentacle.x tn) in
  let delta :=
    dist (Point.x Tprev) (Point.y Tprev) (Point.x T) (Point.y T) + 5 in
  let solved :=
    ikChain (tipTarget T (leadPoint T delta angle)) (Tentacle.segments tn) in
  updateTentacle T Tprev tn =
  Some (Tentacle.mk (Tentacle.x tn) (Tentacle.y tn) (Tentacle.length tn)
          (Tentacle.numSegments tn)
          (if inReach T Tprev tn
           then fallbackChain (Point.mk (Tentacle.x tn) (Tentacle.y tn)) solved
           else solved)
          (Tentacle.target tn) (Tentacle.rand tn) angle delta).
Proof.
  intros Hn Hlen angle delta solved. unfold updateTentacle.
  fold angle delta. rewrite (ikPass_ikChain _ _ _ Hn Hlen). fold solved.
  destruct (inReach T Tprev tn); [|reflexivity].
  rewrite (fallbackPass_fallbackChain _ _ solved Hn).
  - reflexivity.
  - unfold solved. now rewrite ikChain_length.
Qed.

Lemma Forall2_singleton {A B : Type} (R : A -> B -> Prop) (a : A)
    (l' : list B) :
  Forall2 R [a] l' -> exists b, l' = [b] /\ R a b.
Proof.
  intros H. inversion H as [|a0 b l0 l1 Hab Hr]; subst.
  inversion Hr; subst. exists b. split; [reflexivity | exact Hab].
Qed.

(** [forEach] over tentacles whose chains have their [numSegments]
    segments: no callback throws, and the new list holds, in order, the
    [updateTentacle] of each old tentacle. *)
Lemma forEachTry_updateTentacle (T Tprev : Point.t) (ts : list Tentacle.t) :
  Forall (fun tn =>
            (1 <= Tentacle.numSegments tn)%nat /\
            List.length (Tentacle.segments tn) = Tentacle.numSegments tn) ts ->
  exists ts',
    forEachTry (updateTentacle T Tprev) ts = Some ts' /\
    Forall2 (fun tn tn' =>
               ((1 <= Tentacle.numSegments tn)%nat /\
                List.length (Tentacle.segments tn) = Tentacle.numSegments tn) /\
               updateTentacle T Tprev tn = Some tn') ts ts'.
Proof.
  induction 1 as [|tn ts Htn _ (ts' & E & IH)].
  - exists []. split; [reflexivity | constructor].
  - pose proof Htn as (Hn & Hlen).
    pose proof (updateTentacle_chain T Tprev tn Hn Hlen) as Et.
    cbv zeta in Et.
    eexists (_ :: ts'). cbn [forEachTry]. rewrite Et, E.
    split; [reflexivity|]. constructor; [split; [exact Htn | exact Et]|].
    exact IH.
Qed.

(** The tick, with the canvas mounted: the record [updateMonster] returns.
    The target [T] handed to every tentacle is the core after its move, the
    previous target is the [lastTarget] the tick found. *)
Lemma updateMonster_tick (canvas : Canvas.t) (m : Monster.t) :
  Forall (fun tn =>
            (1 <= Tentacle.numSegments tn)%nat /\
            List.length (Tentacle.segments tn) = Tentacle.numSegments tn)
         (Monster.tentacles m) ->
  let T := Point.mk (Monster.coreX m + fst (targetError canvas m) / 10)
                    (Monster.coreY m + snd (targetError canvas m) / 10) in
  exists ts',
    Forall2 (fun tn tn' =>
               ((1 <= Tentacle.numSegments tn)%nat /\
                List.length (Tentacle.segments tn) = Tentacle.numSegments tn) /\
               updateTentacle T (Monster.lastTarget m) tn = Some tn')
            (Monster.tentacles m) ts' /\
    updateMonster (Some canvas) m =
    Some (Monster.mk (Point.x T) (Point.y T) (Monster.coreRadius m) ts'
            (Monster.mouseX m) (Monster.mouseY m) T
            (fst (targetError canvas m)) (snd (targetError canvas m))
            (Monster.autoMoveTime m + 0.01) (Monster.nearBoundary m)).
Proof.
  intros Hch T. unfold updateMonster. subst T.
  destruct (targetError canvas m) as [ex ey]. cbn [fst snd Point.x Point.y].
  destruct (forEachTry_updateTentacle
              (Point.mk (Monster.coreX m + ex / 10)
                        (Monster.coreY m + ey / 10))
              (Monster.lastTarget m) _ Hch) as (ts' & E & HF).
  exists ts'. split; [exact HF|]. rewrite E. reflexivity.
Qed.

Lemma inReach_true (T Tprev : Point.t) (tn : Tentacle.t) :
  inReach T Tprev tn = true <->
  dist (Tentacle.x tn) (Tentacle.y tn) (Point.x T) (Point.y T) <=
  Tentacle.length tn +
  dist (Point.x Tprev) (Point.y Tprev) (Point.x T) (Point.y T).
Proof. apply leb_true. Qed.

Lemma inReach_false (T Tprev : Point.t) (tn : Tentacle.t) :
  inReach T Tprev tn = false <->
  ~ dist (Tentacle.x tn) (Tentacle.y tn) (Point.x T) (Point.y T) <=
    Tentacle.length tn +
    dist (Point.x Tprev) (Point.y Tprev) (Point.x T) (Point.y T).
Proof. unfold inReach. rewrite leb_false. split; lra. Qed.

(** C2.  A tick ([updateMonster] with the canvas mounted) on a monster
    whose tentacles hold their [numSegments >= 1] segments does not throw.
    It moves the core by [targetError / 10] and then, for every tentacle, in
    order, with [T] the core after that move, [T_prev] the [lastTarget] the
    tick found, [angle = atan2(T.y - anchor.y, T.x - anchor.x)],
    [delta = dist(T_prev, T) + 5] and
    [L = T - 0.8 delta (cos angle, sin angle)]: it stores [angle] and
    [delta] in the tentacle; the IK pass yields a chain [solved] of the same
    size, in which the tip (index [numSegments - 1]) is the old tip updated
    toward [L] when [L.x] is nonzero and toward [T] when [L.x] is zero, and
    every segment of lower index [i] is the old segment [i] updated toward
    the position that segment [i + 1] has in [solved], that is, after its
    own update.  What the tick leaves in the tentacle is [solved], or the
    fallback pass run on [solved]. *)
Theorem C2_ik_pass (canvas : Canvas.t) (m : Monster.t) :
  Forall (fun tn =>
            (1 <= Tentacle.numSegments tn)%nat /\
            List.length (Tentacle.segments tn) = Tentacle.numSegments tn)
         (Monster.tentacles m) ->
  exists m',
    updateMonster (Some canvas) m = Some m' /\
    Monster.coreX m' = Monster.coreX m + fst (targetError canvas m) / 10 /\
    Monster.coreY m' = Monster.coreY m + snd (targetError canvas m) / 10 /\
    let T := Point.mk (Monster.coreX m') (Monster.coreY m') in
    let Tprev := Monster.lastTarget m in
    Forall2
      (fun tn tn' =>
         let n := Tentacle.numSegments tn in
         let angle :=
           Js.atan2 (Point.y T - Tentacle.y tn) (Point.x T - Tentacle.x tn) in
         let delta :=
           dist (Point.x Tprev) (Point.y Tprev) (Point.x T) (Point.y T) + 5 in
         let L := Point.mk (Point.x T - 0.8 * delta * cos angle)
                           (Point.y T - 0.8 * delta * sin angle) in
         let goal := if Req_dec_T (Point.x L) 0 then T else L in
         exists solved,
           ikPass n goal (Tentacle.segments tn) = Some solved /\
           Tentacle.angle tn' = angle /\
           Tentacle.dt tn' = delta /\
           (if inReach T Tprev tn
            then fallbackPass n (Point.mk (Tentacle.x tn) (Tentacle.y tn))
                   solved = Some (Tentacle.segments tn')
            else Tentacle.segments tn' = solved) /\
           List.length solved = n /\
           (forall tip,
              nth_error (Tentacle.segments tn) (n - 1) = Some tip ->
              nth_error solved (n - 1)
              = Some (TentacleSegment.update tip goal)) /\
           (forall i s succ,
              (S i < n)%nat ->
              nth_error (Tentacle.segments tn) i = Some s ->
              nth_error solved (S i) = Some succ ->
              nth_error solved i =
              Some (TentacleSegment.update s (TentacleSegment.pos succ))))
      (Monster.tentacles m) (Monster.tentacles m').
Proof.
  intros Hch.
  destruct (updateMonster_tick canvas m Hch) as (ts' & HF & E).
  eexists. split; [exact E|].
  cbn [Monster.coreX Monster.coreY Monster.tentacles Point.x Point.y].
  split; [reflexivity|]. split; [reflexivity|].
  cbv zeta.
  set (T := Point.mk (Monster.coreX m + fst (targetError canvas m) / 10)
                     (Monster.coreY m + snd (targetError canvas m) / 10))
    in *.
  set (Tprev := Monster.lastTarget m) in *.
  eapply Forall2_impl; [|exact HF].
  intros tn tn' ((Hn & Hlen) & Hupd). cbv beta.
  set (n := Tentacle.numSegments tn) in *.
  set (angle :=
         Js.atan2 (Point.y T - Tentacle.y tn) (Point.x T - Tentacle.x tn)).
  set (delta :=
         dist (Point.x Tprev) (Point.y Tprev) (Point.x T) (Point.y T) + 5).
  set (L := Point.mk (Point.x T - 0.8 * delta * cos angle)
                     (Point.y T - 0.8 * delta * sin angle)).
  set (goal := if Req_dec_T (Point.x L) 0 then T else L).
  assert (Hgoal : goal = tipTarget T (leadPoint T delta angle)).
  { unfold goal, tipTarget, Js.truthy, leadPoint. fold L.
    destruct (Req_dec_T (Point.x L) 0); reflexivity. }
  pose proof (updateTentacle_chain T Tprev tn Hn Hlen) as Hc.
  cbv zeta in Hc. fold angle delta in Hc. rewrite <- Hgoal in Hc.
  rewrite Hc in Hupd. injection Hupd as <-.
  exists (ikChain goal (Tentacle.segments tn)).
  split; [apply (ikPass_ikChain n goal _ Hn Hlen)|].
  cbn [Tentacle.angle Tentacle.dt Tentacle.segments Tentacle.x Tentacle.y].
  split; [reflexivity|]. split; [reflexivity|].
  split; [|split; [|split]].
  - destruct (inReach T Tprev tn); [|reflexivity].
    apply fallbackPass_fallbackChain; [exact Hn|].
    rewrite ikChain_length. exact Hlen.
  - rewrite ikChain_length. exact Hlen.
  - intros tip Htip. rewrite (ikChain_nth goal _ _ _ Htip).
    replace (nth_error (ikChain goal (Tentacle.segments tn)) (S (n - 1)))
      with (@None TentacleSegment.t); [reflexivity|].
    symmetry. apply nth_error_None. rewrite ikChain_length.
    fold n in Hlen. lia.
  - intros i s succ Hi Hs Hsucc.
    rewrite (ikChain_nth goal _ _ _ Hs), Hsucc. reflexivity.
Qed.

(** C2 on the monster that holds the sample tentacle, its core, pointer
    and last target at (1, 1). *)
Lemma C2_ik_pass_witness :
  exists m' tn',
    updateMonster (Some (Canvas.mk 800 600)) sampleMonster = Some m' /\
    Monster.tentacles m' = [tn'] /\
    Tentacle.dt tn' = dist 1 1 (Monster.coreX m') (Monster.coreY m') + 5.
Proof.
  assert (Hch :
    Forall (fun tn =>
              (1 <= Tentacle.numSegments tn)%nat /\
              List.length (Tentacle.segments tn) = Tentacle.numSegments tn)
           (Monster.tentacles sampleMonster)).
  { repeat constructor. }
  destruct (C2_ik_pass (Canvas.mk 800 600) sampleMonster Hch)
    as (m' & E & _ & _ & HF).
  cbv zeta in HF. cbn [sampleMonster Monster.tentacles] in HF.
  destruct (Forall2_singleton _ _ _ HF) as (tn' & Ets & Htn).
  destruct Htn as (solved & _ & _ & Hdt & _).
  exists m', tn'. split; [exact E|]. split; [exact Ets|]. exact Hdt.
Defined.

(** C3.  A tick ([updateMonster] with the canvas mounted) on a monster
    whose tentacles hold their [numSegments >= 1] segments does not throw
    and, for every tentacle, in order, with [T] the core after its move,
    [T_prev] the [lastTarget] the tick found, and the tip goal the lead
    point [L] of C2 (or [T] when [L.x] is zero): the IK pass runs toward
    that goal and gives [solved] (the tip is the old tip updated toward the
    goal, every lower segment is updated toward its updated successor);
    then, when [dist(anchor, T) <= length + dist(T_prev, T)], the fallback
    pass runs on [solved] and its result is what the tentacle keeps: the
    base segment's [pos] is the anchor, every segment [i + 1] has its [pos]
    at segment [i]'s [nextPos], and the angles are those the IK pass found;
    otherwise the tentacle keeps [solved] itself. *)
Theorem C3_fallback_after_ik (canvas : Canvas.t) (m : Monster.t) :
  Forall (fun tn =>
            (1 <= Tentacle.numSegments tn)%nat /\
            List.length (Tentacle.segments tn) = Tentacle.numSegments tn)
         (Monster.tentacles m) ->
  exists m',
    updateMonster (Some canvas) m = Some m' /\
    Monster.coreX m' = Monster.coreX m + fst (targetError canvas m) / 10 /\
    Monster.coreY m' = Monster.coreY m + snd (targetError canvas m) / 10 /\
    let T := Point.mk (Monster.coreX m') (Monster.coreY m') in
    let Tprev := Monster.lastTarget m in
    Forall2
      (fun tn tn' =>
         let n := Tentacle.numSegments tn in
         let anchor := Point.mk (Tentacle.x tn) (Tentacle.y tn) in
         let angle :=
           Js.atan2 (Point.y T - Tentacle.y tn) (Point.x T - Tentacle.x tn) in
         let delta :=
           dist (Point.x Tprev) (Point.y Tprev) (Point.x T) (Point.y T) + 5 in
         let goal := tipTarget T (leadPoint T delta angle) in
         let reach :=
           dist (Tentacle.x tn) (Tentacle.y tn) (Point.x T) (Point.y T) <=
           Tentacle.length tn +
           dist (Point.x Tprev) (Point.y Tprev) (Point.x T) (Point.y T) in
         exists solved,
           ikPass n goal (Tentacle.segments tn) = Some solved /\
           solved = ikChain goal (Tentacle.segments tn) /\
           (forall tip,
              nth_error (Tentacle.segments tn) (n - 1) = Some tip ->
              nth_error solved (n - 1)
              = Some (TentacleSegment.update tip goal)) /\
           (forall i s succ,
              (S i < n)%nat ->
              nth_error (Tentacle.segments tn) i = Some s ->
              nth_error solved (S i) = Some succ ->
              nth_error solved i =
              Some (TentacleSegment.update s (TentacleSegment.pos succ))) /\
           (reach ->
              fallbackPass n anchor solved = Some (Tentacle.segments tn') /\
              Tentacle.segments tn' = fallbackChain anchor solved /\
              (exists base,
                 nth_error (Tentacle.segments tn') 0 = Some base /\
                 TentacleSegment.pos base = anchor) /\
              (forall i a b,
                 nth_error (Tentacle.segments tn') i = Some a ->
                 nth_error (Tentacle.segments tn') (S i) = Some b ->
                 TentacleSegment.pos b = TentacleSegment.nextPos a) /\
              map TentacleSegment.angle (Tentacle.segments tn') =
              map TentacleSegment.angle solved) /\
           (~ reach -> Tentacle.segments tn' = solved))
      (Monster.tentacles m) (Monster.tentacles m').
Proof.
  intros Hch.
  destruct (updateMonster_tick canvas m Hch) as (ts' & HF & E).
  eexists. split; [exact E|].
  cbn [Monster.coreX Monster.coreY Monster.tentacles Point.x Point.y].
  split; [reflexivity|]. split; [reflexivity|].
  cbv zeta.
  set (T := Point.mk (Monster.coreX m + fst (targetError canvas m) / 10)
                     (Monster.coreY m + snd (targetError canvas m) / 10))
    in *.
  set (Tprev := Monster.lastTarget m) in *.
  eapply Forall2_impl; [|exact HF].
  intros tn tn' ((Hn & Hlen) & Hupd). cbv beta.
  set (n := Tentacle.numSegments tn) in *.
  set (anchor := Point.mk (Tentacle.x tn) (Tentacle.y tn)).
  pose proof (updateTentacle_chain T Tprev tn Hn Hlen) as Hc.
  cbv zeta in Hc.
  set (goal := tipTarget T _) in *.
  set (solved := ikChain goal (Tentacle.segments tn)) in *.
  assert (Hsl : List.length solved = n)
    by (unfold solved; rewrite ikChain_length; exact Hlen).
  rewrite Hc in Hupd. injection Hupd as <-.
  exists solved.
  split; [apply (ikPass_ikChain n goal _ Hn Hlen)|].
  split; [reflexivity|]. cbn [Tentacle.segments]. fold anchor.
  split; [|split; [|split]].
  - intros tip Htip. unfold solved. rewrite (ikChain_nth goal _ _ _ Htip).
    replace (nth_error (ikChain goal (Tentacle.segments tn)) (S (n - 1)))
      with (@None TentacleSegment.t); [reflexivity|].
    symmetry. apply nth_error_None. rewrite ikChain_length.
    fold n in Hlen. lia.
  - intros i s succ Hi Hs Hsucc. unfold solved in *.
    rewrite (ikChain_nth goal _ _ _ Hs), Hsucc. reflexivity.
  - intros Hreach.
    assert (Hr : inReach T Tprev tn = true)
      by (apply inReach_true; exact Hreach).
    rewrite Hr.
    split; [apply fallbackPass_fallbackChain; [exact Hn | exact Hsl]|].
    split; [reflexivity|].
    split; [|split].
    + destruct solved as [|b0 rest] eqn:Es; [simpl in Hsl; lia|].
      eexists; split; [reflexivity|]. simpl. reflexivity.
    + intros i a b Ha Hb.
      assert (Hs : exists s, nth_error solved (S i) = Some s).
      { destruct (nth_error solved (S i)) eqn:Es; [eauto|].
        apply nth_error_None in Es.
        assert (nth_error (fallbackChain anchor solved) (S i) = None)
          by (apply nth_error_None; rewrite fallbackChain_length; exact Es).
        congruence. }
      destruct Hs as (s & Hs).
      rewrite (fallbackChain_link solved anchor i a s Ha Hs) in Hb.
      injection Hb as <-. simpl. apply point_eta.
    + apply fallbackChain_angles.
  - intros Hnot.
    assert (Hr : inReach T Tprev tn = false)
      by (apply inReach_false; exact Hnot).
    rewrite Hr. reflexivity.
Qed.

(** C3 on the monster that holds the sample tentacle (anchor (0, 0),
    length 2), its core, pointer and last target at (1, 1): the core does
    not move, the condition holds and the base is put back on the anchor. *)
Lemma C3_fallback_after_ik_witness :
  exists m' tn' base,
    updateMonster (Some (Canvas.mk 800 600)) sampleMonster = Some m' /\
    Monster.tentacles m' = [tn'] /\
    nth_error (Tentacle.segments tn') 0 = Some base /\
    TentacleSegment.pos base = Point.mk 0 0.
Proof.
  assert (Hch :
    Forall (fun tn =>
              (1 <= Tentacle.numSegments tn)%nat /\
              List.length (Tentacle.segments tn) = Tentacle.numSegments tn)
           (Monster.tentacles sampleMonster)).
  { repeat constructor. }
  destruct (C3_fallback_after_ik (Canvas.mk 800 600) sampleMonster Hch)
    as (m' & E & Hx & Hy & HF).
  assert (Ht : targetError (Canvas.mk 800 600) sampleMonster
               = (1 - 1, 1 - 1)).
  { unfold targetError.
    assert (H1 : Js.truthy 1 = true) by (apply truthy_true; lra).
    cbn [sampleMonster Monster.mouseX Monster.mouseY Monster.coreX
         Monster.coreY].
    rewrite H1. reflexivity. }
  rewrite Ht in Hx, Hy. cbn [fst snd sampleMonster Monster.coreX
    Monster.coreY] in Hx, Hy.
  cbv zeta in HF. cbn [sampleMonster Monster.tentacles] in HF.
  destruct (Forall2_singleton _ _ _ HF) as (tn' & Ets & Htn).
  destruct Htn as (solved & _ & _ & _ & _ & Hin & _).
  assert (Hreach :
    dist (Tentacle.x sampleTentacle) (Tentacle.y sampleTentacle)
         (Point.x (Point.mk (Monster.coreX m') (Monster.coreY m')))
         (Point.y (Point.mk (Monster.coreX m') (Monster.coreY m'))) <=
    Tentacle.length sampleTentacle +
    dist (Point.x (Monster.lastTarget sampleMonster))
         (Point.y (Monster.lastTarget sampleMonster))
         (Point.x (Point.mk (Monster.coreX m') (Monster.coreY m')))
         (Point.y (Point.mk (Monster.coreX m') (Monster.coreY m')))).
  { rewrite Hx, Hy. simpl. unfold dist.
    replace ((1 + (1 - 1) / 10 - 0) ^ 2 + (1 + (1 - 1) / 10 - 0) ^ 2)
      with 2 by field.
    replace ((1 + (1 - 1) / 10 - 1) ^ 2 + (1 + (1 - 1) / 10 - 1) ^ 2)
      with 0 by field.
    rewrite sqrt_0.
    assert (H2 : sqrt 2 <= sqrt 4) by (apply sqrt_le_1_alt; lra).
    replace 4 with (2 * 2) in H2 by ring.
    rewrite sqrt_square in H2 by lra. lra. }
  destruct (Hin Hreach) as (_ & _ & (base & Hb & Hp) & _).
  exists m', tn', base.
  split; [exact E|]. split; [exact Ets|]. split; [exact Hb | exact Hp].
Defined.

(** ** Shape of a tentacle through the tick *)

Lemma ikChain_lengths (tgt : Point.t) (segs : list TentacleSegment.t) :
  map TentacleSegment.length (ikChain tgt segs) =
  map TentacleSegment.length segs.
Proof.
  induction segs as [|s segs IH]; [reflexivity|].
  cbn [ikChain map]. rewrite IH. reflexivity.
Qed.

Lemma fallbackChain_lengths (p : Point.t) (segs : list TentacleSegment.t) :
  map TentacleSegment.length (fallbackChain p segs) =
  map TentacleSegment.length segs.
Proof.
  revert p; induction segs as [|s segs IH]; intros p; [reflexivity|].
  cbn [fallbackChain map]. rewrite IH. reflexivity.
Qed.

Lemma sameShape_refl (tn : Tentacle.t) : sameShape tn tn.
Proof. repeat split. Qed.

Lemma sameShape_wellFormed (tn tn' : Tentacle.t) :
  sameShape tn tn' -> wellFormed tn -> wellFormed tn'.
Proof.
  intros (_ & _ & HL & HN & HS) (Hn & Hlen & Hall).
  unfold wellFormed. rewrite HN, HL. split; [exact Hn|]. split.
  - rewrite <- Hlen.
    rewrite <- (length_map TentacleSegment.length (Tentacle.segments tn')).
    rewrite HS. apply length_map.
  - apply Forall_forall. intros s' Hs'.
    apply (in_map TentacleSegment.length) in Hs'. rewrite HS in Hs'.
    apply in_map_iff in Hs' as (s & Hs & Hin).
    rewrite Forall_forall in Hall. rewrite <- Hs. now apply Hall.
Qed.

Lemma updateTentacle_shape (T Tprev : Point.t) (tn : Tentacle.t) :
  wellFormed tn ->
  exists tn', updateTentacle T Tprev tn = Some tn' /\ sameShape tn tn'.
Proof.
  intros (Hn & Hlen & _).
  rewrite (updateTentacle_chain T Tprev tn Hn Hlen).
  eexists; split; [reflexivity|].
  repeat split. cbn [Tentacle.segments].
  destruct (inReach T Tprev tn).
  - rewrite fallbackChain_lengths. apply ikChain_lengths.
  - apply ikChain_lengths.
Qed.

Lemma forEachTry_shape (T Tprev : Point.t) (ts : list Tentacle.t) :
  Forall wellFormed ts ->
  exists ts',
    forEachTry (updateTentacle T Tprev) ts = Some ts' /\
    Forall2 sameShape ts ts'.
Proof.
  induction 1 as [|tn ts Htn Hts (ts' & IH & IH2)].
  - exists []. split; [reflexivity | constructor].
  - destruct (updateTentacle_shape T Tprev tn Htn) as (tn' & E & Hs).
    exists (tn' :: ts'). cbn [forEachTry]. rewrite E, IH.
    split; [reflexivity | now constructor].
Qed.

Lemma Forall2_sameShape_wellFormed (ts ts' : list Tentacle.t) :
  Forall2 sameShape ts ts' -> Forall wellFormed ts -> Forall wellFormed ts'.
Proof.
  induction 1 as [|a b ts ts' Hab _ IH]; intros H; [constructor|].
  inversion H; subst. constructor; [|now apply IH].
  eapply sameShape_wellFormed; eassumption.
Qed.

Lemma Forall2_sameShape_refl (ts : list Tentacle.t) : Forall2 sameShape ts ts.
Proof. induction ts; constructor; [apply sameShape_refl | assumption]. Qed.

(** [updateMonster] with the canvas mounted, on well-formed tentacles:
    the record it returns. *)
Lemma updateMonster_result (canvas : Canvas.t) (m : Monster.t) :
  Forall wellFormed (Monster.tentacles m) ->
  exists ts',
    Forall2 sameShape (Monster.tentacles m) ts' /\
    updateMonster (Some canvas) m =
    Some (Monster.mk
            (Monster.coreX m + fst (targetError canvas m) / 10)
            (Monster.coreY m + snd (targetError canvas m) / 10)
            (Monster.coreRadius m) ts'
            (Monster.mouseX m) (Monster.mouseY m)
            (Point.mk (Monster.coreX m + fst (targetError canvas m) / 10)
                      (Monster.coreY m + snd (targetError canvas m) / 10))
            (fst (targetError canvas m)) (snd (targetError canvas m))
            (Monster.autoMoveTime m + 0.01)
            (Monster.nearBoundary m)).
Proof.
  intros Hwf. unfold updateMonster.
  destruct (targetError canvas m) as [ex ey]. cbn [fst snd Point.x Point.y].
  destruct (forEachTry_shape
              (Point.mk (Monster.coreX m + ex / 10)
                        (Monster.coreY m + ey / 10))
              (Monster.lastTarget m) _ Hwf) as (ts' & E & Hs).
  exists ts'. split; [exact Hs|]. rewrite E. reflexivity.
Qed.

Lemma targetError_pointer (canvas : Canvas.t) (m : Monster.t) :
  Monster.mouseX m <> 0 -> Monster.mouseY m <> 0 ->
  targetError canvas m =
  (Monster.mouseX m - Monster.coreX m, Monster.mouseY m - Monster.coreY m).
Proof.
  intros Hx Hy. unfold targetError.
  apply truthy_true in Hx. apply truthy_true in Hy. now rewrite Hx, Hy.
Qed.

Lemma targetError_autopilot (canvas : Canvas.t) (m : Monster.t) :
  Monster.mouseX m = 0 \/ Monster.mouseY m = 0 ->
  targetError canvas m =
  (autoX canvas (Monster.autoMoveTime m) - Monster.coreX m,
   autoY canvas (Monster.autoMoveTime m) - Monster.coreY m).
Proof.
  intros [H | H]; unfold targetError; apply truthy_false in H; rewrite H.
  - reflexivity.
  - now rewrite andb_false_r.
Qed.

(** After the pointer has left, [n] ticks later the pointer fields are
    still zero and the clock has advanced by [n] steps of 0.01. *)
Lemma updateMonsterTimes_after_leave (canvas : Canvas.t) (n : nat) :
  forall m,
    Forall wellFormed (Monster.tentacles m) ->
    Monster.mouseX m = 0 -> Monster.mouseY m = 0 ->
    exists mn,
      updateMonsterTimes n (Some canvas) m = Some mn /\
      Forall wellFormed (Monster.tentacles mn) /\
      Monster.mouseX mn = 0 /\ Monster.mouseY mn = 0 /\
      Monster.autoMoveTime mn = Monster.autoMoveTime m + INR n * 0.01.
Proof.
  induction n as [|n IH]; intros m Hwf Hx Hy.
  - exists m. repeat split; auto. simpl. ring.
  - destruct (updateMonster_result canvas m Hwf) as (ts' & Hs & E).
    cbn [updateMonsterTimes]. rewrite E.
    match goal with |- context [updateMonsterTimes n _ ?m1] =>
      destruct (IH m1) as (mn & En & Hwfn & Hxn & Hyn & Ht) end.
    + cbn [Monster.tentacles].
      eapply Forall2_sameShape_wellFormed; eassumption.
    + exact Hx.
    + exact Hy.
    + exists mn. repeat split; auto.
      rewrite Ht. cbn [Monster.autoMoveTime]. rewrite S_INR. ring.
Qed.

Lemma autoY_at_0 (canvas : Canvas.t) :
  autoY canvas 0 = Canvas.height canvas / 2.
Proof. unfold autoY. rewrite sin_0. field. Qed.

(** C5.  The code breaks the claim on [edgePointerGame]: the pointer event
    has stored the live position (0, 200), yet the next tick takes the
    target error from the figure-eight curve (vertical error 0, the core
    stays at y = 300) and not from the pointer (vertical error 200 - 300).
    The test [if (m.mouseX && m.mouseY)], commented "Use mouse position
    when available", reads a zero coordinate as no pointer.  One pixel to
    the right, with the pointer at (1, 200), the same tick follows the
    pointer: its vertical error is 200 - 300. *)
Lemma C5_pointer_on_left_column_ignored :
  Game.monster edgePointerGame =
    with_mouse 0 200 (Game.monster (Game.mounted (Canvas.mk 800 600))) /\
  (exists m',
     updateMonster (Some (Canvas.mk 800 600)) (Game.monster edgePointerGame)
       = Some m' /\
     Monster.targetErrorY m' = 0 /\
     Monster.targetErrorY m' <>
       Monster.mouseY (Game.monster edgePointerGame) -
       Monster.coreY (Game.monster edgePointerGame) /\
     Monster.coreY m' = 300) /\
  (exists m',
     updateMonster (Some (Canvas.mk 800 600))
       (Game.monster (handlePointer 1 200 (Game.mounted (Canvas.mk 800 600))))
       = Some m' /\
     Monster.targetErrorX m' = 1 - 400 /\
     Monster.targetErrorY m' = 200 - 300).
Proof.
  split; [reflexivity|]. split.
  - assert (Hwf : Forall wellFormed
                    (Monster.tentacles (Game.monster edgePointerGame)))
      by constructor.
    destruct (updateMonster_result (Canvas.mk 800 600)
                (Game.monster edgePointerGame) Hwf) as (ts' & _ & E).
    rewrite (targetError_autopilot (Canvas.mk 800 600)
               (Game.monster edgePointerGame) (or_introl eq_refl)) in E.
    eexists. split; [exact E|].
    cbn [Monster.targetErrorY Monster.coreY snd].
    rewrite autoY_at_0. simpl. repeat split; lra.
  - set (m := Game.monster
                (handlePointer 1 200 (Game.mounted (Canvas.mk 800 600)))).
    assert (Hwf : Forall wellFormed (Monster.tentacles m)) by constructor.
    destruct (updateMonster_result (Canvas.mk 800 600) m Hwf)
      as (ts' & _ & E).
    assert (Hx : Monster.mouseX m <> 0) by (simpl; lra).
    assert (Hy : Monster.mouseY m <> 0) by (simpl; lra).
    rewrite (targetError_pointer (Canvas.mk 800 600) m Hx Hy) in E.
    eexists. split; [exact E|]. split; reflexivity.
Qed.

(** What a tick does to the core, as the code runs it.  With the canvas
    mounted, the core moves by exactly [targetError / 10] in each
    coordinate and the clock advances by 0.01; the target error is pointer
    minus core when both pointer coordinates are nonzero, and figure-eight
    point (at the clock's value) minus core when one of them is zero: that
    covers the (0, 0) that [handleMouseLeave] stores and, by the defect
    shown above, a live pointer on the top row or the left column.  After
    [handleMouseLeave], whatever the pointer position was, every later tick
    (the [n + 1]-th, for every [n]) takes its target error from the curve at
    the clock's current value. *)
Lemma updateMonster_core_tracking (canvas : Canvas.t) (g : Game.t) (n : nat) :
  Forall wellFormed (Monster.tentacles (Game.monster g)) ->
  let m := Game.monster g in
  (exists m',
     updateMonster (Some canvas) m = Some m' /\
     Monster.coreX m' - Monster.coreX m = Monster.targetErrorX m' / 10 /\
     Monster.coreY m' - Monster.coreY m = Monster.targetErrorY m' / 10 /\
     Monster.autoMoveTime m' = Monster.autoMoveTime m + 0.01 /\
     (Monster.mouseX m <> 0 /\ Monster.mouseY m <> 0 ->
      Monster.targetErrorX m' = Monster.mouseX m - Monster.coreX m /\
      Monster.targetErrorY m' = Monster.mouseY m - Monster.coreY m) /\
     (Monster.mouseX m = 0 \/ Monster.mouseY m = 0 ->
      Monster.targetErrorX m' =
        autoX canvas (Monster.autoMoveTime m) - Monster.coreX m /\
      Monster.targetErrorY m' =
        autoY canvas (Monster.autoMoveTime m) - Monster.coreY m)) /\
  (exists mn mn',
     updateMonsterTimes n (Some canvas) (Game.monster (handleMouseLeave g))
       = Some mn /\
     updateMonster (Some canvas) mn = Some mn' /\
     Monster.autoMoveTime mn = Monster.autoMoveTime m + INR n * 0.01 /\
     Monster.targetErrorX mn' =
       autoX canvas (Monster.autoMoveTime mn) - Monster.coreX mn /\
     Monster.targetErrorY mn' =
       autoY canvas (Monster.autoMoveTime mn) - Monster.coreY mn /\
     Monster.coreX mn' = Monster.coreX mn + Monster.targetErrorX mn' / 10 /\
     Monster.coreY mn' = Monster.coreY mn + Monster.targetErrorY mn' / 10).
Proof.
  intros Hwf m. split.
  - destruct (updateMonster_result canvas m Hwf) as (ts' & _ & E).
    eexists. split; [exact E|].
    cbn [Monster.coreX Monster.coreY Monster.targetErrorX
         Monster.targetErrorY Monster.autoMoveTime].
    split; [ring|]. split; [ring|]. split; [reflexivity|]. split.
    + intros [Hx Hy]. rewrite (targetError_pointer canvas m Hx Hy).
      split; reflexivity.
    + intros H. rewrite (targetError_autopilot canvas m H).
      split; reflexivity.
  - destruct (updateMonsterTimes_after_leave canvas n
                (Game.monster (handleMouseLeave g)))
      as (mn & En & Hwfn & Hxn & Hyn & Ht); try reflexivity.
    { exact Hwf. }
    destruct (updateMonster_result canvas mn Hwfn) as (ts' & _ & E).
    exists mn. eexists. split; [exact En|]. split; [exact E|].
    cbn [Monster.coreX Monster.coreY Monster.targetErrorX
         Monster.targetErrorY].
    rewrite (targetError_autopilot canvas mn (or_introl Hxn)).
    cbn [fst snd]. repeat split. exact Ht.
Qed.

(** The tick with the pointer at (500, 200) and the core at (400, 300):
    the target error is (100, -100). *)
Lemma updateMonster_core_tracking_witness :
  exists m',
    updateMonster (Some (Canvas.mk 800 600)) (Game.monster pointerGame)
      = Some m' /\
    Monster.targetErrorX m' = 100 /\ Monster.targetErrorY m' = -100 /\
    Monster.coreX m' - 400 = Monster.targetErrorX m' / 10.
Proof.
  assert (Hwf : Forall wellFormed (Monster.tentacles (Game.monster pointerGame)))
    by constructor.
  destruct (updateMonster_core_tracking (Canvas.mk 800 600) pointerGame 0 Hwf)
    as ((m' & E & Hx & _ & _ & Hp & _) & _).
  exists m'. split; [exact E|].
  assert (Hm : Monster.mouseX (Game.monster pointerGame) <> 0 /\
               Monster.mouseY (Game.monster pointerGame) <> 0)
    by (simpl; split; lra).
  destruct (Hp Hm) as (Ex & Ey). simpl in Ex, Ey, Hx.
  repeat split; [lra | lra | exact Hx].
Defined.

(** ** Closed forms of the spawning and collision loops *)

Lemma createParticles_burst (count : nat) :
  forall x y ps rnd k,
    createParticles x y count ps rnd k =
    Some (ps ++ burst x y count rnd k, (4 * count + k)%nat).
Proof.
  induction count as [|c IH]; intros x y ps rnd k.
  - simpl. unfold Rand.ret. now rewrite app_nil_r.
  - cbn [createParticles burst]. unfold Rand.bind, Rand.random.
    rewrite IH. rewrite <- app_assoc. simpl app.
    f_equal. f_equal. lia.
Qed.

Lemma burst_length (x y : R) (count : nat) (rnd : Rand.stream) :
  forall k, List.length (burst x y count rnd k) = count.
Proof. induction count as [|c IH]; intros k; simpl; auto. Qed.

Lemma burst_at (x y : R) (count : nat) (rnd : Rand.stream) :
  forall k,
    Forall (fun p => Particle.x p = x /\ Particle.y p = y /\
                     Particle.life p = 1)
           (burst x y count rnd k).
Proof.
  induction count as [|c IH]; intros k; simpl; constructor; auto.
Qed.

Lemma collideOrb_closed (done todo : list (option Orb.t)) (o : option Orb.t)
    (g : Game.t) (rnd : Rand.stream) (k : nat) :
  Game.orbs g = done ++ o :: todo ->
  let m := Game.monster g in
  collideOrb (List.length done) g rnd k =
  Some (Game.mk (Game.canvasRef g) (Game.gameState g)
          (Game.score g + (if hit m o then 1 else 0))%Z (Game.timeLeft g) m
          (done ++ mark m o :: todo)
          (Game.particles g ++ bursts m [o] rnd k)
          (Game.timeouts g ++ hitIndices m (List.length done) [o]),
        ((if hit m o then 60 else 0) + k)%nat).
Proof.
  intros E m. destruct g as [c gs sc tl mo os ps ts]. simpl in E, m.
  subst os m. unfold collideOrb. cbn [Game.orbs Game.monster].
  pose proof (get_middle done todo o) as Hget. unfold Js.get in Hget.
  rewrite Hget. destruct o as [orb|].
  - cbn [hit mark bursts hitIndices].
    destruct (negb (Orb.collected orb) && touches mo orb) eqn:Eh.
    + unfold Rand.bind. rewrite createParticles_burst.
      unfold Rand.ret. cbn [Game.canvasRef Game.gameState Game.score
        Game.timeLeft Game.particles Game.timeouts].
      rewrite set_nth_middle. rewrite app_nil_r. reflexivity.
    + unfold Rand.ret. simpl. rewrite Z.add_0_r, !app_nil_r. reflexivity.
  - unfold Rand.ret. simpl. rewrite Z.add_0_r, !app_nil_r. reflexivity.
Qed.

Lemma hitIndices_cons (m : Monster.t) (i : nat) (o : option Orb.t)
    (rest : list (option Orb.t)) :
  hitIndices m i (o :: rest) = hitIndices m i [o] ++ hitIndices m (S i) rest.
Proof. simpl. destruct (hit m o); reflexivity. Qed.

Lemma bursts_cons (m : Monster.t) (o : option Orb.t)
    (rest : list (option Orb.t)) (rnd : Rand.stream) (k : nat) :
  bursts m (o :: rest) rnd k =
  bursts m [o] rnd k ++ bursts m rest rnd ((if hit m o then 60 else 0) + k).
Proof.
  destruct o as [orb|]; cbn [bursts]; [|reflexivity].
  destruct (hit m (Some orb)); [|reflexivity].
  rewrite app_nil_r. reflexivity.
Qed.

(** The [forEach] over the orbs, in closed form. *)
Lemma forEachOrb_closed (todo : list (option Orb.t)) :
  forall done g rnd k,
    Game.orbs g = done ++ todo ->
    let m := Game.monster g in
    forEachOrb (List.length todo) (List.length done) g rnd k =
    Some (Game.mk (Game.canvasRef g) (Game.gameState g)
            (Game.score g +
             Z.of_nat (List.length (hitIndices m (List.length done) todo)))%Z
            (Game.timeLeft g) m
            (done ++ map (mark m) todo)
            (Game.particles g ++ bursts m todo rnd k)
            (Game.timeouts g ++ hitIndices m (List.length done) todo),
          (60 * List.length (hitIndices m (List.length done) todo) + k)%nat).
Proof.
  induction todo as [|o rest IH]; intros done g rnd k E m.
  - destruct g; simpl in *. unfold Rand.ret. subst.
    rewrite Z.add_0_r, !app_nil_r. reflexivity.
  - cbn [List.length forEachOrb]. unfold Rand.bind.
    rewrite (collideOrb_closed done rest o g rnd k E). fold m.
    match goal with |- forEachOrb _ _ ?g1 _ ?k1 = _ =>
      pose proof (IH (done ++ [mark m o]) g1 rnd k1) as H end.
    cbn [Game.orbs Game.monster Game.canvasRef Game.gameState Game.score
         Game.timeLeft Game.particles Game.timeouts] in H.
    rewrite length_app in H. cbn [List.length] in H.
    replace (List.length done + 1)%nat with (S (List.length done)) in H by lia.
    rewrite <- app_assoc in H. cbn [app] in H. specialize (H eq_refl).
    rewrite H. clear H.
    rewrite (hitIndices_cons m _ o rest), (bursts_cons m o rest rnd k).
    rewrite !length_app, <- !app_assoc. cbn [map].
    f_equal. f_equal.
    + f_equal. cbn [hitIndices]. destruct (hit m o); cbn [List.length]; lia.
    + cbn [hitIndices]. destruct (hit m o); cbn [List.length]; lia.
Qed.

(** [checkCollisions] away from the border, in closed form; [m1] is the
    monster with its [nearBoundary] flag refreshed, as the orb loop sees
    it. *)
Lemma checkCollisions_inside (canvas : Canvas.t) (g : Game.t)
    (rnd : Rand.stream) (k : nat) :
  Game.canvasRef g = Some canvas ->
  boundaryHit canvas (Game.monster g) = false ->
  let m1 :=
    with_nearBoundary (nearBoundaryValue canvas (Game.monster g))
                      (Game.monster g) in
  checkCollisions g rnd k =
  Some (Game.mk (Some canvas) (Game.gameState g)
          (Game.score g +
           Z.of_nat (List.length (hitIndices m1 0 (Game.orbs g))))%Z
          (Game.timeLeft g) m1
          (map (mark m1) (Game.orbs g))
          (Game.particles g ++ bursts m1 (Game.orbs g) rnd k)
          (Game.timeouts g ++ hitIndices m1 0 (Game.orbs g)),
        (60 * List.length (hitIndices m1 0 (Game.orbs g)) + k)%nat).
Proof.
  intros Hc Hb m1. unfold checkCollisions. rewrite Hc.
  cbv zeta. rewrite Hb. fold m1.
  pose proof (forEachOrb_closed (Game.orbs g) [] (Game.with_monster m1 g)
                rnd k) as H.
  cbn [Game.orbs Game.monster Game.canvasRef Game.gameState Game.score
       Game.timeLeft Game.particles Game.timeouts Game.with_monster
       List.length app] in H.
  specialize (H eq_refl). cbn [Game.with_monster Game.orbs].
  rewrite H. rewrite Hc. reflexivity.
Qed.

Lemma checkCollisions_border (canvas : Canvas.t) (g : Game.t)
    (rnd : Rand.stream) (k : nat) :
  Game.canvasRef g = Some canvas ->
  boundaryHit canvas (Game.monster g) = true ->
  checkCollisions g rnd k = Some (Game.with_gameState ended g, k).
Proof.
  intros Hc Hb. unfold checkCollisions. rewrite Hc, Hb. reflexivity.
Qed.

(** ** Creation of tentacles and orbs *)

Lemma pushSegments_result (k : nat) (segmentLength : R) :
  forall (segs : list TentacleSegment.t) (lst : TentacleSegment.t),
    Forall (fun s => TentacleSegment.length s = segmentLength) (segs ++ [lst]) ->
    exists segs',
      pushSegments k (S (List.length segs)) segmentLength (segs ++ [lst])
        = Some segs' /\
      List.length segs' = (k + S (List.length segs))%nat /\
      Forall (fun s => TentacleSegment.length s = segmentLength) segs'.
Proof.
  induction k as [|k IH]; intros segs lst Hall.
  - exists (segs ++ [lst]). split; [reflexivity|]. split; [|exact Hall].
    rewrite length_app; simpl; lia.
  - cbn [pushSegments].
    replace (S (List.length segs) - 1)%nat with (List.length segs) by lia.
    rewrite get_middle. cbn [TentacleSegment.new].
    match goal with |- context [pushSegments k _ _ (_ ++ [?s])] =>
      destruct (IH (segs ++ [lst]) s) as (segs' & E & Hl & Hf) end.
    + apply Forall_app. split; [exact Hall|]. constructor; [reflexivity|constructor].
    + rewrite length_app in E, Hl. cbn [List.length] in E, Hl.
      replace (List.length segs + 1)%nat with (S (List.length segs)) in E, Hl
        by lia.
      exists segs'. split; [exact E|]. split; [lia | exact Hf].
Qed.

Lemma totalLength_uniform (len : R) (segs : list TentacleSegment.t) :
  Forall (fun s => TentacleSegment.length s = len) segs ->
  totalLength segs = INR (List.length segs) * len.
Proof.
  induction 1 as [|s segs Hs _ IH].
  - simpl. ring.
  - change (totalLength (s :: segs))
      with (TentacleSegment.length s + totalLength segs).
    rewrite IH, Hs. cbn [List.length]. rewrite S_INR. ring.
Qed.

(** In a well-formed tentacle the segment lengths add up to [length]. *)
Lemma wellFormed_totalLength (tn : Tentacle.t) :
  wellFormed tn -> totalLength (Tentacle.segments tn) = Tentacle.length tn.
Proof.
  intros (Hn & Hlen & Hall).
  rewrite (totalLength_uniform _ _ Hall), Hlen.
  field. apply not_0_INR. lia.
Qed.

(** [newTentacle] with at least one segment returns a well-formed
    tentacle whose fields are read off the random stream. *)
Lemma newTentacle_result (canvas : Canvas.t) (maxLength minLength : R)
    (numSegments : nat) (rnd : Rand.stream) (k : nat) :
  (1 <= numSegments)%nat ->
  exists tn,
    newTentacle canvas maxLength minLength numSegments rnd k
      = Some (tn, (4 + k)%nat) /\
    wellFormed tn /\
    Tentacle.numSegments tn = numSegments /\
    Tentacle.length tn = rnd k * (maxLength - minLength) + minLength.
Proof.
  intros Hn. unfold newTentacle, Rand.bind, Rand.random, Rand.lift, Rand.ret.
  cbn [TentacleSegment.new Tentacle.x Tentacle.y].
  match goal with |- context [pushSegments _ 1 ?len [?s0]] =>
    destruct (pushSegments_result (numSegments - 1) len [] s0)
      as (segs & E & Hl & Hf) end.
  { constructor; [reflexivity | constructor]. }
  cbn [List.length app] in E, Hl. rewrite E.
  eexists. split; [reflexivity|].
  split; [|split; reflexivity].
  unfold wellFormed. cbn [Tentacle.with_segments Tentacle.numSegments
    Tentacle.segments Tentacle.length].
  split; [exact Hn|]. split; [lia | exact Hf].
Qed.

Lemma array_from_Forall {A : Type} (P : A -> Prop) (c : Rand.M A)
    (rnd : Rand.stream) :
  (forall k, exists a k', c rnd k = Some (a, k') /\ P a) ->
  forall n k,
    exists l k',
      Rand.array_from n c rnd k = Some (l, k') /\
      List.length l = n /\ Forall P l.
Proof.
  intros Hc. induction n as [|n IH]; intros k.
  - exists [], k. repeat split. constructor.
  - destruct (Hc k) as (a & k1 & Ea & Pa).
    destruct (IH k1) as (l & k2 & El & Hl & Fl).
    exists (a :: l), k2. cbn [Rand.array_from]. unfold Rand.bind.
    rewrite Ea, El. unfold Rand.ret.
    repeat split; [simpl; lia | now constructor].
Qed.

(** [initializeTentacles] with the canvas mounted: 150 tentacles of 20
    segments on a narrow window, 300 of 30 otherwise, all well-formed. *)
Lemma initializeTentacles_result (canvas : Canvas.t) (innerWidth : R)
    (old : list Tentacle.t) (rnd : Rand.stream) (k : nat) :
  exists ts k',
    initializeTentacles (Some canvas) innerWidth old rnd k = Some (ts, k') /\
    List.length ts = (if Js.ltb innerWidth 768 then 150 else 300)%nat /\
    Forall (fun tn =>
              wellFormed tn /\
              Tentacle.numSegments tn =
                (if Js.ltb innerWidth 768 then 20 else 30)%nat)
           ts.
Proof.
  unfold initializeTentacles.
  apply array_from_Forall. intros k0.
  match goal with |- context [newTentacle canvas ?a ?b ?n] =>
    destruct (newTentacle_result canvas a b n rnd k0)
      as (tn & E & Hwf & Hn & _) end.
  - destruct (Js.ltb innerWidth 768); lia.
  - exists tn, (4 + k0)%nat. split; [exact E|]. split; assumption.
Qed.

(** With [Math.random()] in [0, 1), every tentacle is at least 30 long
    and every segment has a positive length. *)
Lemma initializeTentacles_positive (canvas : Canvas.t) (innerWidth : R)
    (old : list Tentacle.t) (rnd : Rand.stream) (k : nat) :
  Rand.fair rnd ->
  exists ts k',
    initializeTentacles (Some canvas) innerWidth old rnd k = Some (ts, k') /\
    Forall (fun tn =>
              30 <= Tentacle.length tn < 300 /\
              Forall (fun s => 0 < TentacleSegment.length s)
                     (Tentacle.segments tn))
           ts.
Proof.
  intros Hf. unfold initializeTentacles.
  match goal with |- context [Rand.array_from ?count ?c] =>
    assert (Hc : forall k0, exists tn k1,
                   c rnd k0 = Some (tn, k1) /\
                   (30 <= Tentacle.length tn < 300 /\
                    Forall (fun s => 0 < TentacleSegment.length s)
                           (Tentacle.segments tn)));
    [|destruct (array_from_Forall _ c rnd Hc count k)
        as (ts & k' & E & _ & Hall)]
  end.
  - intros k0.
    match goal with |- context [newTentacle canvas ?a ?b ?n] =>
      destruct (newTentacle_result canvas a b n rnd k0)
        as (tn & E & (Hn & _ & Hsegs) & HN & HL) end.
    { destruct (Js.ltb innerWidth 768); lia. }
    exists tn, (4 + k0)%nat. split; [exact E|].
    assert (Hlen : 30 <= Tentacle.length tn < 300).
    { rewrite HL. pose proof (Hf k0).
      destruct (Js.ltb innerWidth 768); nra. }
    split; [exact Hlen|].
    eapply Forall_impl; [|exact Hsegs]. simpl. intros s Hs. rewrite Hs.
    apply Rdiv_lt_0_compat; [lra|]. apply lt_0_INR. lia.
  - exists ts, k'. split; [exact E | exact Hall].
Qed.

Lemma newOrb_result (canvas : Canvas.t) (rnd : Rand.stream) (k : nat) :
  exists o,
    newOrb canvas rnd k = Some (o, (4 + k)%nat) /\ Orb.collected o = false.
Proof. eexists. split; reflexivity. Qed.

Lemma generateOrbs_result (canvas : Canvas.t) (old : list (option Orb.t))
    (rnd : Rand.stream) (k : nat) :
  exists o1 o2 o3,
    generateOrbs (Some canvas) old rnd k
      = Some ([Some o1; Some o2; Some o3], (12 + k)%nat) /\
    Orb.collected o1 = false /\ Orb.collected o2 = false /\
    Orb.collected o3 = false.
Proof. do 3 eexists. split; [reflexivity|]. repeat split. Qed.

Lemma assign_in_range {A : Type} (i : nat) (v : A) (arr : list (option A)) :
  (i < List.length arr)%nat ->
  Js.assign i v arr = Js.set_nth i (Some v) arr.
Proof.
  intros H. unfold Js.assign.
  apply Nat.ltb_lt in H. now rewrite H.
Qed.

Lemma set_nth_same {A : Type} (v : A) (l : list A) :
  forall i, (i < List.length l)%nat -> nth_error (Js.set_nth i v l) i = Some v.
Proof.
  induction l as [|a l IH]; intros [|i] H; simpl in *; try lia.
  - reflexivity.
  - apply IH. lia.
Qed.

Lemma set_nth_Forall {A : Type} (P : A -> Prop) (v : A) (l : list A) :
  P v -> Forall P l -> forall i, Forall P (Js.set_nth i v l).
Proof.
  intros Hv. induction 1 as [|a l Ha Hl IH]; intros [|i]; simpl;
    constructor; auto.
Qed.

(** ** The session invariant *)

Lemma Inv_mounted (canvas : Canvas.t) : Inv (Game.mounted canvas).
Proof.
  unfold Inv, Game.mounted; simpl.
  repeat split; try constructor; try discriminate. reflexivity.
Qed.

Lemma noHoles_mark (m : Monster.t) (os : list (option Orb.t)) :
  noHoles os -> noHoles (map (mark m) os).
Proof.
  unfold noHoles. induction 1 as [|o os Ho _ IH]; simpl; constructor; auto.
  destruct o as [orb|]; [|congruence]. simpl.
  destruct (negb (Orb.collected orb) && touches m orb); discriminate.
Qed.

Lemma hitIndices_bound (m : Monster.t) (os : list (option Orb.t)) :
  forall base,
    Forall (fun i => (base <= i < base + List.length os)%nat)
           (hitIndices m base os).
Proof.
  induction os as [|o os IH]; intros base; simpl; [constructor|].
  assert (H : Forall (fun i => (base <= i < base + S (List.length os))%nat)
                     (hitIndices m (S base) os)).
  { eapply Forall_impl; [|apply IH]. simpl. intros; lia. }
  destruct (hit m o); [constructor; [lia | exact H] | exact H].
Qed.

Lemma hitIndices_filter (m : Monster.t) (os : list (option Orb.t)) :
  forall base,
    List.length (hitIndices m base os) = List.length (filter (hit m) os).
Proof.
  induction os as [|o os IH]; intros base; simpl; [reflexivity|].
  destruct (hit m o); simpl; rewrite IH; reflexivity.
Qed.

Lemma hitIndices_In (m : Monster.t) (os : list (option Orb.t)) :
  forall base i o,
    nth_error os i = Some o -> hit m o = true ->
    In (base + i)%nat (hitIndices m base os).
Proof.
  induction os as [|a os IH]; intros base [|i] o Hn Hh; simpl in Hn;
    try discriminate.
  - injection Hn as ->. simpl. rewrite Hh. left. lia.
  - simpl. replace (base + S i)%nat with (S base + i)%nat by lia.
    destruct (hit m a); [right|]; eapply IH; eassumption.
Qed.

Lemma bursts_In (m : Monster.t) (rnd : Rand.stream)
    (os : list (option Orb.t)) :
  forall k i orb,
    nth_error os i = Some (Some orb) -> hit m (Some orb) = true ->
    exists pre post k0,
      bursts m os rnd k =
      pre ++ burst (Orb.x orb) (Orb.y orb) 15 rnd k0 ++ post.
Proof.
  induction os as [|a os IH]; intros k [|i] orb Hn Hh; simpl in Hn;
    try discriminate.
  - injection Hn as ->. cbn [bursts]. rewrite Hh.
    exists [], (bursts m os rnd (60 + k)), k. reflexivity.
  - cbn [bursts]. destruct a as [orb0|].
    + destruct (hit m (Some orb0)).
      * destruct (IH (60 + k)%nat i orb Hn Hh) as (pre & post & k0 & E).
        exists (burst (Orb.x orb0) (Orb.y orb0) 15 rnd k ++ pre), post, k0.
        rewrite E, app_assoc. reflexivity.
      * apply (IH k i orb Hn Hh).
    + apply (IH k i orb Hn Hh).
Qed.

Lemma removeTimeout_Forall (P : nat -> Prop) (index : nat) (l : list nat) :
  Forall P l -> Forall P (removeTimeout index l).
Proof.
  induction 1 as [|i l Hi Hl IH]; simpl; [constructor|].
  destruct (i =? index)%nat; [exact Hl | now constructor].
Qed.

Lemma hit_nearBoundary (b : bool) (m : Monster.t) (o : option Orb.t) :
  hit (with_nearBoundary b m) o = hit m o.
Proof. destruct o; reflexivity. Qed.

(** [gameLoop] from a state of the invariant does not throw and keeps the
    invariant, the number of orbs and the shape of every tentacle. *)
Lemma gameLoop_Inv (g : Game.t) (rnd : Rand.stream) (k : nat) :
  Inv g ->
  exists g' k',
    gameLoop g rnd k = Some (g', k') /\ Inv g' /\
    List.length (Game.orbs g') = List.length (Game.orbs g) /\
    Forall2 sameShape (Monster.tentacles (Game.monster g))
            (Monster.tentacles (Game.monster g')).
Proof.
  intros (Hc & Hwf & Hno & Hto & H3).
  destruct g as [c gs sc tl m os ps ts]. simpl in *.
  destruct c as [canvas|]; [|congruence].
  unfold gameLoop. cbn [Game.canvasRef Game.gameState].
  destruct gs.
  2:{ exists (Game.mk (Some canvas) ended sc tl m os ps ts), k.
      split; [reflexivity|]. split; [repeat split; assumption|].
      split; [reflexivity | apply Forall2_sameShape_refl]. }
  destruct (updateMonster_result canvas m Hwf) as (ts' & Hs & E).
  unfold Rand.bind, Rand.lift. cbn [Game.monster]. rewrite E.
  set (m' := Monster.mk _ _ _ ts' _ _ _ _ _ _ _).
  assert (Hwf' : Forall wellFormed ts')
    by (eapply Forall2_sameShape_wellFormed; eassumption).
  unfold Game.with_particles, Game.with_monster.
  cbn [Game.canvasRef Game.gameState
       Game.score Game.timeLeft Game.orbs Game.particles Game.timeouts
       Game.monster].
  set (g2 := Game.mk (Some canvas) playing sc tl m' os (updateParticles ps) ts).
  destruct (boundaryHit canvas m') eqn:Hb.
  - rewrite (checkCollisions_border canvas g2 rnd k eq_refl Hb).
    eexists; eexists. split; [reflexivity|].
    cbn. split; [|split; [reflexivity | exact Hs]].
    repeat split; assumption.
  - rewrite (checkCollisions_inside canvas g2 rnd k eq_refl Hb).
    eexists; eexists. split; [reflexivity|]. unfold g2.
    cbn [Game.orbs Game.monster with_nearBoundary Monster.tentacles m'
         Game.canvasRef Game.timeouts Game.particles].
    split; [|split; [apply length_map | exact Hs]].
    unfold Inv. cbn [Game.orbs Game.monster Monster.tentacles
                     Game.canvasRef Game.timeouts].
    split; [discriminate|]. split; [exact Hwf'|].
    split; [apply noHoles_mark; exact Hno|].
    split.
    + apply Forall_app. split.
      * eapply Forall_impl; [|exact Hto]. simpl.
        intros i Hi. now rewrite length_map.
      * eapply Forall_impl; [|apply hitIndices_bound]. simpl.
        intros i Hi. rewrite length_map. lia.
    + destruct H3 as [-> | H3]; [left; reflexivity | right].
      now rewrite length_map.
Qed.

Lemma fireTimeout_Inv (index : nat) (g : Game.t) (rnd : Rand.stream)
    (k : nat) :
  Inv g ->
  exists g' k',
    fireTimeout index g rnd k = Some (g', k') /\ Inv g' /\
    List.length (Game.orbs g') = List.length (Game.orbs g) /\
    Game.monster g' = Game.monster g /\
    Game.gameState g' = Game.gameState g /\
    Game.score g' = Game.score g.
Proof.
  intros (Hc & Hwf & Hno & Hto & H3).
  destruct g as [c gs sc tl m os ps ts]. simpl in *.
  destruct c as [canvas|]; [|congruence].
  unfold fireTimeout. cbn [Game.timeouts].
  destruct (existsb (Nat.eqb index) ts) eqn:Ex.
  2:{ eexists; eexists. split; [reflexivity|].
      repeat split; assumption. }
  apply existsb_exists in Ex as (i & Hin & Heq).
  apply Nat.eqb_eq in Heq. subst i.
  assert (Hlt : (index < List.length os)%nat)
    by (rewrite Forall_forall in Hto; now apply Hto).
  unfold Rand.bind. cbn [Game.canvasRef Game.orbs regenerateOrb].
  unfold Rand.bind.
  destruct (newOrb_result canvas rnd k) as (o & E & Ho). rewrite E.
  unfold Rand.ret. rewrite (assign_in_range index o os Hlt).
  eexists; eexists. split; [reflexivity|].
  cbn [Game.orbs Game.monster Game.gameState Game.score].
  split; [|repeat split; apply set_nth_length].
  unfold Inv. cbn [Game.orbs Game.monster Game.canvasRef Game.timeouts].
  rewrite set_nth_length.
  split; [discriminate|]. split; [exact Hwf|].
  split; [apply set_nth_Forall; [discriminate | exact Hno]|].
  split; [apply removeTimeout_Forall; exact Hto|].
  right. destruct H3 as [-> | H3]; [simpl in Hlt; lia | exact H3].
Qed.

Lemma startGame_Inv (innerWidth : R) (g : Game.t) (rnd : Rand.stream)
    (k : nat) :
  Inv g ->
  exists g' k',
    startGame innerWidth g rnd k = Some (g', k') /\ Inv g' /\
    List.length (Game.orbs g') = 3%nat /\
    Game.gameState g' = playing /\ Game.score g' = 0%Z /\
    Game.timeLeft g' = 60%Z /\ Game.particles g' = [].
Proof.
  intros (Hc & Hwf & Hno & Hto & H3).
  destruct g as [c gs sc tl m os ps ts]. simpl in *.
  destruct c as [canvas|]; [|congruence].
  unfold startGame, Rand.bind. cbn [Game.canvasRef Game.monster Game.orbs].
  destruct (initializeTentacles_result canvas innerWidth
              (Monster.tentacles m) rnd k) as (tn & k1 & E1 & _ & Hall).
  rewrite E1.
  destruct (generateOrbs_result canvas os rnd k1)
    as (o1 & o2 & o3 & E2 & _).
  rewrite E2. unfold Rand.ret.
  eexists; eexists. split; [reflexivity|].
  cbn [Game.orbs Game.gameState Game.score Game.timeLeft Game.particles].
  split; [|repeat split].
  unfold Inv. cbn [Game.orbs Game.monster Game.canvasRef Game.timeouts
    with_mouse with_core with_tentacles Monster.tentacles List.length].
  split; [discriminate|]. split.
  { eapply Forall_impl; [|exact Hall]. simpl. tauto. }
  split; [repeat constructor; discriminate|].
  split; [|right; reflexivity].
  eapply Forall_impl; [|exact Hto]. simpl. intros i Hi.
  destruct H3 as [-> | H3]; [simpl in Hi; lia | lia].
Qed.

(** Every event, from a state of the invariant, is handled without a throw
    and leaves a state of the invariant. *)
Lemma step_Inv (e : Event) (g : Game.t) (rnd : Rand.stream) (k : nat) :
  Inv g ->
  exists g' k',
    step e g rnd k = Some (g', k') /\ Inv g' /\
    (List.length (Game.orbs g) = 3%nat ->
     List.length (Game.orbs g') = 3%nat) /\
    ((forall iw, e <> StartGame iw) ->
     Forall2 sameShape (Monster.tentacles (Game.monster g))
             (Monster.tentacles (Game.monster g'))) /\
    (forall iw, e = StartGame iw -> List.length (Game.orbs g') = 3%nat).
Proof.
  intros HI.
  assert (Hsimple : forall g',
            Game.canvasRef g' <> None ->
            Game.orbs g' = Game.orbs g ->
            Game.timeouts g' = Game.timeouts g ->
            Monster.tentacles (Game.monster g') =
              Monster.tentacles (Game.monster g) ->
            Inv g' /\
            (List.length (Game.orbs g) = 3%nat ->
             List.length (Game.orbs g') = 3%nat) /\
            Forall2 sameShape (Monster.tentacles (Game.monster g))
                    (Monster.tentacles (Game.monster g'))).
  { intros g' Hc Ho Ht Hm. destruct HI as (_ & Hwf & Hno & Hto & H3).
    unfold Inv. rewrite Ho, Ht, Hm.
    repeat split; auto. apply Forall2_sameShape_refl. }
  assert (Hcanvas : exists canvas, Game.canvasRef g = Some canvas).
  { destruct HI as (Hc & _). destruct (Game.canvasRef g) as [canvas|];
      [now exists canvas | congruence]. }
  destruct Hcanvas as (canvas & Ec).
  destruct e; cbn [step]; unfold Rand.ret.
  - destruct (gameLoop_Inv g rnd k HI) as (g' & k' & E & HI' & Hl & Hs).
    exists g', k'. split; [exact E|]. split; [exact HI'|].
    split; [congruence|]. split; [intros _; exact Hs | discriminate].
  - exists (tickSecond g), k. split; [reflexivity|].
    destruct (Hsimple (tickSecond g)) as (H1 & H2 & H3);
      try (unfold tickSecond; destruct (Game.gameState g);
           [destruct (0 <? Game.timeLeft g)%Z;
            [destruct (Game.timeLeft g <=? 1)%Z|]|];
           first [reflexivity | apply HI]).
    split; [exact H1|]. split; [exact H2|].
    split; [intros _; exact H3 | discriminate].
  - exists (handlePointer x y g), k. split; [reflexivity|].
    destruct (Hsimple (handlePointer x y g)) as (H1 & H2 & H3);
      try (unfold handlePointer; rewrite Ec;
           first [reflexivity | cbn; rewrite Ec; discriminate]).
    split; [exact H1|]. split; [exact H2|].
    split; [intros _; exact H3 | discriminate].
  - exists (handleMouseLeave g), k. split; [reflexivity|].
    destruct (Hsimple (handleMouseLeave g)) as (H1 & H2 & H3);
      try first [reflexivity | apply HI].
    split; [exact H1|]. split; [exact H2|].
    split; [intros _; exact H3 | discriminate].
  - exists (handlePointer x y g), k. split; [reflexivity|].
    destruct (Hsimple (handlePointer x y g)) as (H1 & H2 & H3);
      try (unfold handlePointer; rewrite Ec;
           first [reflexivity | cbn; rewrite Ec; discriminate]).
    split; [exact H1|]. split; [exact H2|].
    split; [intros _; exact H3 | discriminate].
  - exists (handlePointer x y g), k. split; [reflexivity|].
    destruct (Hsimple (handlePointer x y g)) as (H1 & H2 & H3);
      try (unfold handlePointer; rewrite Ec;
           first [reflexivity | cbn; rewrite Ec; discriminate]).
    split; [exact H1|]. split; [exact H2|].
    split; [intros _; exact H3 | discriminate].
  - exists g, k. split; [reflexivity|].
    destruct (Hsimple g) as (H1 & H2 & H3); try first [reflexivity | apply HI].
    split; [exact H1|]. split; [exact H2|].
    split; [intros _; exact H3 | discriminate].
  - destruct (fireTimeout_Inv index g rnd k HI)
      as (g' & k' & E & HI' & Hl & Hm & _).
    exists g', k'. split; [exact E|]. split; [exact HI'|].
    split; [congruence|]. split; [|discriminate].
    intros _. rewrite Hm. apply Forall2_sameShape_refl.
  - destruct (startGame_Inv innerWidth g rnd k HI)
      as (g' & k' & E & HI' & Hl & _).
    exists g', k'. split; [exact E|]. split; [exact HI'|].
    split; [intros _; exact Hl|]. split; [|intros _ _; exact Hl].
    intros H. exfalso. now apply (H innerWidth).
  - exists (resizeCanvas w h g), k. split; [reflexivity|].
    destruct (Hsimple (resizeCanvas w h g)) as (H1 & H2 & H3);
      try (unfold resizeCanvas; rewrite Ec;
           first [reflexivity | cbn; discriminate]).
    split; [exact H1|]. split; [exact H2|].
    split; [intros _; exact H3 | discriminate].
Qed.

Lemma run_Inv (es : list Event) :
  forall g rnd k,
    Inv g ->
    exists g' k',
      run es g rnd k = Some (g', k') /\ Inv g' /\
      (List.length (Game.orbs g) = 3%nat ->
       List.length (Game.orbs g') = 3%nat).
Proof.
  induction es as [|e es IH]; intros g rnd k HI.
  - exists g, k. split; [reflexivity|]. split; [exact HI | auto].
  - destruct (step_Inv e g rnd k HI) as (g1 & k1 & E1 & HI1 & H3 & _).
    destruct (IH g1 rnd k1 HI1) as (g' & k' & E & HI' & H3').
    exists g', k'. cbn [run]. unfold Rand.bind. rewrite E1.
    split; [exact E|]. split; [exact HI' | auto].
Qed.

(** ** The end of the session (C6) *)

Lemma boundaryHit_true (canvas : Canvas.t) (m : Monster.t) :
  boundaryHit canvas m = true <->
  withinOfEdge canvas m (Monster.coreRadius m + 6).
Proof.
  unfold boundaryHit, withinOfEdge, Js.geb.
  rewrite !orb_true_iff, !leb_true. intuition lra.
Qed.

Lemma boundaryHit_false (canvas : Canvas.t) (m : Monster.t) :
  boundaryHit canvas m = false <->
  ~ withinOfEdge canvas m (Monster.coreRadius m + 6).
Proof.
  rewrite <- boundaryHit_true. destruct (boundaryHit canvas m); split;
    congruence.
Qed.

Lemma nearBoundaryValue_true (canvas : Canvas.t) (m : Monster.t) :
  nearBoundaryValue canvas m = true <->
  withinOfEdge canvas m (Monster.coreRadius m + 6 + 40).
Proof.
  unfold nearBoundaryValue, withinOfEdge, Js.geb.
  rewrite !orb_true_iff, !leb_true. intuition lra.
Qed.

(** How [gameState] can change in one event. *)
Lemma step_gameState (e : Event) (g g' : Game.t) (rnd : Rand.stream)
    (k k' : nat) :
  step e g rnd k = Some (g', k') ->
  Game.gameState g' = Game.gameState g \/
  (Game.gameState g = playing /\ Game.gameState g' = ended /\ e = Frame /\
   exists canvas m',
     Game.canvasRef g = Some canvas /\
     updateMonster (Some canvas) (Game.monster g) = Some m' /\
     withinOfEdge canvas m' (Monster.coreRadius m' + 6)) \/
  (Game.gameState g = playing /\ Game.gameState g' = ended /\ e = Second /\
   (0 < Game.timeLeft g <= 1)%Z /\ Game.timeLeft g' = 0%Z) \/
  (exists iw, e = StartGame iw /\ Game.gameState g' = playing).
Proof.
  destruct e; cbn [step]; unfold Rand.ret; intros H;
    try (injection H as <- <-).
  - unfold gameLoop in H.
    destruct (Game.canvasRef g) as [canvas|] eqn:Ec;
      [|injection H as <- <-; now left].
    destruct (Game.gameState g) eqn:Eg; [|injection H as <- <-; now left].
    unfold Rand.bind, Rand.lift in H.
    destruct (updateMonster (Some canvas) (Game.monster g)) as [m'|] eqn:Em;
      [|discriminate].
    set (g2 := Game.with_particles _ _) in H.
    assert (Ec2 : Game.canvasRef g2 = Some canvas) by exact Ec.
    destruct (boundaryHit canvas (Game.monster g2)) eqn:Hb.
    + rewrite (checkCollisions_border canvas g2 rnd k Ec2 Hb) in H.
      injection H as <- <-. right; left.
      do 3 (split; [reflexivity|]). exists canvas, m'.
      split; [reflexivity|]. split; [exact Em|].
      apply boundaryHit_true. exact Hb.
    + rewrite (checkCollisions_inside canvas g2 rnd k Ec2 Hb) in H.
      injection H as <- <-. left. cbn. exact Eg.
  - unfold tickSecond. destruct (Game.gameState g) eqn:Eg; [|now left].
    destruct (0 <? Game.timeLeft g)%Z eqn:E0; [|now left].
    destruct (Game.timeLeft g <=? 1)%Z eqn:E1; [|now left].
    right; right; left. cbn. repeat split; lia.
  - left. unfold handlePointer. destruct (Game.canvasRef g); reflexivity.
  - now left.
  - left. unfold handlePointer. destruct (Game.canvasRef g); reflexivity.
  - left. unfold handlePointer. destruct (Game.canvasRef g); reflexivity.
  - now left.
  - left. unfold fireTimeout in H.
    destruct (existsb (Nat.eqb index) (Game.timeouts g));
      [|injection H as <- <-; reflexivity].
    unfold Rand.bind, regenerateOrb in H.
    destruct (Game.canvasRef g) as [canvas|].
    + unfold Rand.bind in H.
      destruct (newOrb_result canvas rnd k) as (o & E & _).
      rewrite E in H. unfold Rand.ret in H. injection H as <- <-.
      reflexivity.
    + unfold Rand.ret in H. injection H as <- <-. reflexivity.
  - right; right; right. exists innerWidth. split; [reflexivity|].
    unfold startGame, Rand.bind in H.
    destruct (initializeTentacles _ _ _ rnd k) as [[ts k1]|]; [|discriminate].
    destruct (generateOrbs _ _ rnd k1) as [[os k2]|]; [|discriminate].
    unfold Rand.ret in H. injection H as <- <-. reflexivity.
  - left. unfold resizeCanvas. destruct (Game.canvasRef g); reflexivity.
Qed.

(** C6.  (1) When the core centre is within [coreRadius + borderWidth]
    ([borderWidth] = 6) of one of the four edges, the collision check ends
    the session, whatever the time left; (2) in particular when it is
    exactly [coreRadius + borderWidth - 1] from the left edge.  (3) When it
    is not, the check leaves [gameState] as it was and only records, in
    [nearBoundary], whether the centre is within
    [coreRadius + borderWidth + warningDistance] (= 40 more) of an edge.
    (4) An event that takes a playing session to ended is a frame whose
    moved core touches the border, or a tick of the countdown with at most
    one second left; (5) an event that takes an ended session back to
    playing is [startGame]. *)
Theorem C6_session_ends_by_border_or_timer :
  (forall canvas g rnd k,
     Game.canvasRef g = Some canvas ->
     withinOfEdge canvas (Game.monster g)
                  (Monster.coreRadius (Game.monster g) + 6) ->
     checkCollisions g rnd k = Some (Game.with_gameState ended g, k)) /\
  (forall canvas g rnd k,
     Game.canvasRef g = Some canvas ->
     Monster.coreX (Game.monster g) =
       Monster.coreRadius (Game.monster g) + 6 - 1 ->
     exists g',
       checkCollisions g rnd k = Some (g', k) /\
       Game.gameState g' = ended /\ Game.timeLeft g' = Game.timeLeft g) /\
  (forall canvas g rnd k,
     Game.canvasRef g = Some canvas ->
     ~ withinOfEdge canvas (Game.monster g)
                    (Monster.coreRadius (Game.monster g) + 6) ->
     exists g' k',
       checkCollisions g rnd k = Some (g', k') /\
       Game.gameState g' = Game.gameState g /\
       (Monster.nearBoundary (Game.monster g') = true <->
        withinOfEdge canvas (Game.monster g)
                     (Monster.coreRadius (Game.monster g) + 6 + 40))) /\
  (forall e g rnd k g' k',
     step e g rnd k = Some (g', k') ->
     Game.gameState g = playing -> Game.gameState g' = ended ->
     (e = Frame /\
      exists canvas m',
        Game.canvasRef g = Some canvas /\
        updateMonster (Some canvas) (Game.monster g) = Some m' /\
        withinOfEdge canvas m' (Monster.coreRadius m' + 6)) \/
     (e = Second /\ (Game.timeLeft g <= 1)%Z)) /\
  (forall e g rnd k g' k',
     step e g rnd k = Some (g', k') ->
     Game.gameState g = ended -> Game.gameState g' = playing ->
     exists iw, e = StartGame iw).
Proof.
  split; [|split; [|split; [|split]]].
  - intros canvas g rnd k Hc Hw. apply boundaryHit_true in Hw.
    apply (checkCollisions_border canvas g rnd k Hc Hw).
  - intros canvas g rnd k Hc Hx.
    assert (Hw : boundaryHit canvas (Game.monster g) = true).
    { apply boundaryHit_true. left. lra. }
    rewrite (checkCollisions_border canvas g rnd k Hc Hw).
    eexists. repeat split.
  - intros canvas g rnd k Hc Hw. apply boundaryHit_false in Hw.
    rewrite (checkCollisions_inside canvas g rnd k Hc Hw).
    eexists; eexists. split; [reflexivity|]. split; [reflexivity|].
    cbn. apply nearBoundaryValue_true.
  - intros e g rnd k g' k' H Hp He.
    destruct (step_gameState e g g' rnd k k' H)
      as [E | [(_ & _ & -> & Hex) | [(_ & _ & -> & Ht & _) | (iw & _ & E)]]].
    + congruence.
    + left. split; [reflexivity | exact Hex].
    + right. split; [reflexivity | lia].
    + congruence.
  - intros e g rnd k g' k' H He Hp.
    destruct (step_gameState e g g' rnd k k' H)
      as [E | [(E & _) | [(E & _) | (iw & -> & _)]]]; try congruence.
    exists iw. reflexivity.
Qed.

(** C6 at the spec's scenario: the core 20 = 15 + 6 - 1 pixels from the
    left edge ends the session with 42 seconds left. *)
Lemma C6_session_ends_by_border_or_timer_witness :
  exists g',
    checkCollisions nearLeftEdgeGame (fun _ => 0) 0%nat = Some (g', 0%nat) /\
    Game.gameState g' = ended /\ Game.timeLeft g' = 42%Z.
Proof.
  destruct C6_session_ends_by_border_or_timer as (_ & H & _).
  apply (H (Canvas.mk 800 600) nearLeftEdgeGame (fun _ => 0) 0%nat).
  - reflexivity.
  - simpl. lra.
Defined.

(** ** Orb pickup (C7) *)

Lemma touches_true (m : Monster.t) (orb : Orb.t) :
  touches m orb = true <->
  sqrt ((Monster.coreX m - Orb.x orb) ^ 2 + (Monster.coreY m - Orb.y orb) ^ 2)
  < Monster.coreRadius m + Orb.radius orb.
Proof. apply ltb_true. Qed.

Lemma touches_false (m : Monster.t) (orb : Orb.t) :
  touches m orb = false <->
  Monster.coreRadius m + Orb.radius orb <=
  sqrt ((Monster.coreX m - Orb.x orb) ^ 2 + (Monster.coreY m - Orb.y orb) ^ 2).
Proof. apply ltb_false. Qed.

Lemma filter_hit_nearBoundary (b : bool) (m : Monster.t)
    (os : list (option Orb.t)) :
  filter (hit (with_nearBoundary b m)) os = filter (hit m) os.
Proof. apply filter_ext. intros o. apply hit_nearBoundary. Qed.

(** A pending respawn that fires inside the array puts a fresh,
    uncollected orb in its slot. *)
Lemma fireTimeout_respawn (canvas : Canvas.t) (g : Game.t) (index : nat)
    (rnd : Rand.stream) (k : nat) :
  Game.canvasRef g = Some canvas ->
  In index (Game.timeouts g) ->
  (index < List.length (Game.orbs g))%nat ->
  exists g' o,
    fireTimeout index g rnd k = Some (g', (4 + k)%nat) /\
    nth_error (Game.orbs g') index = Some (Some o) /\
    Orb.collected o = false /\
    List.length (Game.orbs g') = List.length (Game.orbs g) /\
    Game.score g' = Game.score g.
Proof.
  intros Hc Hin Hlt. unfold fireTimeout.
  assert (Ex : existsb (Nat.eqb index) (Game.timeouts g) = true).
  { apply existsb_exists. exists index. split; [exact Hin|].
    apply Nat.eqb_refl. }
  rewrite Ex. unfold Rand.bind, regenerateOrb. rewrite Hc. unfold Rand.bind.
  destruct (newOrb_result canvas rnd k) as (o & E & Ho). rewrite E.
  unfold Rand.ret. rewrite (assign_in_range index o _ Hlt).
  eexists; exists o. split; [reflexivity|]. cbn [Game.orbs Game.score].
  split; [apply set_nth_same; exact Hlt|].
  split; [exact Ho|]. split; [apply set_nth_length | reflexivity].
Qed.

(** C7 as first stated fails on [borderGame]: the uncollected orb is
    closer than [coreRadius + orb.radius], yet the collision check, which
    ends the session at the border and returns, leaves it uncollected, the
    score at 0, no particle and nothing scheduled. *)
Lemma C7_border_preempts_pickup :
  nth_error (Game.orbs borderGame) 0 = Some (Some borderOrb) /\
  Orb.collected borderOrb = false /\
  sqrt ((Monster.coreX (Game.monster borderGame) - Orb.x borderOrb) ^ 2 +
        (Monster.coreY (Game.monster borderGame) - Orb.y borderOrb) ^ 2)
  < Monster.coreRadius (Game.monster borderGame) + Orb.radius borderOrb /\
  exists g',
    checkCollisions borderGame (fun _ => 0) 0%nat = Some (g', 0%nat) /\
    nth_error (Game.orbs g') 0 = Some (Some borderOrb) /\
    Game.score g' = Game.score borderGame /\
    Game.particles g' = [] /\
    Game.timeouts g' = [].
Proof.
  split; [reflexivity|]. split; [reflexivity|]. split.
  - simpl. replace ((379 - 403) * ((379 - 403) * 1) +
                    (300 - 300) * ((300 - 300) * 1)) with (24 * 24) by ring.
    rewrite sqrt_square; lra.
  - assert (Hb : boundaryHit (Canvas.mk 400 600) (Game.monster borderGame)
                 = true).
    { apply boundaryHit_true. right; left. simpl. lra. }
    rewrite (checkCollisions_border _ borderGame (fun _ => 0) 0%nat
               eq_refl Hb).
    eexists. split; [reflexivity|]. repeat split.
Qed.

(** C7, amended.  (1) On a collision check during which the core is not
    within [coreRadius + borderWidth] of an edge: the check does not throw;
    the array keeps its size; the score grows by the number of orbs that are
    uncollected and closer to the core centre than
    [coreRadius + orb.radius]; each such orb becomes collected, its index
    is scheduled for respawn and a burst of 15 particles at its position is
    among the particles; every other orb (already collected, or not that
    close) is left as it is, so it adds nothing to the score.  (2) A burst
    has 15 particles, all at the orb's position.  (3) When the scheduled
    respawn fires, the slot receives a fresh uncollected orb; the array
    keeps its size and the score does not move.  (4) From [startGame] on,
    whatever events follow, nothing throws and the orb array holds exactly
    3 orbs. *)
Theorem C7_orb_pickup_away_from_border :
  (forall canvas g rnd k,
     Game.canvasRef g = Some canvas ->
     ~ withinOfEdge canvas (Game.monster g)
                    (Monster.coreRadius (Game.monster g) + 6) ->
     let m := Game.monster g in
     exists g' k',
       checkCollisions g rnd k = Some (g', k') /\
       List.length (Game.orbs g') = List.length (Game.orbs g) /\
       Game.score g' =
         (Game.score g +
          Z.of_nat (List.length (filter (hit m) (Game.orbs g))))%Z /\
       (forall i orb,
          nth_error (Game.orbs g) i = Some (Some orb) ->
          Orb.collected orb = false ->
          sqrt ((Monster.coreX m - Orb.x orb) ^ 2 +
                (Monster.coreY m - Orb.y orb) ^ 2)
            < Monster.coreRadius m + Orb.radius orb ->
          nth_error (Game.orbs g') i = Some (Some (Orb.collect orb)) /\
          Orb.collected (Orb.collect orb) = true /\
          (Game.score g + 1 <= Game.score g')%Z /\
          In i (Game.timeouts g') /\
          exists pre post k0,
            Game.particles g' =
            pre ++ burst (Orb.x orb) (Orb.y orb) 15 rnd k0 ++ post) /\
       (forall i orb,
          nth_error (Game.orbs g) i = Some (Some orb) ->
          Orb.collected orb = true \/
          Monster.coreRadius m + Orb.radius orb <=
            sqrt ((Monster.coreX m - Orb.x orb) ^ 2 +
                  (Monster.coreY m - Orb.y orb) ^ 2) ->
          nth_error (Game.orbs g') i = Some (Some orb))) /\
  (forall x y rnd k,
     List.length (burst x y 15 rnd k) = 15%nat /\
     Forall (fun p => Particle.x p = x /\ Particle.y p = y /\
                      Particle.life p = 1)
            (burst x y 15 rnd k)) /\
  (forall canvas g index rnd k,
     Game.canvasRef g = Some canvas ->
     In index (Game.timeouts g) ->
     (index < List.length (Game.orbs g))%nat ->
     exists g' o,
       fireTimeout index g rnd k = Some (g', (4 + k)%nat) /\
       nth_error (Game.orbs g') index = Some (Some o) /\
       Orb.collected o = false /\
       List.length (Game.orbs g') = List.length (Game.orbs g) /\
       Game.score g' = Game.score g) /\
  (forall canvas innerWidth es rnd k,
     exists g' k',
       run (StartGame innerWidth :: es) (Game.mounted canvas) rnd k
         = Some (g', k') /\
       List.length (Game.orbs g') = 3%nat).
Proof.
  split; [|split; [|split]].
  - intros canvas g rnd k Hc Hw m. apply boundaryHit_false in Hw.
    rewrite (checkCollisions_inside canvas g rnd k Hc Hw).
    set (m1 := with_nearBoundary _ _).
    eexists; eexists. split; [reflexivity|].
    cbn [Game.orbs Game.score Game.timeouts Game.particles].
    split; [apply length_map|].
    split.
    { rewrite hitIndices_filter. unfold m1.
      rewrite filter_hit_nearBoundary. reflexivity. }
    split.
    + intros i orb Hn Hcol Hd. apply touches_true in Hd.
      assert (Hh : hit m1 (Some orb) = true).
      { unfold m1. rewrite hit_nearBoundary. simpl. fold m.
        rewrite Hcol, Hd. reflexivity. }
      split.
      { rewrite nth_error_map, Hn. cbn [option_map mark].
        rewrite Hh. reflexivity. }
      split; [reflexivity|].
      pose proof (hitIndices_In m1 (Game.orbs g) 0 i _ Hn Hh) as Hin.
      simpl in Hin.
      split.
      { destruct (hitIndices m1 0 (Game.orbs g)); [destruct Hin|].
        cbn [List.length]. lia. }
      split; [apply in_or_app; right; exact Hin|].
      destruct (bursts_In m1 rnd (Game.orbs g) k i orb Hn Hh)
        as (pre & post & k0 & E).
      exists (Game.particles g ++ pre), post, k0.
      rewrite E, app_assoc. reflexivity.
    + intros i orb Hn Hor.
      assert (Hh : hit m1 (Some orb) = false).
      { unfold m1. rewrite hit_nearBoundary. simpl. fold m.
        destruct Hor as [Hcol | Hd].
        - rewrite Hcol. reflexivity.
        - apply touches_false in Hd. rewrite Hd. apply andb_false_r. }
      rewrite nth_error_map, Hn. cbn [option_map mark].
      rewrite Hh. reflexivity.
  - intros x y rnd k. split; [apply burst_length | apply burst_at].
  - apply fireTimeout_respawn.
  - intros canvas innerWidth es rnd k.
    destruct (step_Inv (StartGame innerWidth) (Game.mounted canvas) rnd k
                (Inv_mounted canvas))
      as (g1 & k1 & E1 & HI1 & _ & _ & H3).
    destruct (run_Inv es g1 rnd k1 HI1) as (g' & k' & E & _ & H3').
    exists g', k'. cbn [run]. unfold Rand.bind. rewrite E1.
    split; [exact E|]. apply H3'. apply (H3 innerWidth). reflexivity.
Qed.

(** C7 at the spec's pickup scenario: distance 0 < 25, the orb is
    collected, the score reaches 1 and index 0 is scheduled. *)
Lemma C7_orb_pickup_away_from_border_witness :
  exists g' k',
    checkCollisions onOrbGame (fun _ => 0) 0%nat = Some (g', k') /\
    nth_error (Game.orbs g') 0 =
      Some (Some (Orb.collect (Orb.mk 400 300 10 0 false))) /\
    (1 <= Game.score g')%Z /\ In 0%nat (Game.timeouts g').
Proof.
  destruct C7_orb_pickup_away_from_border as (H & _).
  destruct (H (Canvas.mk 800 600) onOrbGame (fun _ => 0) 0%nat eq_refl)
    as (g' & k' & E & _ & _ & Hpick & _).
  { unfold withinOfEdge. simpl. lra. }
  exists g', k'. split; [exact E|].
  destruct (Hpick 0%nat (Orb.mk 400 300 10 0 false) eq_refl eq_refl)
    as (Hn & _ & Hs & Hin & _).
  { simpl. replace ((400 - 400) * ((400 - 400) * 1) +
                    (300 - 300) * ((300 - 300) * 1)) with 0 by ring.
    rewrite sqrt_0. lra. }
  split; [exact Hn|]. split; [exact Hs | exact Hin].
Defined.

Lemma sameShape_trans (a b c : Tentacle.t) :
  sameShape a b -> sameShape b c -> sameShape a c.
Proof.
  intros (H1 & H2 & H3 & H4 & H5) (K1 & K2 & K3 & K4 & K5).
  unfold sameShape. repeat split; congruence.
Qed.

Lemma Forall2_sameShape_trans (xs ys : list Tentacle.t) :
  Forall2 sameShape xs ys ->
  forall zs, Forall2 sameShape ys zs -> Forall2 sameShape xs zs.
Proof.
  induction 1 as [|a b xs ys Hab _ IH]; intros zs Hz.
  - inversion Hz; subst. constructor.
  - inversion Hz as [|b0 c ys0 zs0 Hbc Hr]; subst.
    constructor; [eapply sameShape_trans; eassumption | now apply IH].
Qed.

Lemma Forall2_sameShape_length (xs ys : list Tentacle.t) :
  Forall2 sameShape xs ys -> List.length ys = List.length xs.
Proof. induction 1; simpl; congruence. Qed.

Lemma Forall2_sameShape_numSegments (n : nat) (xs ys : list Tentacle.t) :
  Forall2 sameShape xs ys ->
  Forall (fun tn => Tentacle.numSegments tn = n) xs ->
  Forall (fun tn => Tentacle.numSegments tn = n) ys.
Proof.
  induction 1 as [|a b xs ys Hab _ IH]; intros H; [constructor|].
  inversion H; subst. constructor; [|now apply IH].
  destruct Hab as (_ & _ & _ & Hn & _). congruence.
Qed.

(** Events other than [startGame], from a state of the invariant: nothing
    throws and every tentacle keeps its shape. *)
Lemma run_sameShape (es : list Event) :
  forall g rnd k,
    Inv g -> Forall (fun e => forall iw, e <> StartGame iw) es ->
    exists g' k',
      run es g rnd k = Some (g', k') /\ Inv g' /\
      Forall2 sameShape (Monster.tentacles (Game.monster g))
              (Monster.tentacles (Game.monster g')).
Proof.
  induction es as [|e es IH]; intros g rnd k HI Hno.
  - exists g, k. split; [reflexivity|]. split; [exact HI|].
    apply Forall2_sameShape_refl.
  - inversion Hno as [|e0 es0 He Hes]; subst.
    destruct (step_Inv e g rnd k HI) as (g1 & k1 & E1 & HI1 & _ & Hs & _).
    destruct (IH g1 rnd k1 HI1 Hes) as (g' & k' & E & HI' & Hs').
    exists g', k'. cbn [run]. unfold Rand.bind. rewrite E1.
    split; [exact E|]. split; [exact HI'|].
    eapply Forall2_sameShape_trans; [exact (Hs He) | exact Hs'].
Qed.

(** [startGame] from a state of the invariant: the tentacles it leaves are
    those [initializeTentacles] builds. *)
Lemma startGame_tentacles (innerWidth : R) (g : Game.t) (rnd : Rand.stream)
    (k : nat) :
  Inv g ->
  exists g1 k1,
    startGame innerWidth g rnd k = Some (g1, k1) /\ Inv g1 /\
    List.length (Monster.tentacles (Game.monster g1)) =
      (if Js.ltb innerWidth 768 then 150 else 300)%nat /\
    Forall (fun tn => Tentacle.numSegments tn =
                      (if Js.ltb innerWidth 768 then 20 else 30)%nat)
           (Monster.tentacles (Game.monster g1)).
Proof.
  intros HI.
  destruct (startGame_Inv innerWidth g rnd k HI) as (g1 & k1 & E & HI1 & _).
  exists g1, k1. split; [exact E|]. split; [exact HI1|].
  destruct HI as (Hc & _).
  destruct (Game.canvasRef g) as [canvas|] eqn:Ec; [|congruence].
  unfold startGame, Rand.bind in E. rewrite Ec in E.
  destruct (initializeTentacles_result canvas innerWidth
              (Monster.tentacles (Game.monster g)) rnd k)
    as (ts & k0 & E0 & Hl & Hall).
  rewrite E0 in E.
  destruct (generateOrbs_result canvas (Game.orbs g) rnd k0)
    as (o1 & o2 & o3 & E2 & _).
  rewrite E2 in E. unfold Rand.ret in E. injection E as <- <-.
  cbn [Game.monster with_mouse with_core with_tentacles Monster.tentacles].
  split; [exact Hl|].
  eapply Forall_impl; [|exact Hall]. simpl. tauto.
Qed.

(** ** Tentacle lengths (C9) *)

(** C9.  (1) [initializeTentacles], with the canvas mounted, does not throw
    and builds 150 tentacles of 20 segments on a narrow window, 300 of 30
    otherwise; every tentacle holds its [numSegments] segments, each of
    length [length / numSegments], which add up to [length].  (2) Whatever
    events follow the mount, nothing throws, the invariant holds and in
    every tentacle the segment lengths add up to the tentacle's [length].
    (3) From [startGame] on, whatever events follow short of the next
    [startGame], the tentacles are those 150 or 300, each with the anchor,
    [length], [numSegments] and segment lengths it was built with, and with
    segment lengths that add up to its [length].  (4) No event other than
    [startGame], which replaces the tentacles wholesale, changes a
    tentacle's anchor, [length] or [numSegments], or the length of any of
    its segments. *)
Theorem C9_tentacle_length_sum :
  (forall canvas innerWidth old rnd k,
     exists ts k',
       initializeTentacles (Some canvas) innerWidth old rnd k
         = Some (ts, k') /\
       List.length ts = (if Js.ltb innerWidth 768 then 150 else 300)%nat /\
       Forall (fun tn =>
                 Tentacle.numSegments tn =
                   (if Js.ltb innerWidth 768 then 20 else 30)%nat /\
                 List.length (Tentacle.segments tn) = Tentacle.numSegments tn /\
                 Forall (fun s => TentacleSegment.length s =
                                  Tentacle.length tn /
                                  INR (Tentacle.numSegments tn))
                        (Tentacle.segments tn) /\
                 totalLength (Tentacle.segments tn) = Tentacle.length tn)
              ts) /\
  (forall canvas es rnd k,
     exists g' k',
       run es (Game.mounted canvas) rnd k = Some (g', k') /\
       Inv g' /\
       Forall (fun tn =>
                 totalLength (Tentacle.segments tn) = Tentacle.length tn)
              (Monster.tentacles (Game.monster g'))) /\
  (forall innerWidth es g rnd k,
     Inv g -> Forall (fun e => forall iw, e <> StartGame iw) es ->
     exists g1 k1 g' k',
       startGame innerWidth g rnd k = Some (g1, k1) /\
       run es g1 rnd k1 = Some (g', k') /\
       List.length (Monster.tentacles (Game.monster g')) =
         (if Js.ltb innerWidth 768 then 150 else 300)%nat /\
       Forall2 sameShape (Monster.tentacles (Game.monster g1))
               (Monster.tentacles (Game.monster g')) /\
       Forall (fun tn =>
                 Tentacle.numSegments tn =
                   (if Js.ltb innerWidth 768 then 20 else 30)%nat)
              (Monster.tentacles (Game.monster g')) /\
       Forall (fun tn =>
                 List.length (Tentacle.segments tn) = Tentacle.numSegments tn /\
                 totalLength (Tentacle.segments tn) = Tentacle.length tn)
              (Monster.tentacles (Game.monster g'))) /\
  (forall e g rnd k g' k',
     Inv g -> (forall iw, e <> StartGame iw) ->
     step e g rnd k = Some (g', k') ->
     Forall2 sameShape (Monster.tentacles (Game.monster g))
             (Monster.tentacles (Game.monster g'))).
Proof.
  split; [|split; [|split]].
  - intros canvas innerWidth old rnd k.
    destruct (initializeTentacles_result canvas innerWidth old rnd k)
      as (ts & k' & E & Hl & Hall).
    exists ts, k'. split; [exact E|]. split; [exact Hl|].
    eapply Forall_impl; [|exact Hall]. simpl.
    intros tn (Hwf & HN). pose proof (wellFormed_totalLength tn Hwf) as Hsum.
    destruct Hwf as (_ & Hlen & Hsegs). repeat split; assumption.
  - intros canvas es rnd k.
    destruct (run_Inv es (Game.mounted canvas) rnd k (Inv_mounted canvas))
      as (g' & k' & E & HI & _).
    exists g', k'. split; [exact E|]. split; [exact HI|].
    destruct HI as (_ & Hwf & _).
    eapply Forall_impl; [|exact Hwf]. apply wellFormed_totalLength.
  - intros innerWidth es g rnd k HI Hno.
    destruct (startGame_tentacles innerWidth g rnd k HI)
      as (g1 & k1 & E1 & HI1 & Hl & HN).
    destruct (run_sameShape es g1 rnd k1 HI1 Hno) as (g' & k' & E & HI' & Hs).
    exists g1, k1, g', k'. split; [exact E1|]. split; [exact E|].
    split; [rewrite (Forall2_sameShape_length _ _ Hs); exact Hl|].
    split; [exact Hs|].
    split; [exact (Forall2_sameShape_numSegments _ _ _ Hs HN)|].
    destruct HI' as (_ & Hwf & _).
    eapply Forall_impl; [|exact Hwf]. intros tn Htn.
    split; [apply Htn | apply wellFormed_totalLength; exact Htn].
  - intros e g rnd k g' k' HI Hne E.
    destruct (step_Inv e g rnd k HI) as (g1 & k1 & E1 & _ & _ & Hs & _).
    rewrite E1 in E. injection E as <- <-. apply Hs. exact Hne.
Qed.

(** C9 on two sessions.  A frame on the game that holds the sample
    tentacle (two segments of length 1, [length] 2) leaves one tentacle of
    the same shape; a game started on a wide window and followed by a
    frame, a second, a pointer leave and a frame holds 300 tentacles. *)
Lemma C9_tentacle_length_sum_witness :
  (exists g' k' tn',
     step Frame tentacleGame (fun _ => 0) 0%nat = Some (g', k') /\
     Monster.tentacles (Game.monster g') = [tn'] /\
     sameShape sampleTentacle tn') /\
  (exists g1 k1 g' k',
     startGame 1024 (Game.mounted (Canvas.mk 800 600)) (fun _ => 0) 0%nat
       = Some (g1, k1) /\
     run [Frame; Second; MouseLeave; Frame] g1 (fun _ => 0) k1
       = Some (g', k') /\
     List.length (Monster.tentacles (Game.monster g')) = 300%nat).
Proof.
  destruct C9_tentacle_length_sum as (_ & _ & H3 & H4).
  assert (HI : Inv tentacleGame).
  { unfold Inv, tentacleGame.
    cbn [Game.canvasRef Game.monster Game.orbs Game.timeouts sampleMonster
         Monster.tentacles].
    split; [discriminate|]. split.
    - constructor; [|constructor].
      unfold wellFormed, sampleTentacle.
      cbn [Tentacle.numSegments Tentacle.segments Tentacle.length
           List.length].
      split; [lia|]. split; [reflexivity|].
      repeat constructor; simpl; lra.
    - split; [constructor|]. split; [constructor | left; reflexivity]. }
  split.
  - destruct (step_Inv Frame tentacleGame (fun _ => 0) 0%nat HI)
      as (g' & k' & E & _).
    assert (Hne : forall iw, Frame <> StartGame iw) by (intros iw; discriminate).
    pose proof (H4 Frame tentacleGame (fun _ => 0) 0%nat g' k' HI Hne E)
      as Hs.
    cbn [tentacleGame Game.monster sampleMonster Monster.tentacles] in Hs.
    destruct (Forall2_singleton _ _ _ Hs) as (tn' & Ets & Htn).
    exists g', k', tn'. split; [exact E|]. split; [exact Ets | exact Htn].
  - assert (Hno : Forall (fun e => forall iw, e <> StartGame iw)
                         [Frame; Second; MouseLeave; Frame])
      by (repeat constructor; intros iw; discriminate).
    destruct (H3 1024 [Frame; Second; MouseLeave; Frame]
                (Game.mounted (Canvas.mk 800 600)) (fun _ => 0) 0%nat
                (Inv_mounted (Canvas.mk 800 600)) Hno)
      as (g1 & k1 & g' & k' & E1 & E & Hl & _).
    exists g1, k1, g', k'. split; [exact E1|]. split; [exact E|].
    assert (Hw : Js.ltb 1024 768 = false) by (apply ltb_false; lra).
    rewrite Hw in Hl. exact Hl.
Defined.

(** ** Particles (C8, C10) *)

Lemma gtb_decay (p : Particle.t) :
  Js.gtb (Particle.life (decay p)) 0 = Js.gtb (Particle.life p) 1.
Proof.
  unfold Js.gtb, Js.ltb, decay; simpl.
  destruct (Rlt_dec 0 (Particle.life p - 1)), (Rlt_dec 1 (Particle.life p));
    try reflexivity; exfalso; lra.
Qed.

Lemma updateParticles_filter_map (ps : list Particle.t) :
  updateParticles ps =
  filter (fun p => Js.gtb (Particle.life p) 0) (map decay ps).
Proof.
  induction ps as [|p ps IH]; [reflexivity|].
  cbn [updateParticles map filter]. rewrite IH. reflexivity.
Qed.

Lemma updateParticles_map_filter (ps : list Particle.t) :
  updateParticles ps =
  map decay (filter (fun p => Js.gtb (Particle.life p) 1) ps).
Proof.
  induction ps as [|p ps IH]; [reflexivity|].
  cbn [updateParticles filter]. rewrite gtb_decay, IH.
  destruct (Js.gtb (Particle.life p) 1); reflexivity.
Qed.

Lemma updateParticles_app (ps qs : list Particle.t) :
  updateParticles (ps ++ qs) = updateParticles ps ++ updateParticles qs.
Proof.
  rewrite !updateParticles_filter_map, map_app, filter_app. reflexivity.
Qed.

Lemma updateParticles_length (ps : list Particle.t) :
  (List.length (updateParticles ps) <= List.length ps)%nat.
Proof.
  rewrite updateParticles_filter_map.
  etransitivity; [apply filter_length_le | rewrite length_map; lia].
Qed.

Lemma updateParticlesTimes_length (n : nat) :
  forall ps, (List.length (updateParticlesTimes n ps) <= List.length ps)%nat.
Proof.
  induction n as [|n IH]; intros ps; simpl; [lia|].
  etransitivity; [apply IH | apply updateParticles_length].
Qed.

Lemma updateParticlesTimes_add (n k : nat) :
  forall ps,
    updateParticlesTimes (n + k) ps =
    updateParticlesTimes k (updateParticlesTimes n ps).
Proof. induction n as [|n IH]; intros ps; simpl; [reflexivity | apply IH]. Qed.

Lemma iter_decay_life (n : nat) (p : Particle.t) :
  Particle.life (Nat.iter n decay p) = Particle.life p - INR n.
Proof.
  induction n as [|n IH]; [simpl; ring|].
  rewrite S_INR. cbn [Nat.iter nat_rect]. unfold decay at 1.
  cbn [Particle.life]. unfold Nat.iter in IH. rewrite IH. ring.
Qed.

Lemma iter_decay_fixed (n : nat) (p : Particle.t) :
  Particle.maxLife (Nat.iter n decay p) = Particle.maxLife p /\
  Particle.size (Nat.iter n decay p) = Particle.size p.
Proof.
  induction n as [|n [IH1 IH2]]; [split; reflexivity|].
  cbn [Nat.iter nat_rect]. unfold decay at 1 3.
  cbn [Particle.maxLife Particle.size]. split; assumption.
Qed.

Lemma filter_map_comm {A B : Type} (P : B -> bool) (f : A -> B)
    (l : list A) :
  filter P (map f l) = map f (filter (fun a => P (f a)) l).
Proof.
  induction l as [|a l IH]; [reflexivity|]. simpl.
  destruct (P (f a)); simpl; now rewrite IH.
Qed.

Lemma filter_filter {A : Type} (P Q : A -> bool) (l : list A) :
  filter P (filter Q l) = filter (fun a => Q a && P a) l.
Proof.
  induction l as [|a l IH]; [reflexivity|]. simpl.
  destruct (Q a); simpl; [destruct (P a)|]; now rewrite IH.
Qed.

Lemma gtb_succ (v : R) (n : nat) :
  Js.gtb v 1 && Js.gtb (v - 1) (INR (S n)) = Js.gtb v (INR (S (S n))).
Proof.
  pose proof (pos_INR n) as Hn. rewrite !S_INR.
  unfold Js.gtb, Js.ltb.
  destruct (Rlt_dec 1 v), (Rlt_dec (INR n + 1) (v - 1)),
           (Rlt_dec (INR n + 1 + 1) v);
    try reflexivity; exfalso; lra.
Qed.

(** After [n >= 1] ticks without a spawn, the particles are, in their
    original order, those whose [life] was above [n], each decayed [n]
    times. *)
Lemma updateParticlesTimes_closed (n : nat) :
  forall ps,
    updateParticlesTimes (S n) ps =
    map (Nat.iter (S n) decay)
        (filter (fun p => Js.gtb (Particle.life p) (INR (S n))) ps).
Proof.
  induction n as [|n IH]; intros ps.
  - cbn [updateParticlesTimes]. apply updateParticles_map_filter.
  - change (updateParticlesTimes (S (S n)) ps)
      with (updateParticlesTimes (S n) (updateParticles ps)).
    rewrite IH, updateParticles_map_filter.
    rewrite filter_map_comm, map_map, filter_filter.
    rewrite (filter_ext _ (fun p => Js.gtb (Particle.life p) (INR (S (S n))))).
    + apply map_ext. intros p. symmetry. apply Nat.iter_succ_r.
    + intros p. unfold decay at 1. cbn [Particle.life]. apply gtb_succ.
Qed.

(** C8.  (1) One tick turns each particle into [decay p]: position moved
    by the velocity, both velocity components multiplied by 0.98, [life]
    one less, [maxLife] and [size] untouched; (2) and keeps exactly the
    decayed particles whose [life] is still positive, in order; so (3) the
    number of particles never grows and (4) after [n >= 1] ticks the
    particles are the images of those whose [life] exceeded [n]: a particle
    once dropped is in no later list.  (5) A particle is drawn with alpha
    [life / maxLife] and radius [size * life / maxLife]; (6) a particle
    whose [life] is a whole number [n + 1] is kept for [n] ticks and dropped
    by the next, where its [life], alpha and radius are exactly 0. *)
Theorem C8_particle_decay :
  (forall p,
     Particle.vx (decay p) = Particle.vx p * 0.98 /\
     Particle.vy (decay p) = Particle.vy p * 0.98 /\
     Particle.life (decay p) = Particle.life p - 1 /\
     Particle.x (decay p) = Particle.x p + Particle.vx p /\
     Particle.y (decay p) = Particle.y p + Particle.vy p /\
     Particle.maxLife (decay p) = Particle.maxLife p /\
     Particle.size (decay p) = Particle.size p) /\
  (forall ps,
     updateParticles ps =
     filter (fun q => Js.gtb (Particle.life q) 0) (map decay ps)) /\
  (forall ps q,
     In q (updateParticles ps) <->
     (exists p, In p ps /\ q = decay p) /\ 0 < Particle.life q) /\
  (forall ps n,
     (List.length (updateParticles ps) <= List.length ps)%nat /\
     (List.length (updateParticlesTimes (S n) ps)
      <= List.length (updateParticlesTimes n ps))%nat) /\
  (forall ps n,
     updateParticlesTimes (S n) ps =
     map (Nat.iter (S n) decay)
         (filter (fun p => Js.gtb (Particle.life p) (INR (S n))) ps)) /\
  (forall p,
     Arc.alpha (drawParticle p) = Particle.life p / Particle.maxLife p /\
     Arc.radius (drawParticle p) =
       Particle.size p * (Particle.life p / Particle.maxLife p)) /\
  (forall x y vx vy n maxLife size,
     let p := Particle.mk x y vx vy (INR (S n)) maxLife size in
     updateParticlesTimes n [p] = [Nat.iter n decay p] /\
     updateParticlesTimes (S n) [p] = [] /\
     Particle.life (Nat.iter (S n) decay p) = 0 /\
     Arc.alpha (drawParticle (Nat.iter (S n) decay p)) = 0 /\
     Arc.radius (drawParticle (Nat.iter (S n) decay p)) = 0).
Proof.
  split; [|split; [|split; [|split; [|split; [|split]]]]].
  - intros p. repeat split.
  - apply updateParticles_filter_map.
  - intros ps q. rewrite updateParticles_filter_map, filter_In, in_map_iff.
    unfold Js.gtb. rewrite ltb_true. split.
    + intros ((p & <- & Hp) & Hl). split; [exists p; auto | exact Hl].
    + intros ((p & Hp & ->) & Hl). split; [exists p; auto | exact Hl].
  - intros ps n. split; [apply updateParticles_length|].
    replace (S n) with (n + 1)%nat by lia.
    rewrite updateParticlesTimes_add. cbn [updateParticlesTimes].
    apply updateParticles_length.
  - intros ps n. apply updateParticlesTimes_closed.
  - intros p. split; reflexivity.
  - intros x y vx vy n maxLife size p.
    assert (Hlife : Particle.life p = INR (S n)) by reflexivity.
    assert (Hz : Particle.life (Nat.iter (S n) decay p) = 0).
    { rewrite iter_decay_life, Hlife. ring. }
    split; [|split; [|split; [exact Hz|]]].
    + destruct n as [|n]; [reflexivity|].
      rewrite updateParticlesTimes_closed. cbn [filter].
      replace (Js.gtb (Particle.life p) (INR (S n))) with true; [reflexivity|].
      symmetry. unfold Js.gtb. apply ltb_true. rewrite Hlife.
      rewrite (S_INR (S n)). lra.
    + rewrite updateParticlesTimes_closed. cbn [filter].
      replace (Js.gtb (Particle.life p) (INR (S n))) with false; [reflexivity|].
      symmetry. unfold Js.gtb. apply ltb_false. rewrite Hlife. lra.
    + unfold drawParticle. cbn [Arc.alpha Arc.radius]. rewrite Hz.
      unfold Rdiv. split; ring.
Qed.

(** C8 on one particle with three ticks to live. *)
Lemma C8_particle_decay_witness :
  updateParticlesTimes 3
    [Particle.mk 0 0 1 1 (INR 3) 30 2] = [].
Proof.
  destruct C8_particle_decay as (_ & _ & _ & _ & _ & _ & H).
  destruct (H 0 0 1 1 2%nat 30 2) as (_ & E & _). exact E.
Defined.

Lemma updateParticles_life_one (ps : list Particle.t) :
  Forall (fun p => Particle.life p = 1) ps -> updateParticles ps = [].
Proof.
  induction 1 as [|p ps Hp _ IH]; [reflexivity|].
  cbn [updateParticles]. rewrite IH.
  replace (Js.gtb (Particle.life (decay p)) 0) with false; [reflexivity|].
  symmetry. unfold Js.gtb. apply ltb_false. simpl. lra.
Qed.

Lemma burst_fair (x y : R) (rnd : Rand.stream) (count : nat) :
  Rand.fair rnd ->
  forall k,
    Forall (fun p =>
              Particle.x p = x /\ Particle.y p = y /\
              Particle.life p = 1 /\
              30 <= Particle.maxLife p < 50 /\
              2 <= Particle.size p < 5)
           (burst x y count rnd k).
Proof.
  intros Hf. induction count as [|c IH]; intros k; simpl; constructor.
  - simpl. pose proof (Hf (S (S k))). pose proof (Hf (S (S (S k)))).
    repeat split; lra.
  - apply IH.
Qed.

(** C10.  With [Math.random()] in [0, 1), [createParticles(x, y, count)]
    appends [count] particles at (x, y), each with [life = 1] and
    [30 <= maxLife < 50]; each is drawn with alpha [1 / maxLife], which is
    positive and at most 1/30, and with radius at most [size / 30]; and the
    next [updateParticles] drops every one of them: what is left is what
    the older particles leave. *)
Theorem C10_spawned_particles_live_one_tick (x y : R) (count : nat)
    (ps : list Particle.t) (rnd : Rand.stream) (k : nat) :
  Rand.fair rnd ->
  exists fresh,
    createParticles x y count ps rnd k
      = Some (ps ++ fresh, (4 * count + k)%nat) /\
    List.length fresh = count /\
    Forall (fun p =>
              Particle.x p = x /\ Particle.y p = y /\
              Particle.life p = 1 /\
              30 <= Particle.maxLife p /\
              Particle.life (decay p) = 0 /\
              0 < Arc.alpha (drawParticle p) <= 1 / 30 /\
              Arc.radius (drawParticle p) = Particle.size p *
                                            Arc.alpha (drawParticle p) /\
              Arc.radius (drawParticle p) <= Particle.size p / 30)
           fresh /\
    updateParticles fresh = [] /\
    updateParticles (ps ++ fresh) = updateParticles ps.
Proof.
  intros Hf. exists (burst x y count rnd k).
  split; [apply createParticles_burst|].
  split; [apply burst_length|].
  pose proof (burst_fair x y rnd count Hf k) as Hb.
  assert (Hone : Forall (fun p => Particle.life p = 1) (burst x y count rnd k)).
  { eapply Forall_impl; [|exact Hb]. simpl. tauto. }
  split; [|split].
  - eapply Forall_impl; [|exact Hb]. simpl.
    intros p (Hx & Hy & Hl & (Hm & _) & (Hs & _)).
    assert (Hinv : 0 < / Particle.maxLife p <= / 30).
    { split; [apply Rinv_0_lt_compat; lra|].
      apply Rinv_le_contravar; lra. }
    unfold drawParticle. cbn [Arc.alpha Arc.radius]. rewrite Hl.
    unfold Rdiv. rewrite !Rmult_1_l.
    repeat split; try assumption; try lra.
    apply Rmult_le_compat_l; lra.
  - apply updateParticles_life_one. exact Hone.
  - rewrite updateParticles_app, (updateParticles_life_one _ Hone).
    apply app_nil_r.
Qed.

(** C10 for the burst of 15 that an orb pickup spawns, on the stream that
    always returns 0. *)
Lemma C10_spawned_particles_live_one_tick_witness :
  exists fresh,
    createParticles 400 300 15 [] (fun _ => 0) 0%nat = Some (fresh, 60%nat) /\
    List.length fresh = 15%nat /\ updateParticles fresh = [].
Proof.
  assert (Hf : Rand.fair (fun _ => 0)) by (intros k; lra).
  destruct (C10_spawned_particles_live_one_tick 400 300 15 [] (fun _ => 0)
              0%nat Hf) as (fresh & E & Hl & _ & Hu & _).
  exists fresh. split; [exact E|]. split; [exact Hl | exact Hu].
Defined.

(** * Further properties of the code *)

(** ** The freshly built chain *)

Lemma pushSegments_straight (ax ay len : R) (k : nat) :
  forall (segs : list TentacleSegment.t) (lst : TentacleSegment.t)
         (segs' : list TentacleSegment.t),
    (forall j s,
       nth_error (segs ++ [lst]) j = Some s ->
       TentacleSegment.pos s = Point.mk (ax + INR j * len) ay /\
       TentacleSegment.nextPos s = Point.mk (ax + INR (S j) * len) ay /\
       TentacleSegment.angle s = 0) ->
    pushSegments k (S (List.length segs)) len (segs ++ [lst]) = Some segs' ->
    forall j s,
      nth_error segs' j = Some s ->
      TentacleSegment.pos s = Point.mk (ax + INR j * len) ay /\
      TentacleSegment.nextPos s = Point.mk (ax + INR (S j) * len) ay /\
      TentacleSegment.angle s = 0.
Proof.
  induction k as [|k IH]; intros segs lst segs' Hold E.
  - injection E as <-. exact Hold.
  - cbn [pushSegments] in E.
    replace (S (List.length segs) - 1)%nat with (List.length segs) in E by lia.
    rewrite get_middle in E. cbn [TentacleSegment.new] in E.
    match type of E with pushSegments k _ _ (_ ++ [?new]) = _ =>
      set (s1 := new) in E end.
    destruct (Hold (List.length segs) lst) as (_ & Hnp & _).
    { pose proof (get_middle segs [] lst) as H. exact H. }
    apply (IH (segs ++ [lst]) s1 segs'); clear IH.
    + intros j s Hj.
      destruct (Nat.lt_ge_cases j (List.length (segs ++ [lst]))) as [Hlt | Hge].
      * rewrite nth_error_app1 in Hj by exact Hlt. apply Hold. exact Hj.
      * rewrite nth_error_app2 in Hj by exact Hge.
        destruct (j - List.length (segs ++ [lst]))%nat as [|d] eqn:Ed.
        2:{ simpl in Hj. destruct d; discriminate. }
        simpl in Hj. injection Hj as <-.
        assert (Hjj : j = S (List.length segs)).
        { rewrite length_app in Hge, Ed. simpl in Hge, Ed. lia. }
        subst j. unfold s1. cbn [TentacleSegment.pos TentacleSegment.nextPos
                                 TentacleSegment.angle].
        rewrite Hnp. cbn [Point.x Point.y]. rewrite cos_0, sin_0.
        rewrite (S_INR (S (List.length segs))).
        repeat split; f_equal; ring.
    + rewrite length_app. cbn [List.length].
      replace (List.length segs + 1)%nat with (S (List.length segs)) by lia.
      exact E.
Qed.

Lemma newTentacle_straight (canvas : Canvas.t) (maxLength minLength : R)
    (numSegments : nat) (rnd : Rand.stream) (k : nat) :
  (1 <= numSegments)%nat ->
  exists tn,
    newTentacle canvas maxLength minLength numSegments rnd k
      = Some (tn, (4 + k)%nat) /\
    Tentacle.numSegments tn = numSegments /\
    List.length (Tentacle.segments tn) = numSegments /\
    forall j s,
      nth_error (Tentacle.segments tn) j = Some s ->
      let len := Tentacle.length tn / INR (Tentacle.numSegments tn) in
      TentacleSegment.pos s =
        Point.mk (Tentacle.x tn + INR j * len) (Tentacle.y tn) /\
      TentacleSegment.nextPos s =
        Point.mk (Tentacle.x tn + INR (S j) * len) (Tentacle.y tn) /\
      TentacleSegment.angle s = 0.
Proof.
  intros Hn.
  destruct (newTentacle_result canvas maxLength minLength numSegments rnd k Hn)
    as (tn & E & (_ & Hlen & _) & HN & _).
  exists tn. split; [exact E|]. split; [exact HN|].
  split; [rewrite <- HN; exact Hlen|].
  revert E. unfold newTentacle, Rand.bind, Rand.random, Rand.lift, Rand.ret.
  cbn [TentacleSegment.new Tentacle.x Tentacle.y].
  match goal with |- context [pushSegments _ 1 ?l _] => set (len := l) end.
  match goal with |- context [pushSegments _ 1 len [?s0]] =>
    set (first := s0) end.
  destruct (pushSegments (numSegments - 1) 1 len [first]) as [segs|] eqn:Ep;
    cbv beta iota; [|intros E; discriminate E].
  intros E. injection E as <-.
  cbn [Tentacle.with_segments Tentacle.segments Tentacle.x Tentacle.y
       Tentacle.length Tentacle.numSegments].
  fold len.
  apply (pushSegments_straight _ _ len (numSegments - 1) [] first segs);
    [|exact Ep].
  intros [|[|j]] s Hj; simpl in Hj; try discriminate.
  injection Hj as <-. unfold first.
  cbn [TentacleSegment.pos TentacleSegment.nextPos TentacleSegment.angle].
  rewrite cos_0, sin_0. simpl INR. repeat split; f_equal; ring.
Qed.

(** X1.  Every tentacle that [initializeTentacles] builds lies straight
    along the positive x axis: segment [j] runs from
    [anchor + j * length / numSegments] to
    [anchor + (j + 1) * length / numSegments] at the anchor's height, with
    angle 0, so each segment starts where its predecessor ends and the tip
    ends at [anchor + (length, 0)]. *)
Theorem X1_fresh_chain_is_straight (canvas : Canvas.t) (innerWidth : R)
    (old : list Tentacle.t) (rnd : Rand.stream) (k : nat) :
  exists ts k',
    initializeTentacles (Some canvas) innerWidth old rnd k = Some (ts, k') /\
    Forall
      (fun tn =>
         let len := Tentacle.length tn / INR (Tentacle.numSegments tn) in
         (forall j s,
            nth_error (Tentacle.segments tn) j = Some s ->
            TentacleSegment.pos s =
              Point.mk (Tentacle.x tn + INR j * len) (Tentacle.y tn) /\
            TentacleSegment.nextPos s =
              Point.mk (Tentacle.x tn + INR (S j) * len) (Tentacle.y tn) /\
            TentacleSegment.angle s = 0) /\
         (forall tip,
            nth_error (Tentacle.segments tn) (Tentacle.numSegments tn - 1)
              = Some tip ->
            TentacleSegment.nextPos tip =
              Point.mk (Tentacle.x tn + Tentacle.length tn) (Tentacle.y tn)))
      ts.
Proof.
  unfold initializeTentacles.
  match goal with |- context [Rand.array_from ?count ?c] =>
    destruct (array_from_Forall
                (fun tn =>
                   (1 <= Tentacle.numSegments tn)%nat /\
                   forall j s,
                     nth_error (Tentacle.segments tn) j = Some s ->
                     let len := Tentacle.length tn /
                                INR (Tentacle.numSegments tn) in
                     TentacleSegment.pos s =
                       Point.mk (Tentacle.x tn + INR j * len)
                                (Tentacle.y tn) /\
                     TentacleSegment.nextPos s =
                       Point.mk (Tentacle.x tn + INR (S j) * len)
                                (Tentacle.y tn) /\
                     TentacleSegment.angle s = 0)
                c rnd) with (n := count) (k := k)
      as (ts & k' & E & _ & Hall)
  end.
  - intros k0.
    match goal with |- context [newTentacle canvas ?a ?b ?n] =>
      destruct (newTentacle_straight canvas a b n rnd k0)
        as (tn & E & HN & _ & Hs) end.
    { destruct (Js.ltb innerWidth 768); lia. }
    exists tn, (4 + k0)%nat. split; [exact E|]. split; [|exact Hs].
    rewrite HN. destruct (Js.ltb innerWidth 768); lia.
  - exists ts, k'. split; [exact E|].
    eapply Forall_impl; [|exact Hall]. cbv beta.
    intros tn (Hn & Hs). split; [exact Hs|].
    intros tip Htip. destruct (Hs _ _ Htip) as (_ & Hnp & _).
    rewrite Hnp. f_equal.
    replace (S (Tentacle.numSegments tn - 1)) with (Tentacle.numSegments tn)
      by lia.
    field. apply not_0_INR. lia.
Qed.

(** ** The chain after the IK pass *)

Lemma ikChain_connected (goal : Point.t) (segs : list TentacleSegment.t) :
  forall i a b,
    nth_error (ikChain goal segs) i = Some a ->
    nth_error (ikChain goal segs) (S i) = Some b ->
    TentacleSegment.nextPos a = TentacleSegment.pos b.
Proof.
  intros i a b Ha Hb.
  destruct (nth_error segs i) as [s|] eqn:Es.
  - rewrite (ikChain_nth goal segs i s Es), Hb in Ha.
    injection Ha as <-. apply update_nextPos.
  - apply nth_error_None in Es.
    assert (nth_error (ikChain goal segs) i = None)
      by (apply nth_error_None; rewrite ikChain_length; exact Es).
    congruence.
Qed.

Lemma ikChain_tip (goal : Point.t) (segs : list TentacleSegment.t) :
  forall tip,
    nth_error (ikChain goal segs) (List.length segs - 1) = Some tip ->
    TentacleSegment.nextPos tip = goal.
Proof.
  intros tip Ht.
  destruct (nth_error segs (List.length segs - 1)) as [s|] eqn:Es.
  - rewrite (ikChain_nth goal segs _ s Es) in Ht.
    replace (nth_error (ikChain goal segs) (S (List.length segs - 1)))
      with (@None TentacleSegment.t) in Ht.
    + injection Ht as <-. apply update_nextPos.
    + symmetry. apply nth_error_None. rewrite ikChain_length. lia.
  - apply nth_error_None in Es.
    assert (nth_error (ikChain goal segs) (List.length segs - 1) = None)
      by (apply nth_error_None; rewrite ikChain_length; exact Es).
    congruence.
Qed.

(** X2.  The IK pass leaves a connected chain that ends on its goal: in the
    chain it returns, every segment's [nextPos] is its successor's [pos],
    and the tip's [nextPos] is the goal.  (The base is wherever the pull
    left it: the pass never looks at the anchor.) *)
Theorem X2_ik_pass_connects_chain (n : nat) (goal : Point.t)
    (segs : list TentacleSegment.t) :
  (1 <= n)%nat -> List.length segs = n ->
  exists solved,
    ikPass n goal segs = Some solved /\
    List.length solved = n /\
    (forall i a b,
       nth_error solved i = Some a -> nth_error solved (S i) = Some b ->
       TentacleSegment.nextPos a = TentacleSegment.pos b) /\
    (forall tip,
       nth_error solved (n - 1) = Some tip ->
       TentacleSegment.nextPos tip = goal).
Proof.
  intros Hn Hlen. exists (ikChain goal segs).
  split; [apply ikPass_ikChain; assumption|].
  split; [rewrite ikChain_length; exact Hlen|].
  split; [apply ikChain_connected|].
  rewrite <- Hlen. apply ikChain_tip.
Qed.

Lemma X2_ik_pass_connects_chain_witness :
  exists solved,
    ikPass 2 (Point.mk 3 4) (Tentacle.segments sampleTentacle) = Some solved /\
    List.length solved = 2%nat.
Proof.
  destruct (X2_ik_pass_connects_chain 2 (Point.mk 3 4)
              (Tentacle.segments sampleTentacle))
    as (solved & E & Hl & _).
  - lia.
  - reflexivity.
  - exists solved. split; [exact E | exact Hl].
Defined.

(** ** What [drawMonster] draws after a tick *)

Lemma forEachTry_Forall2 {A : Type} (f : A -> option A) (l : list A) :
  forall l', forEachTry f l = Some l' ->
             Forall2 (fun a a' => f a = Some a') l l'.
Proof.
  induction l as [|a l IH]; intros l' E; simpl in E.
  - injection E as <-. constructor.
  - destruct (f a) as [a'|] eqn:Ea; [|discriminate].
    destruct (forEachTry f l) as [r|]; [|discriminate].
    injection E as <-. constructor; [exact Ea | now apply IH].
Qed.

Lemma Forall2_In_r {A B : Type} (R : A -> B -> Prop) (l : list A)
    (l' : list B) :
  Forall2 R l l' -> forall b, In b l' -> exists a, In a l /\ R a b.
Proof.
  induction 1 as [|a b l l' Hab _ IH]; intros c Hc; [destruct Hc|].
  destruct Hc as [<- | Hc].
  - exists a. split; [now left | exact Hab].
  - destruct (IH c Hc) as (a0 & Hin & Hr). exists a0. split; [now right | exact Hr].
Qed.

(** The record [updateMonster] returns, with each new tentacle the
    [updateTentacle] of the old one. *)
Lemma updateMonster_tentacles (canvas : Canvas.t) (m : Monster.t) :
  Forall wellFormed (Monster.tentacles m) ->
  let T := Point.mk (Monster.coreX m + fst (targetError canvas m) / 10)
                    (Monster.coreY m + snd (targetError canvas m) / 10) in
  exists ts',
    Forall2 (fun tn tn' => updateTentacle T (Monster.lastTarget m) tn = Some tn')
            (Monster.tentacles m) ts' /\
    updateMonster (Some canvas) m =
    Some (Monster.mk (Point.x T) (Point.y T) (Monster.coreRadius m) ts'
            (Monster.mouseX m) (Monster.mouseY m) T
            (fst (targetError canvas m)) (snd (targetError canvas m))
            (Monster.autoMoveTime m + 0.01) (Monster.nearBoundary m)).
Proof.
  intros Hwf T. unfold updateMonster. subst T.
  destruct (targetError canvas m) as [ex ey]. cbn [fst snd Point.x Point.y].
  destruct (forEachTry_shape
              (Point.mk (Monster.coreX m + ex / 10)
                        (Monster.coreY m + ey / 10))
              (Monster.lastTarget m) _ Hwf) as (ts' & E & _).
  exists ts'. split; [apply forEachTry_Forall2; exact E|].
  rewrite E. reflexivity.
Qed.

Lemma lineTos_map (segs : list TentacleSegment.t) :
  forall pre,
    lineTos (List.length segs) (List.length pre) (pre ++ segs) =
    Some (map TentacleSegment.nextPos segs).
Proof.
  induction segs as [|s segs IH]; intros pre; [reflexivity|].
  cbn [List.length lineTos]. rewrite get_middle.
  pose proof (IH (pre ++ [s])) as H.
  rewrite length_app in H. cbn [List.length] in H.
  replace (List.length pre + 1)%nat with (S (List.length pre)) in H by lia.
  rewrite <- app_assoc in H. cbn [app] in H. rewrite H.
  cbn [map]. rewrite point_eta. reflexivity.
Qed.

Lemma dist_forward (px py len a : R) :
  dist px py (px + len * cos a) (py + len * sin a) = Rabs len.
Proof.
  unfold dist.
  replace ((px + len * cos a - px) ^ 2 + (py + len * sin a - py) ^ 2)
    with (Rsqr len).
  - apply sqrt_Rsqr_abs.
  - pose proof (sin2_cos2 a) as H. unfold Rsqr in *.
    transitivity (len * len * (sin a * sin a + cos a * cos a)).
    + rewrite H; ring.
    + ring.
Qed.

Lemma totalLength_map (segs segs' : list TentacleSegment.t) :
  map TentacleSegment.length segs' = map TentacleSegment.length segs ->
  totalLength segs' = totalLength segs.
Proof.
  revert segs'. induction segs as [|s segs IH]; intros [|s' segs'] H;
    try discriminate; [reflexivity|].
  simpl in H. injection H as Hs Hr.
  unfold totalLength. cbn [fold_right]. rewrite Hs. f_equal.
  apply IH. exact Hr.
Qed.

(** The polyline through the anchor and the [nextPos] of a chain laid out
    by the fallback pass is as long as the chain. *)
Lemma pathLength_fallbackChain (segs : list TentacleSegment.t) :
  Forall (fun s => 0 <= TentacleSegment.length s) segs ->
  forall p,
    pathLength (p :: map TentacleSegment.nextPos (fallbackChain p segs))
    = totalLength segs.
Proof.
  induction 1 as [|s segs Hs _ IH]; intros p; [reflexivity|].
  cbn [fallbackChain map].
  set (s' := TentacleSegment.fallback s p).
  change (pathLength (p :: TentacleSegment.nextPos s' ::
                      map TentacleSegment.nextPos
                        (fallbackChain (TentacleSegment.nextPos s') segs)))
    with (dist (Point.x p) (Point.y p)
               (Point.x (TentacleSegment.nextPos s'))
               (Point.y (TentacleSegment.nextPos s'))
          + pathLength (TentacleSegment.nextPos s' ::
                        map TentacleSegment.nextPos
                          (fallbackChain (TentacleSegment.nextPos s') segs))).
  rewrite IH. unfold s'. cbn [TentacleSegment.fallback TentacleSegment.nextPos
                              Point.x Point.y].
  rewrite dist_forward, Rabs_right by lra. reflexivity.
Qed.

Lemma dist_nonneg (a b c d : R) : 0 <= dist a b c d.
Proof. unfold dist. apply sqrt_pos. Qed.

Lemma drawTentacleLines_total (m : Monster.t) (ts : list Tentacle.t) :
  (forall tn, In tn ts -> tentacleLit m tn = true ->
              exists st, tentacleStroke tn = Some st) ->
  exists strokes, drawTentacleLines m ts = Some strokes.
Proof.
  induction ts as [|tn ts IH]; intros H; [exists []; reflexivity|].
  cbn [drawTentacleLines].
  destruct IH as (sts & Es).
  { intros t Hin. apply H. now right. }
  rewrite Es. destruct (tentacleLit m tn) eqn:Hlit.
  - destruct (H tn (or_introl eq_refl) Hlit) as (st & Est).
    rewrite Est. eexists; reflexivity.
  - exists sts. reflexivity.
Qed.

(** X3.  After a tick, every tentacle that [drawMonster] strokes (those
    with [dist(anchor, core) <= length]) is drawn whole and from its
    anchor: the stroke's polyline starts at the anchor, has one vertex per
    segment after it, and is exactly [tentacle.length] long.  The reason is
    that the drawing test implies the fallback test of the tick just run,
    so the chain drawn is the one the fallback pass laid out.  The stroking
    loop of [drawMonster] does not throw. *)
Theorem X3_lit_tentacles_are_drawn_whole (canvas : Canvas.t) (m : Monster.t) :
  Forall wellFormed (Monster.tentacles m) ->
  Forall (fun tn => 0 <= Tentacle.length tn) (Monster.tentacles m) ->
  exists m',
    updateMonster (Some canvas) m = Some m' /\
    (exists strokes,
       drawTentacleLines m' (Monster.tentacles m') = Some strokes) /\
    forall tn',
      In tn' (Monster.tentacles m') ->
      tentacleLit m' tn' = true ->
      exists st rest,
        tentacleStroke tn' = Some st /\
        Stroke.path st =
          Point.mk (Tentacle.x tn') (Tentacle.y tn') :: rest /\
        List.length rest = Tentacle.numSegments tn' /\
        pathLength (Stroke.path st) = Tentacle.length tn'.
Proof.
  intros Hwf Hpos.
  destruct (updateMonster_tentacles canvas m Hwf) as (ts' & Hrel & E).
  cbv zeta in Hrel, E. eexists. split; [exact E|].
  cbn [Monster.tentacles].
  set (T := Point.mk _ _) in *.
  set (m' := Monster.mk _ _ _ ts' _ _ _ _ _ _ _).
  assert (Hstroke : forall tn',
            In tn' ts' -> tentacleLit m' tn' = true ->
            exists st rest,
              tentacleStroke tn' = Some st /\
              Stroke.path st =
                Point.mk (Tentacle.x tn') (Tentacle.y tn') :: rest /\
              List.length rest = Tentacle.numSegments tn' /\
              pathLength (Stroke.path st) = Tentacle.length tn').
  { intros tn' Hin Hlit.
    destruct (Forall2_In_r _ _ _ Hrel tn' Hin) as (tn & Hin0 & Hupd).
    rewrite Forall_forall in Hwf, Hpos.
    pose proof (Hwf tn Hin0) as (Hn & Hlen & Hsegs).
    pose proof (Hpos tn Hin0) as HL.
    rewrite (updateTentacle_chain T (Monster.lastTarget m) tn Hn Hlen) in Hupd.
    cbv zeta in Hupd. injection Hupd as <-.
    unfold tentacleLit in Hlit.
    cbn [Tentacle.x Tentacle.y Tentacle.length Monster.coreX Monster.coreY m']
      in Hlit.
    apply leb_true in Hlit.
    assert (Hreach : inReach T (Monster.lastTarget m) tn = true).
    { apply inReach_true.
      pose proof (dist_nonneg (Point.x (Monster.lastTarget m))
                    (Point.y (Monster.lastTarget m)) (Point.x T) (Point.y T)).
      lra. }
    rewrite Hreach. unfold tentacleStroke.
    cbn [Tentacle.numSegments Tentacle.segments Tentacle.x Tentacle.y
         Tentacle.rand Tentacle.length].
    set (solved := ikChain _ (Tentacle.segments tn)).
    set (anchor := Point.mk (Tentacle.x tn) (Tentacle.y tn)).
    assert (Hfl : List.length (fallbackChain anchor solved)
                  = Tentacle.numSegments tn).
    { unfold solved. now rewrite fallbackChain_length, ikChain_length. }
    pose proof (lineTos_map (fallbackChain anchor solved) []) as Hl.
    cbn [List.length app] in Hl. rewrite Hfl in Hl. rewrite Hl.
    eexists; eexists. split; [reflexivity|]. cbn [Stroke.path].
    split; [reflexivity|]. split; [now rewrite length_map|].
    assert (Hnn : Forall (fun s => 0 <= TentacleSegment.length s) solved).
    { apply Forall_forall. intros s Hs.
      apply (in_map TentacleSegment.length) in Hs.
      unfold solved in Hs. rewrite ikChain_lengths in Hs.
      apply in_map_iff in Hs as (s0 & <- & Hs0).
      rewrite Forall_forall in Hsegs. rewrite (Hsegs s0 Hs0).
      apply Rmult_le_pos; [exact HL|].
      left. apply Rinv_0_lt_compat. apply lt_0_INR. lia. }
    rewrite (pathLength_fallbackChain solved Hnn anchor).
    rewrite (totalLength_map (Tentacle.segments tn) solved)
      by (unfold solved; apply ikChain_lengths).
    apply wellFormed_totalLength. repeat split; assumption. }
  split; [|exact Hstroke].
  apply drawTentacleLines_total. intros tn' Hin Hlit.
  destruct (Hstroke tn' Hin Hlit) as (st & _ & Est & _).
  exists st. exact Est.
Qed.

(** X3 on the sample monster. *)
Lemma X3_lit_tentacles_are_drawn_whole_witness :
  exists m',
    updateMonster (Some (Canvas.mk 800 600)) sampleMonster = Some m' /\
    exists strokes,
      drawTentacleLines m' (Monster.tentacles m') = Some strokes.
Proof.
  destruct (X3_lit_tentacles_are_drawn_whole (Canvas.mk 800 600)
              sampleMonster) as (m' & E & Hs & _).
  - repeat constructor; simpl; lra.
  - repeat constructor. simpl. lra.
  - exists m'. split; [exact E | exact Hs].
Defined.

Lemma dist_self (a b : R) : dist a b a b = 0.
Proof.
  unfold dist. replace ((a - a) ^ 2 + (b - b) ^ 2) with 0 by ring.
  apply sqrt_0.
Qed.

(** ** The core's approach to the pointer *)

Lemma pow_9_10 (n : nat) : 0 <= (9 / 10) ^ n <= 1.
Proof.
  induction n as [|n IH]; simpl; [lra|]. nra.
Qed.

Lemma updateMonsterTimes_pointer (canvas : Canvas.t) (n : nat) :
  forall m,
    Forall wellFormed (Monster.tentacles m) ->
    Monster.mouseX m <> 0 -> Monster.mouseY m <> 0 ->
    exists mn,
      updateMonsterTimes n (Some canvas) m = Some mn /\
      Monster.mouseX mn = Monster.mouseX m /\
      Monster.mouseY mn = Monster.mouseY m /\
      Monster.coreX mn - Monster.mouseX m =
        (9 / 10) ^ n * (Monster.coreX m - Monster.mouseX m) /\
      Monster.coreY mn - Monster.mouseY m =
        (9 / 10) ^ n * (Monster.coreY m - Monster.mouseY m).
Proof.
  induction n as [|n IH]; intros m Hwf Hx Hy.
  - exists m. simpl. repeat split; ring.
  - destruct (updateMonster_result canvas m Hwf) as (ts' & Hs & E).
    cbn [updateMonsterTimes]. rewrite E.
    rewrite (targetError_pointer canvas m Hx Hy). cbn [fst snd].
    match goal with |- context [updateMonsterTimes n _ ?m1] =>
      destruct (IH m1) as (mn & En & Hmx & Hmy & Hcx & Hcy) end.
    + cbn [Monster.tentacles].
      eapply Forall2_sameShape_wellFormed; eassumption.
    + exact Hx.
    + exact Hy.
    + exists mn. split; [exact En|].
      cbn [Monster.mouseX Monster.mouseY Monster.coreX Monster.coreY]
        in Hmx, Hmy, Hcx, Hcy.
      split; [exact Hmx|]. split; [exact Hmy|].
      rewrite Hcx, Hcy. simpl pow. split; field.
Qed.

(** X5.  With the pointer held still at a position whose coordinates are
    both nonzero, each tick shrinks the core's offset from the pointer by
    the factor 9/10 in each coordinate: after [n] ticks it is [(9/10)^n]
    times the initial offset, so the core closes in on the pointer without
    ever overshooting or moving away. *)
Theorem X5_core_closes_in_on_pointer (canvas : Canvas.t) (m : Monster.t)
    (n : nat) :
  Forall wellFormed (Monster.tentacles m) ->
  Monster.mouseX m <> 0 -> Monster.mouseY m <> 0 ->
  exists mn,
    updateMonsterTimes n (Some canvas) m = Some mn /\
    Monster.coreX mn - Monster.mouseX m =
      (9 / 10) ^ n * (Monster.coreX m - Monster.mouseX m) /\
    Monster.coreY mn - Monster.mouseY m =
      (9 / 10) ^ n * (Monster.coreY m - Monster.mouseY m) /\
    Rabs (Monster.coreX mn - Monster.mouseX m)
      <= Rabs (Monster.coreX m - Monster.mouseX m) /\
    Rabs (Monster.coreY mn - Monster.mouseY m)
      <= Rabs (Monster.coreY m - Monster.mouseY m).
Proof.
  intros Hwf Hx Hy.
  destruct (updateMonsterTimes_pointer canvas n m Hwf Hx Hy)
    as (mn & E & _ & _ & Hcx & Hcy).
  exists mn. split; [exact E|]. split; [exact Hcx|]. split; [exact Hcy|].
  pose proof (pow_9_10 n) as Hp.
  rewrite Hcx, Hcy, !Rabs_mult, (Rabs_right ((9 / 10) ^ n)) by lra.
  pose proof (Rabs_pos (Monster.coreX m - Monster.mouseX m)).
  pose proof (Rabs_pos (Monster.coreY m - Monster.mouseY m)).
  split; nra.
Qed.

(** X5 on the mounted monster after a pointer event at (500, 200), three
    ticks later. *)
Lemma X5_core_closes_in_on_pointer_witness :
  exists mn,
    updateMonsterTimes 3 (Some (Canvas.mk 800 600))
      (Game.monster pointerGame) = Some mn /\
    Monster.coreX mn - 500 = (9 / 10) ^ 3 * (400 - 500).
Proof.
  destruct (X5_core_closes_in_on_pointer (Canvas.mk 800 600)
              (Game.monster pointerGame) 3)
    as (mn & E & Hx & _).
  - constructor.
  - simpl. lra.
  - simpl. lra.
  - exists mn. split; [exact E | exact Hx].
Defined.

(** ** The autopilot curve *)

Lemma lemniscate_algebra (a s c r : R) :
  c * c = 1 - s * s -> r * r = 2 ->
  let D := s * s + 1 in
  let dx := a * r * c / D in
  let dy := a * r * c * s / D in
  (dx * dx + dy * dy) * (dx * dx + dy * dy)
  = 2 * (a * a) * (dx * dx - dy * dy).
Proof.
  intros Hc Hr D dx dy.
  assert (HD : D <> 0) by (unfold D; nra).
  assert (Ex : dx * dx = a * a * 2 * (1 - s * s) / (D * D)).
  { rewrite <- Hc, <- Hr. unfold dx. field. exact HD. }
  assert (Ey : dy * dy = a * a * 2 * (1 - s * s) * (s * s) / (D * D)).
  { rewrite <- Hc, <- Hr. unfold dy. field. exact HD. }
  rewrite Ex, Ey. unfold D. field. nra.
Qed.

(** X6.  The autopilot target describes a lemniscate of Bernoulli centred
    on the canvas: with [a = height / 4 - 10], its offset [(dx, dy)] from
    the centre satisfies [(dx^2 + dy^2)^2 = 2 a^2 (dx^2 - dy^2)].  It
    returns to the same point when the clock advances by [2 PI], and stays
    within [|a| sqrt 2] of the centre horizontally and half of that
    vertically. *)
Theorem X6_autopilot_is_a_lemniscate (canvas : Canvas.t) (t : R) :
  let a := Canvas.height canvas / 2 / 2 - 10 in
  let dx := autoX canvas t - Canvas.width canvas / 2 in
  let dy := autoY canvas t - Canvas.height canvas / 2 in
  autoX canvas (t + 2 * PI) = autoX canvas t /\
  autoY canvas (t + 2 * PI) = autoY canvas t /\
  (dx * dx + dy * dy) * (dx * dx + dy * dy)
    = 2 * (a * a) * (dx * dx - dy * dy) /\
  Rabs dx <= Rabs a * sqrt 2 /\
  Rabs dy <= Rabs a * sqrt 2 / 2.
Proof.
  intros a dx dy.
  assert (Hcp : cos (t + 2 * PI) = cos t).
  { rewrite cos_plus, cos_2PI, sin_2PI. ring. }
  assert (Hsp : sin (t + 2 * PI) = sin t).
  { rewrite sin_plus, cos_2PI, sin_2PI. ring. }
  split; [unfold autoX; now rewrite Hcp, Hsp|].
  split; [unfold autoY; now rewrite Hcp, Hsp|].
  pose proof (sin2_cos2 t) as Hsc. unfold Rsqr in Hsc.
  assert (Hr : sqrt 2 * sqrt 2 = 2) by (apply sqrt_sqrt; lra).
  assert (Hr0 : 0 <= sqrt 2) by apply sqrt_pos.
  set (s := sin t) in *. set (c := cos t) in *.
  assert (HD : s * s + 1 <> 0) by nra.
  assert (Edx : dx = a * sqrt 2 * c / (s * s + 1)).
  { unfold dx, autoX, a. fold c s. field. exact HD. }
  assert (Edy : dy = a * sqrt 2 * c * s / (s * s + 1)).
  { unfold dy, autoY, a. fold c s. field. exact HD. }
  split.
  { rewrite Edx, Edy. apply lemniscate_algebra; [lra | exact Hr]. }
  set (qx := c / (s * s + 1)).
  set (qy := c * s / (s * s + 1)).
  assert (Hqx : qx * (s * s + 1) = c) by (unfold qx; field; exact HD).
  assert (Hqy : qy * (s * s + 1) = c * s) by (unfold qy; field; exact HD).
  assert (Hss : 0 <= s * s) by nra.
  assert (Hc1 : -1 <= c <= 1) by nra.
  assert (Hcs : -1 / 2 <= c * s <= 1 / 2).
  { pose proof (Rle_0_sqr (c - s)) as H1. pose proof (Rle_0_sqr (c + s)) as H2.
    unfold Rsqr in H1, H2. nra. }
  assert (Bx : Rabs qx <= 1).
  { apply Rabs_le. split.
    - destruct (Rle_or_lt (-1) qx) as [H | H]; [exact H | exfalso; nra].
    - destruct (Rle_or_lt qx 1) as [H | H]; [exact H | exfalso; nra]. }
  assert (By : Rabs qy <= 1 / 2).
  { apply Rabs_le. split.
    - destruct (Rle_or_lt (- (1 / 2)) qy) as [H | H]; [exact H | exfalso; nra].
    - destruct (Rle_or_lt qy (1 / 2)) as [H | H]; [exact H | exfalso; nra]. }
  pose proof (Rabs_pos a) as Ha.
  assert (Hk : 0 <= Rabs a * sqrt 2) by (apply Rmult_le_pos; assumption).
  split.
  - replace dx with (a * sqrt 2 * qx) by (rewrite Edx; unfold qx; field; exact HD).
    rewrite !Rabs_mult, (Rabs_right (sqrt 2)) by lra.
    rewrite <- (Rmult_1_r (Rabs a * sqrt 2)) at 2.
    apply Rmult_le_compat_l; [exact Hk | exact Bx].
  - replace dy with (a * sqrt 2 * qy) by (rewrite Edy; unfold qy; field; exact HD).
    rewrite !Rabs_mult, (Rabs_right (sqrt 2)) by lra.
    replace (Rabs a * sqrt 2 / 2) with (Rabs a * sqrt 2 * (1 / 2)) by field.
    apply Rmult_le_compat_l; [exact Hk | exact By].
Qed.

(** ** The countdown *)

Lemma tickSeconds_ended (n : nat) :
  forall g, Game.gameState g = ended -> tickSeconds n g = g.
Proof.
  induction n as [|n IH]; intros g Hg; [reflexivity|].
  cbn [tickSeconds]. unfold tickSecond at 1. rewrite Hg. now apply IH.
Qed.

Lemma tickSecond_last (g : Game.t) :
  Game.gameState g = playing -> Game.timeLeft g = 1%Z ->
  tickSecond g =
  Game.mk (Game.canvasRef g) ended (Game.score g) 0 (Game.monster g)
          (Game.orbs g) (Game.particles g) (Game.timeouts g).
Proof. intros Hg Ht. unfold tickSecond. rewrite Hg, Ht. reflexivity. Qed.

Lemma tickSecond_more (g : Game.t) :
  Game.gameState g = playing -> (1 < Game.timeLeft g)%Z ->
  tickSecond g =
  Game.mk (Game.canvasRef g) playing (Game.score g) (Game.timeLeft g - 1)
          (Game.monster g) (Game.orbs g) (Game.particles g)
          (Game.timeouts g).
Proof.
  intros Hg Ht. unfold tickSecond. rewrite Hg.
  replace (0 <? Game.timeLeft g)%Z with true by (symmetry; apply Z.ltb_lt; lia).
  replace (Game.timeLeft g <=? 1)%Z with false
    by (symmetry; apply Z.leb_gt; lia).
  reflexivity.
Qed.

(** X7.  A playing session with [t + 1] seconds left is still playing,
    with [t + 1 - k] seconds left, after [k <= t] ticks of the countdown;
    the tick after those ends it with 0 seconds left, and further ticks
    change nothing.  The countdown touches nothing but [gameState] and
    [timeLeft]. *)
Theorem X7_countdown_runs_out (t : nat) :
  forall g,
    Game.gameState g = playing ->
    Game.timeLeft g = Z.of_nat (S t) ->
    (forall k, (k <= t)%nat ->
       Game.gameState (tickSeconds k g) = playing /\
       Game.timeLeft (tickSeconds k g) = (Z.of_nat (S t) - Z.of_nat k)%Z) /\
    (forall j,
       Game.gameState (tickSeconds (S t + j) g) = ended /\
       Game.timeLeft (tickSeconds (S t + j) g) = 0%Z) /\
    (forall n,
       Game.score (tickSeconds n g) = Game.score g /\
       Game.monster (tickSeconds n g) = Game.monster g /\
       Game.orbs (tickSeconds n g) = Game.orbs g /\
       Game.particles (tickSeconds n g) = Game.particles g /\
       Game.timeouts (tickSeconds n g) = Game.timeouts g).
Proof.
  induction t as [|t IH]; intros g Hg Ht.
  - split; [|split].
    + intros k Hk. replace k with 0%nat by lia. simpl. split; [exact Hg | lia].
    + intros j. cbn [Nat.add tickSeconds].
      rewrite (tickSecond_last g Hg Ht).
      rewrite tickSeconds_ended by reflexivity. split; reflexivity.
    + intros [|n]; [repeat split|]. cbn [tickSeconds].
      rewrite (tickSecond_last g Hg Ht).
      rewrite tickSeconds_ended by reflexivity. repeat split.
  - assert (Hmore : (1 < Game.timeLeft g)%Z) by lia.
    pose proof (tickSecond_more g Hg Hmore) as E1.
    destruct (IH (tickSecond g)) as (Hk & Hj & Hn).
    { rewrite E1. reflexivity. }
    { rewrite E1. cbn [Game.timeLeft]. lia. }
    split; [|split].
    + intros [|k] Hle; [simpl; split; [exact Hg | lia]|].
      cbn [tickSeconds]. destruct (Hk k) as (H1 & H2); [lia|].
      split; [exact H1 | lia].
    + intros j. cbn [Nat.add tickSeconds]. apply (Hj j).
    + intros [|n]; [repeat split|]. cbn [tickSeconds].
      destruct (Hn n) as (H1 & H2 & H3 & H4 & H5).
      rewrite H1, H2, H3, H4, H5, E1. repeat split.
Qed.

(** X7 on the freshly mounted session: ended after 60 ticks. *)
Lemma X7_countdown_runs_out_witness :
  Game.gameState (tickSeconds 60 (Game.mounted (Canvas.mk 800 600))) = ended /\
  Game.timeLeft (tickSeconds 60 (Game.mounted (Canvas.mk 800 600))) = 0%Z.
Proof.
  destruct (X7_countdown_runs_out 59 (Game.mounted (Canvas.mk 800 600))
              eq_refl eq_refl) as (_ & H & _).
  apply (H 0%nat).
Defined.

(** ** Score, particles and respawns over a whole session *)

Lemma gameLoop_ended (g : Game.t) (rnd : Rand.stream) (k : nat) :
  Game.gameState g = ended -> gameLoop g rnd k = Some (g, k).
Proof.
  intros Hg. unfold gameLoop. rewrite Hg.
  destruct (Game.canvasRef g); reflexivity.
Qed.

Lemma gameLoop_playing (canvas : Canvas.t) (g : Game.t) (rnd : Rand.stream)
    (k : nat) :
  Game.canvasRef g = Some canvas ->
  Game.gameState g = playing ->
  Forall wellFormed (Monster.tentacles (Game.monster g)) ->
  exists m',
    updateMonster (Some canvas) (Game.monster g) = Some m' /\
    Forall wellFormed (Monster.tentacles m') /\
    gameLoop g rnd k =
    checkCollisions
      (Game.mk (Some canvas) playing (Game.score g) (Game.timeLeft g) m'
               (Game.orbs g) (updateParticles (Game.particles g))
               (Game.timeouts g)) rnd k.
Proof.
  intros Hc Hg Hwf.
  destruct (updateMonster_result canvas (Game.monster g) Hwf)
    as (ts' & Hs & E).
  eexists. split; [exact E|]. split.
  { cbn [Monster.tentacles].
    eapply Forall2_sameShape_wellFormed; eassumption. }
  unfold gameLoop. rewrite Hc, Hg. unfold Rand.bind, Rand.lift.
  rewrite E. unfold Game.with_particles, Game.with_monster.
  cbn [Game.canvasRef Game.gameState Game.score Game.timeLeft Game.orbs
       Game.particles Game.timeouts Game.monster].
  rewrite Hc, Hg. reflexivity.
Qed.

Lemma bursts_life (m : Monster.t) (rnd : Rand.stream)
    (os : list (option Orb.t)) :
  forall k, Forall (fun p => Particle.life p = 1) (bursts m os rnd k).
Proof.
  induction os as [|o os IH]; intros k; cbn [bursts]; [constructor|].
  destruct o as [orb|]; [|apply IH].
  destruct (hit m (Some orb)); [|apply IH].
  apply Forall_app. split; [|apply IH].
  eapply Forall_impl; [|apply burst_at]. simpl. tauto.
Qed.

Lemma bursts_length (m : Monster.t) (rnd : Rand.stream)
    (os : list (option Orb.t)) :
  forall k, (List.length (bursts m os rnd k) <= 15 * List.length os)%nat.
Proof.
  induction os as [|o os IH]; intros k; cbn [bursts List.length]; [lia|].
  destruct o as [orb|]; [|specialize (IH k); lia].
  destruct (hit m (Some orb)); [|specialize (IH k); lia].
  rewrite length_app, burst_length. specialize (IH (60 + k)%nat). lia.
Qed.

Lemma set_nth_other {A : Type} (v : A) (l : list A) :
  forall i j, i <> j -> nth_error (Js.set_nth i v l) j = nth_error l j.
Proof.
  induction l as [|a l IH]; intros [|i] [|j] H; simpl; try reflexivity;
    try congruence.
  apply IH. congruence.
Qed.

Lemma removeTimeout_In (index i : nat) (l : list nat) :
  In i l -> i <> index -> In i (removeTimeout index l).
Proof.
  induction l as [|a l IH]; intros Hin Hne; [destruct Hin|].
  simpl. destruct (a =? index)%nat eqn:E.
  - apply Nat.eqb_eq in E. destruct Hin as [-> | Hin]; [congruence | exact Hin].
  - destruct Hin as [-> | Hin]; [now left | right; now apply IH].
Qed.

Lemma fireTimeout_closed (canvas : Canvas.t) (g : Game.t) (index : nat)
    (rnd : Rand.stream) (k : nat) :
  Game.canvasRef g = Some canvas ->
  In index (Game.timeouts g) ->
  (index < List.length (Game.orbs g))%nat ->
  exists o,
    Orb.collected o = false /\
    fireTimeout index g rnd k =
    Some (Game.mk (Game.canvasRef g) (Game.gameState g) (Game.score g)
            (Game.timeLeft g) (Game.monster g)
            (Js.set_nth index (Some o) (Game.orbs g)) (Game.particles g)
            (removeTimeout index (Game.timeouts g)),
          (4 + k)%nat).
Proof.
  intros Hc Hin Hlt. unfold fireTimeout.
  assert (Ex : existsb (Nat.eqb index) (Game.timeouts g) = true).
  { apply existsb_exists. exists index. split; [exact Hin|].
    apply Nat.eqb_refl. }
  rewrite Ex. unfold Rand.bind, regenerateOrb. rewrite Hc. unfold Rand.bind.
  destruct (newOrb_result canvas rnd k) as (o & E & Ho). rewrite E.
  unfold Rand.ret. rewrite (assign_in_range index o _ Hlt).
  exists o. split; [exact Ho | reflexivity].
Qed.

Lemma fireTimeout_idle (g : Game.t) (index : nat) (rnd : Rand.stream)
    (k : nat) :
  ~ In index (Game.timeouts g) -> fireTimeout index g rnd k = Some (g, k).
Proof.
  intros Hn. unfold fireTimeout.
  destruct (existsb (Nat.eqb index) (Game.timeouts g)) eqn:Ex; [|reflexivity].
  apply existsb_exists in Ex as (i & Hin & Heq).
  apply Nat.eqb_eq in Heq. subst i. contradiction.
Qed.

Lemma startGame_closed (canvas : Canvas.t) (innerWidth : R) (g : Game.t)
    (rnd : Rand.stream) (k : nat) :
  Game.canvasRef g = Some canvas ->
  exists ts o1 o2 o3 k',
    Orb.collected o1 = false /\ Orb.collected o2 = false /\
    Orb.collected o3 = false /\
    Forall wellFormed ts /\
    startGame innerWidth g rnd k =
    Some (Game.mk (Some canvas) playing 0 60
            (with_mouse (Canvas.width canvas / 2) (Canvas.height canvas / 2)
               (with_core (Canvas.width canvas / 2) (Canvas.height canvas / 2)
                  (with_tentacles ts (Game.monster g))))
            [Some o1; Some o2; Some o3] [] (Game.timeouts g), k').
Proof.
  intros Hc. unfold startGame, Rand.bind. rewrite Hc.
  destruct (initializeTentacles_result canvas innerWidth
              (Monster.tentacles (Game.monster g)) rnd k)
    as (ts & k1 & E1 & _ & Hall).
  rewrite E1.
  destruct (generateOrbs_result canvas (Game.orbs g) rnd k1)
    as (o1 & o2 & o3 & E2 & H1 & H2 & H3).
  rewrite E2. unfold Rand.ret.
  exists ts, o1, o2, o3, (12 + k1)%nat.
  repeat (split; [assumption|]). split; [|reflexivity].
  eapply Forall_impl; [|exact Hall]. simpl. tauto.
Qed.

(** One event from a state of the extended invariant. *)
Lemma step_PlayInv (e : Event) (g g' : Game.t) (rnd : Rand.stream)
    (k k' : nat) :
  PlayInv g ->
  step e g rnd k = Some (g', k') ->
  PlayInv g' /\
  ((forall iw, e <> StartGame iw) ->
   (Game.score g <= Game.score g')%Z /\
   (Game.gameState g = ended ->
    Game.gameState g' = ended /\ Game.score g' = Game.score g /\
    Game.timeLeft g' = Game.timeLeft g /\
    Game.particles g' = Game.particles g)).
Proof.
  intros (HI & Hlife & Hcount & Hpend) E.
  assert (HI' : Inv g').
  { destruct (step_Inv e g rnd k HI) as (g1 & k1 & E1 & H1 & _).
    rewrite E1 in E. injection E as <- <-. exact H1. }
  assert (Hcanvas : exists canvas, Game.canvasRef g = Some canvas).
  { destruct HI as (Hc & _). destruct (Game.canvasRef g) as [canvas|];
      [now exists canvas | congruence]. }
  destruct Hcanvas as (canvas & Ec).
  assert (Hkeep : forall g1,
            Game.particles g1 = Game.particles g ->
            Game.orbs g1 = Game.orbs g ->
            Game.timeouts g1 = Game.timeouts g ->
            Forall (fun p => Particle.life p = 1) (Game.particles g1) /\
            (List.length (Game.particles g1) <= 45)%nat /\
            respawnsPending g1).
  { intros g1 Hp Ho Ht. unfold respawnsPending. rewrite Hp, Ho, Ht.
    repeat split; assumption. }
  destruct e; cbn [step] in E; unfold Rand.ret in E.
  - (* Frame *)
    destruct (Game.gameState g) eqn:Eg.
    2:{ rewrite (gameLoop_ended g rnd k Eg) in E. injection E as <- <-.
        split; [exact (conj HI' (conj Hlife (conj Hcount Hpend)))|].
        intros _. split; [lia|].
        intros _. repeat split. exact Eg. }
    destruct HI as (_ & Hwf & Hno & Hto & H3).
    destruct (gameLoop_playing canvas g rnd k Ec Eg Hwf)
      as (m' & _ & _ & El).
    rewrite El in E. clear El.
    set (g2 := Game.mk _ _ _ _ m' _ _ _) in E.
    assert (Hup : updateParticles (Game.particles g) = [])
      by (apply updateParticles_life_one; exact Hlife).
    destruct (boundaryHit canvas m') eqn:Hb.
    + rewrite (checkCollisions_border canvas g2 rnd k eq_refl Hb) in E.
      injection E as <- <-. split.
      * split; [exact HI'|]. cbn. rewrite Hup.
        split; [constructor|]. split; [simpl; lia | exact Hpend].
      * intros _. cbn. split; [lia | discriminate].
    + rewrite (checkCollisions_inside canvas g2 rnd k eq_refl Hb) in E.
      cbv zeta in E. set (m1 := with_nearBoundary _ _) in E.
      injection E as <- <-. split.
      * split; [exact HI'|].
        cbn [Game.particles Game.orbs Game.timeouts g2 respawnsPending].
        rewrite Hup. cbn [app].
        split; [apply bursts_life|]. split.
        { pose proof (bursts_length m1 rnd (Game.orbs g) k) as Hbl.
          destruct H3 as [H3 | H3];
            [rewrite H3; simpl; lia | rewrite H3 in Hbl; lia]. }
        unfold respawnsPending.
        cbn [Game.particles Game.orbs Game.timeouts g2].
        intros i orb' Hn Hcol. rewrite nth_error_map in Hn.
        destruct (nth_error (Game.orbs g) i) as [o|] eqn:Eo; [|discriminate].
        cbn [option_map] in Hn. injection Hn as Hmark.
        destruct o as [orb|]; [|discriminate]. cbn [mark] in Hmark.
        apply in_or_app.
        destruct (hit m1 (Some orb)) eqn:Hh.
        -- right. apply (hitIndices_In m1 (Game.orbs g) 0 i _ Eo Hh).
        -- left. injection Hmark as <-. apply (Hpend i orb Eo Hcol).
      * intros _. cbn [Game.score g2]. split; [lia | discriminate].
  - (* Second *)
    injection E as <- <-.
    assert (H : Game.particles (tickSecond g) = Game.particles g /\
                Game.orbs (tickSecond g) = Game.orbs g /\
                Game.timeouts (tickSecond g) = Game.timeouts g /\
                Game.score (tickSecond g) = Game.score g).
    { unfold tickSecond. destruct (Game.gameState g); [|auto].
      destruct (0 <? Game.timeLeft g)%Z; [|auto].
      destruct (Game.timeLeft g <=? 1)%Z; auto. }
    destruct H as (H1 & H2 & H3 & H4).
    split; [split; [exact HI' | now apply Hkeep]|].
    intros _. split; [lia|]. intros Eg.
    unfold tickSecond. rewrite Eg. repeat split. exact Eg.
  - injection E as <- <-. unfold handlePointer. rewrite Ec.
    split; [split; [unfold handlePointer in HI'; rewrite Ec in HI'; exact HI'
                   | now apply Hkeep]|].
    intros _. cbn. split; [lia | intros Eg; repeat split; exact Eg].
  - injection E as <- <-.
    split; [split; [exact HI' | now apply Hkeep]|].
    intros _. cbn. split; [lia | intros Eg; repeat split; exact Eg].
  - injection E as <- <-. unfold handlePointer. rewrite Ec.
    split; [split; [unfold handlePointer in HI'; rewrite Ec in HI'; exact HI'
                   | now apply Hkeep]|].
    intros _. cbn. split; [lia | intros Eg; repeat split; exact Eg].
  - injection E as <- <-. unfold handlePointer. rewrite Ec.
    split; [split; [unfold handlePointer in HI'; rewrite Ec in HI'; exact HI'
                   | now apply Hkeep]|].
    intros _. cbn. split; [lia | intros Eg; repeat split; exact Eg].
  - injection E as <- <-.
    split; [split; [exact HI' | now apply Hkeep]|].
    intros _. split; [lia | intros Eg; repeat split; exact Eg].
  - (* Timeout *)
    destruct (in_dec Nat.eq_dec index (Game.timeouts g)) as [Hin | Hn].
    + destruct HI as (_ & _ & _ & Hto & _).
      assert (Hlt : (index < List.length (Game.orbs g))%nat)
        by (rewrite Forall_forall in Hto; now apply Hto).
      destruct (fireTimeout_closed canvas g index rnd k Ec Hin Hlt)
        as (o & Ho & Ef).
      rewrite Ef in E. injection E as <- <-. split.
      * split; [exact HI'|]. cbn [Game.particles].
        split; [exact Hlife|]. split; [exact Hcount|].
        unfold respawnsPending. cbn [Game.orbs Game.timeouts].
        intros i orb Hn Hcol.
        destruct (Nat.eq_dec index i) as [<- | Hne].
        -- rewrite (set_nth_same (Some o) _ index Hlt) in Hn.
           injection Hn as <-. congruence.
        -- rewrite (set_nth_other (Some o) _ index i Hne) in Hn.
           apply removeTimeout_In; [apply (Hpend i orb Hn Hcol) | congruence].
      * intros _. cbn. split; [lia | intros Eg; repeat split; exact Eg].
    + rewrite (fireTimeout_idle g index rnd k Hn) in E.
      injection E as <- <-.
      split; [split; [exact HI' | now apply Hkeep]|].
      intros _. split; [lia | intros Eg; repeat split; exact Eg].
  - (* StartGame *)
    destruct (startGame_closed canvas innerWidth g rnd k Ec)
      as (ts & o1 & o2 & o3 & k1 & H1 & H2 & H3 & _ & Es).
    rewrite Es in E. injection E as <- <-. split.
    + split; [exact HI'|]. cbn [Game.particles].
      split; [constructor|]. split; [simpl; lia|].
      unfold respawnsPending. cbn [Game.orbs Game.timeouts].
      intros [|[|[|i]]] orb Hn Hcol; simpl in Hn;
        try (destruct i; discriminate);
        injection Hn as <-; congruence.
    + intros H. exfalso. now apply (H innerWidth).
  - injection E as <- <-. unfold resizeCanvas. rewrite Ec.
    split; [split; [unfold resizeCanvas in HI'; rewrite Ec in HI'; exact HI'
                   | now apply Hkeep]|].
    intros _. cbn. split; [lia | intros Eg; repeat split; exact Eg].
Qed.

Lemma PlayInv_mounted (canvas : Canvas.t) : PlayInv (Game.mounted canvas).
Proof.
  split; [apply Inv_mounted|]. simpl.
  split; [constructor|]. split; [lia|].
  intros [|i] orb H; discriminate H.
Qed.

Lemma run_PlayInv (es : list Event) :
  forall g g' rnd k k',
    PlayInv g ->
    run es g rnd k = Some (g', k') ->
    PlayInv g' /\
    (noRestart es ->
     (Game.score g <= Game.score g')%Z /\
     (Game.gameState g = ended ->
      Game.gameState g' = ended /\ Game.score g' = Game.score g /\
      Game.timeLeft g' = Game.timeLeft g /\
      Game.particles g' = Game.particles g)).
Proof.
  induction es as [|e es IH]; intros g g' rnd k k' HP E.
  - injection E as <- <-. split; [exact HP|]. intros _.
    split; [lia | intros Eg; repeat split; exact Eg].
  - cbn [run] in E. unfold Rand.bind in E.
    destruct (step e g rnd k) as [[g1 k1]|] eqn:E1; [|discriminate].
    destruct (step_PlayInv e g g1 rnd k k1 HP E1) as (HP1 & Hs1).
    destruct (IH g1 g' rnd k1 k' HP1 E) as (HP' & Hs).
    split; [exact HP'|]. intros Hnr. inversion Hnr as [|? ? He Hes]; subst.
    destruct (Hs1 He) as (Hle1 & Hend1). destruct (Hs Hes) as (Hle & Hend).
    split; [lia|]. intros Eg.
    destruct (Hend1 Eg) as (Eg1 & Hsc1 & Htl1 & Hp1).
    destruct (Hend Eg1) as (Eg' & Hsc & Htl & Hp).
    repeat split; congruence.
Qed.

(** X8.  From any state of the session invariant and for any events that
    include no [startGame]: nothing throws, the score never goes down, and
    once the session has ended the score, the time left, the particles and
    the ended state itself stay as they are. *)
Theorem X8_score_is_monotone_and_final (es : list Event) (g : Game.t)
    (rnd : Rand.stream) (k : nat) :
  PlayInv g -> noRestart es ->
  exists g' k',
    run es g rnd k = Some (g', k') /\
    (Game.score g <= Game.score g')%Z /\
    (Game.gameState g = ended ->
     Game.gameState g' = ended /\ Game.score g' = Game.score g /\
     Game.timeLeft g' = Game.timeLeft g /\
     Game.particles g' = Game.particles g).
Proof.
  intros HP Hnr.
  destruct (run_Inv es g rnd k (proj1 HP)) as (g' & k' & E & _).
  exists g', k'. split; [exact E|].
  destruct (run_PlayInv es g g' rnd k k' HP E) as (_ & H). exact (H Hnr).
Qed.

(** X8 on a session ended at the left border, followed by a frame, a
    countdown tick and a pointer event. *)
Lemma X8_score_is_monotone_and_final_witness :
  exists g' k',
    run [Frame; Second; MouseMove 100 100]
        (Game.with_gameState ended nearLeftEdgeGame) (fun _ => 0) 0%nat
      = Some (g', k') /\
    Game.gameState g' = ended /\ Game.score g' = 0%Z.
Proof.
  destruct (X8_score_is_monotone_and_final [Frame; Second; MouseMove 100 100]
              (Game.with_gameState ended nearLeftEdgeGame) (fun _ => 0) 0%nat)
    as (g' & k' & E & _ & H).
  - split; [|split; [constructor | split; [simpl; lia|]]].
    + split; [discriminate|]. split; [constructor|]. split; [constructor|].
      split; [constructor | left; reflexivity].
    + intros [|i] orb Hn; discriminate Hn.
  - repeat constructor; discriminate.
  - exists g', k'. split; [exact E|].
    destruct (H eq_refl) as (H1 & H2 & _). split; [exact H1 | exact H2].
Defined.

(** X9.  In every state reached from the mount, whatever the events and
    the random numbers, every particle in the list has [life = 1] and the
    list holds at most 45 particles (three bursts of 15): what a frame
    leaves in the list is only what that frame spawned. *)
Theorem X9_particles_are_one_frame_old (canvas : Canvas.t) (es : list Event)
    (rnd : Rand.stream) (k : nat) :
  exists g' k',
    run es (Game.mounted canvas) rnd k = Some (g', k') /\
    Forall (fun p => Particle.life p = 1) (Game.particles g') /\
    (List.length (Game.particles g') <= 45)%nat /\
    updateParticles (Game.particles g') = [].
Proof.
  destruct (run_Inv es (Game.mounted canvas) rnd k (Inv_mounted canvas))
    as (g' & k' & E & _).
  exists g', k'. split; [exact E|].
  destruct (run_PlayInv es _ g' rnd k k' (PlayInv_mounted canvas) E)
    as ((_ & Hl & Hc & _) & _).
  split; [exact Hl|]. split; [exact Hc|].
  apply updateParticles_life_one. exact Hl.
Qed.

(** X10.  In every state reached from the mount, an orb that is marked
    collected has a respawn pending for its index: no orb stays hidden for
    good. *)
Theorem X10_collected_orbs_await_respawn (canvas : Canvas.t)
    (es : list Event) (rnd : Rand.stream) (k : nat) :
  exists g' k',
    run es (Game.mounted canvas) rnd k = Some (g', k') /\
    forall i orb,
      nth_error (Game.orbs g') i = Some (Some orb) ->
      Orb.collected orb = true ->
      In i (Game.timeouts g') /\ (i < 3)%nat.
Proof.
  destruct (run_Inv es (Game.mounted canvas) rnd k (Inv_mounted canvas))
    as (g' & k' & E & _).
  exists g', k'. split; [exact E|].
  destruct (run_PlayInv es _ g' rnd k k' (PlayInv_mounted canvas) E)
    as (((_ & _ & _ & Hto & H3) & _ & _ & Hp) & _).
  intros i orb Hn Hcol. pose proof (Hp i orb Hn Hcol) as Hin.
  split; [exact Hin|].
  rewrite Forall_forall in Hto. pose proof (Hto i Hin) as Hlt.
  destruct H3 as [H3 | H3]; rewrite H3 in Hlt; simpl in Hlt; lia.
Qed.

(** ** Where orbs are placed *)

Lemma newOrb_inside (canvas : Canvas.t) (rnd : Rand.stream) (k : nat) :
  Rand.fair rnd ->
  132 <= Canvas.width canvas -> 132 <= Canvas.height canvas ->
  exists o,
    newOrb canvas rnd k = Some (o, (4 + k)%nat) /\
    66 <= Orb.x o <= Canvas.width canvas - 66 /\
    66 <= Orb.y o <= Canvas.height canvas - 66 /\
    8 <= Orb.radius o < 12 /\
    Orb.collected o = false.
Proof.
  intros Hf Hw Hh. eexists. split; [reflexivity|].
  cbn [Orb.x Orb.y Orb.radius Orb.collected].
  pose proof (Hf k). pose proof (Hf (S k)). pose proof (Hf (S (S k))).
  repeat split; nra.
Qed.

Lemma sqrt_ge_45 (dx dy : R) :
  45 * 45 <= dx ^ 2 + dy ^ 2 -> 45 <= sqrt (dx ^ 2 + dy ^ 2).
Proof.
  intros H. rewrite <- (sqrt_square 45) at 1 by lra.
  apply sqrt_le_1_alt. exact H.
Qed.

(** X11.  With [Math.random()] in [0, 1) and a canvas at least 132 pixels
    wide and high, the orb that [generateOrbs] and [regenerateOrb] place
    lies at least 66 pixels inside every edge with a radius in [8, 12), so a
    core of radius 15 that is in contact with the border of that canvas is
    at least 45 pixels from its centre and does not touch it: on the canvas
    an orb was placed for, ending the session at the border never skips a
    pickup of that orb. *)
Theorem X11_border_contact_excludes_pickup (canvas : Canvas.t)
    (rnd : Rand.stream) (k : nat) :
  Rand.fair rnd ->
  132 <= Canvas.width canvas -> 132 <= Canvas.height canvas ->
  exists o,
    newOrb canvas rnd k = Some (o, (4 + k)%nat) /\
    66 <= Orb.x o <= Canvas.width canvas - 66 /\
    66 <= Orb.y o <= Canvas.height canvas - 66 /\
    8 <= Orb.radius o < 12 /\
    forall m,
      Monster.coreRadius m = 15 ->
      boundaryHit canvas m = true ->
      touches m o = false.
Proof.
  intros Hf Hw Hh.
  destruct (newOrb_inside canvas rnd k Hf Hw Hh)
    as (o & E & Hx & Hy & Hr & _).
  exists o. split; [exact E|]. split; [exact Hx|]. split; [exact Hy|].
  split; [exact Hr|].
  intros m Hcr Hb. apply boundaryHit_true in Hb. rewrite Hcr in Hb.
  apply touches_false. rewrite Hcr.
  apply Rle_trans with 45; [lra|]. apply sqrt_ge_45.
  pose proof (pow2_ge_0 (Monster.coreX m - Orb.x o)) as Px.
  pose proof (pow2_ge_0 (Monster.coreY m - Orb.y o)) as Py.
  destruct Hb as [H | [H | [H | H]]]; nra.
Qed.

(** X11 on an 800 x 600 canvas with the stream that always returns 0. *)
Lemma X11_border_contact_excludes_pickup_witness :
  exists o,
    newOrb (Canvas.mk 800 600) (fun _ => 0) 0%nat = Some (o, 4%nat) /\
    touches (Game.monster nearLeftEdgeGame) o = false.
Proof.
  destruct (X11_border_contact_excludes_pickup (Canvas.mk 800 600)
              (fun _ => 0) 0%nat) as (o & E & _ & _ & _ & H).
  - intros k. lra.
  - simpl. lra.
  - simpl. lra.
  - exists o. split; [exact E|]. apply H; [reflexivity|].
    apply boundaryHit_true. left. simpl. lra.
Defined.

(** ** The first frame of a game, and a resize *)

(** X12.  On a canvas more than 42 pixels wide and high, with the core
    radius at 15, [startGame] followed by a frame leaves the session
    playing with 60 seconds left and the core still at the centre of the
    canvas: the pointer is reset onto the core, so the first tick does not
    move it and a new game cannot end at once. *)
Theorem X12_new_game_survives_first_frame (canvas : Canvas.t)
    (innerWidth : R) (g : Game.t) (rnd : Rand.stream) (k : nat) :
  Game.canvasRef g = Some canvas ->
  Monster.coreRadius (Game.monster g) = 15 ->
  42 < Canvas.width canvas -> 42 < Canvas.height canvas ->
  exists g1 k1 g2 k2,
    startGame innerWidth g rnd k = Some (g1, k1) /\
    gameLoop g1 rnd k1 = Some (g2, k2) /\
    Game.gameState g2 = playing /\
    Game.timeLeft g2 = 60%Z /\
    Monster.coreX (Game.monster g2) = Canvas.width canvas / 2 /\
    Monster.coreY (Game.monster g2) = Canvas.height canvas / 2.
Proof.
  intros Hc Hcr Hw Hh.
  destruct (startGame_closed canvas innerWidth g rnd k Hc)
    as (ts & o1 & o2 & o3 & k1 & _ & _ & _ & Hwf & Es).
  eexists; exists k1. rewrite Es.
  set (g1 := Game.mk _ _ _ _ _ _ _ _).
  assert (Hwf1 : Forall wellFormed (Monster.tentacles (Game.monster g1)))
    by exact Hwf.
  destruct (gameLoop_playing canvas g1 rnd k1 eq_refl eq_refl Hwf1)
    as (m' & Em & _ & El).
  destruct (updateMonster_result canvas (Game.monster g1) Hwf1)
    as (ts' & _ & Em').
  rewrite Em' in Em. clear Em'.
  assert (Hte : targetError canvas (Game.monster g1) = (0, 0)).
  { rewrite targetError_pointer; unfold g1; simpl; try lra.
    f_equal; ring. }
  rewrite Hte in Em. cbn [fst snd] in Em. injection Em as <-.
  set (m' := Monster.mk _ _ _ ts' _ _ _ _ _ _ _) in El.
  assert (Hb : boundaryHit canvas m' = false).
  { apply boundaryHit_false. unfold withinOfEdge, m', g1. simpl.
    rewrite Hcr. lra. }
  match type of El with _ = checkCollisions ?gg _ _ =>
    rewrite (checkCollisions_inside canvas gg rnd k1 eq_refl Hb) in El end.
  eexists; eexists. split; [reflexivity|]. split; [exact El|].
  cbn. repeat split; field.
Qed.

(** X12 from the freshly mounted component on an 800 x 600 canvas. *)
Lemma X12_new_game_survives_first_frame_witness :
  exists g1 k1 g2 k2,
    startGame 1024 (Game.mounted (Canvas.mk 800 600)) (fun _ => 0) 0%nat
      = Some (g1, k1) /\
    gameLoop g1 (fun _ => 0) k1 = Some (g2, k2) /\
    Game.gameState g2 = playing.
Proof.
  destruct (X12_new_game_survives_first_frame (Canvas.mk 800 600) 1024
              (Game.mounted (Canvas.mk 800 600)) (fun _ => 0) 0%nat)
    as (g1 & k1 & g2 & k2 & E1 & E2 & Hg & _).
  - reflexivity.
  - reflexivity.
  - simpl. lra.
  - simpl. lra.
  - exists g1, k1, g2, k2. repeat split; assumption.
Defined.

(** X13.  [resizeCanvas], to a container more than 42 pixels wide and
    high and with the core radius at 15, sets the canvas to the container's
    size and leaves the core more than [coreRadius + borderWidth] = 21
    pixels from the right and bottom edges: a coordinate within 50 pixels
    of the new edge, or beyond it, is put at the centre, any other is
    kept.  Orbs, tentacles, particles, score and countdown are left as
    they are; in particular the orbs are not moved into the new canvas. *)
Theorem X13_resize_keeps_core_off_far_edges (w h : R) (canvas : Canvas.t)
    (g : Game.t) :
  Game.canvasRef g = Some canvas ->
  Monster.coreRadius (Game.monster g) = 15 ->
  42 < w -> 42 < h ->
  let g' := resizeCanvas w h g in
  let m := Game.monster g in
  let m' := Game.monster g' in
  Game.canvasRef g' = Some (Canvas.mk w h) /\
  Monster.coreRadius m' + 6 < w - Monster.coreX m' /\
  Monster.coreRadius m' + 6 < h - Monster.coreY m' /\
  (Monster.coreX m <= w - 50 -> Monster.coreX m' = Monster.coreX m) /\
  (w - 50 < Monster.coreX m -> Monster.coreX m' = w / 2) /\
  (Monster.coreY m <= h - 50 -> Monster.coreY m' = Monster.coreY m) /\
  (h - 50 < Monster.coreY m -> Monster.coreY m' = h / 2) /\
  Game.orbs g' = Game.orbs g /\
  Monster.tentacles m' = Monster.tentacles m /\
  Game.particles g' = Game.particles g /\
  Game.score g' = Game.score g /\
  Game.timeLeft g' = Game.timeLeft g /\
  Game.gameState g' = Game.gameState g.
Proof.
  intros Hc Hcr Hw Hh g' m m'. subst g' m' m. unfold resizeCanvas.
  rewrite Hc. cbn. unfold Js.gtb, Js.ltb.
  rewrite Hcr.
  destruct (Rlt_dec (w - 50) (Monster.coreX (Game.monster g))),
           (Rlt_dec (h - 50) (Monster.coreY (Game.monster g)));
    repeat split; intros; try reflexivity; lra.
Qed.

(** X13 on the state of the border example, resized to 300 x 300: the
    core at x = 379 is put at x = 150. *)
Lemma X13_resize_keeps_core_off_far_edges_witness :
  Monster.coreX (Game.monster (resizeCanvas 300 300 borderGame)) = 300 / 2.
Proof.
  destruct (X13_resize_keeps_core_off_far_edges 300 300 (Canvas.mk 400 600)
              borderGame) as (_ & _ & _ & _ & H & _).
  - reflexivity.
  - reflexivity.
  - lra.
  - lra.
  - apply H. simpl. lra.
Defined.

(** ** The path of a particle *)

(** X14.  After [n] decays a particle's velocity is [0.98^n] times its
    initial velocity and its position is the initial one plus
    [50 (1 - 0.98^n)] times the initial velocity; so however long it lived
    it would stay within 50 times its initial speed of where it was
    spawned, in each coordinate. *)
Theorem X14_particle_trajectory (n : nat) (p : Particle.t) :
  let q := Nat.iter n decay p in
  Particle.vx q = Particle.vx p * 0.98 ^ n /\
  Particle.vy q = Particle.vy p * 0.98 ^ n /\
  Particle.x q = Particle.x p + 50 * (1 - 0.98 ^ n) * Particle.vx p /\
  Particle.y q = Particle.y p + 50 * (1 - 0.98 ^ n) * Particle.vy p /\
  Rabs (Particle.x q - Particle.x p) <= 50 * Rabs (Particle.vx p) /\
  Rabs (Particle.y q - Particle.y p) <= 50 * Rabs (Particle.vy p).
Proof.
  cbv zeta.
  assert (H : Particle.vx (Nat.iter n decay p) = Particle.vx p * 0.98 ^ n /\
              Particle.vy (Nat.iter n decay p) = Particle.vy p * 0.98 ^ n /\
              Particle.x (Nat.iter n decay p)
                = Particle.x p + 50 * (1 - 0.98 ^ n) * Particle.vx p /\
              Particle.y (Nat.iter n decay p)
                = Particle.y p + 50 * (1 - 0.98 ^ n) * Particle.vy p).
  { induction n as [|n (IH1 & IH2 & IH3 & IH4)].
    - simpl. repeat split; ring.
    - cbn [Nat.iter nat_rect]. unfold decay at 1 3 5 7.
      cbn [Particle.vx Particle.vy Particle.x Particle.y].
      unfold Nat.iter in IH1, IH2, IH3, IH4.
      rewrite IH1, IH2, IH3, IH4. simpl pow. repeat split; lra. }
  destruct H as (H1 & H2 & H3 & H4).
  split; [exact H1|]. split; [exact H2|]. split; [exact H3|].
  split; [exact H4|].
  assert (Hq : 0 <= 1 - 0.98 ^ n <= 1).
  { assert (0 <= 0.98 ^ n <= 1); [|lra].
    clear. induction n as [|n IH]; simpl; [lra | nra]. }
  rewrite H3, H4.
  replace (Particle.x p + 50 * (1 - 0.98 ^ n) * Particle.vx p - Particle.x p)
    with (50 * (1 - 0.98 ^ n) * Particle.vx p) by ring.
  replace (Particle.y p + 50 * (1 - 0.98 ^ n) * Particle.vy p - Particle.y p)
    with (50 * (1 - 0.98 ^ n) * Particle.vy p) by ring.
  rewrite !Rabs_mult, (Rabs_right 50), (Rabs_right (1 - 0.98 ^ n)) by lra.
  pose proof (Rabs_pos (Particle.vx p)). pose proof (Rabs_pos (Particle.vy p)).
  split; nra.
Qed.

(** ** What [drawOrbs] changes *)

Lemma drawOrbsFrom_fst (os : list (option Orb.t)) :
  forall index, fst (drawOrbsFrom index os) = map pulsed os.
Proof.
  induction os as [|o os IH]; intros index; [reflexivity|].
  cbn [drawOrbsFrom map]. specialize (IH (S index)).
  destruct (drawOrbsFrom (S index) os) as [rest' discs]. cbn [fst] in IH.
  destruct o as [orb|]; [|cbn; now rewrite IH].
  unfold drawOrb, pulsed. destruct (Orb.collected orb); cbn; now rewrite IH.
Qed.

Lemma drawOrbsFrom_discs (os : list (option Orb.t)) :
  forall index,
    List.length (snd (drawOrbsFrom index os))
      = (3 * List.length (filter visible os))%nat /\
    ((forall orb, In (Some orb) os -> 3 < Orb.radius orb) ->
     Forall (fun d => 0 < Disc.radius d) (snd (drawOrbsFrom index os))).
Proof.
  induction os as [|o os IH]; intros index.
  - split; [reflexivity | constructor].
  - cbn [drawOrbsFrom filter]. destruct (IH (S index)) as (IHl & IHr).
    destruct (drawOrbsFrom (S index) os) as [rest' discs].
    cbn [snd] in IHl, IHr.
    assert (Htail : (forall orb, In (Some orb) (o :: os) -> 3 < Orb.radius orb)
                    -> Forall (fun d => 0 < Disc.radius d) discs).
    { intros H. apply IHr. intros orb0 Ho. apply H. now right. }
    destruct o as [orb|]; [|split; [exact IHl | exact Htail]].
    unfold drawOrb. change (visible (Some orb)) with (negb (Orb.collected orb)).
    destruct (Orb.collected orb) eqn:Ec; cbn [negb snd];
      [split; [exact IHl | exact Htail]|].
    split; [cbn [app List.length]; rewrite IHl; lia|].
    intros H. pose proof (H orb (or_introl eq_refl)) as Hr.
    pose proof (SIN_bound (Orb.pulsePhase (pulse orb))) as Hs.
    assert (Hrp : Orb.radius (pulse orb) = Orb.radius orb) by reflexivity.
    rewrite <- Hrp in Hr.
    cbn [app].
    repeat (constructor; [cbn [Disc.radius]; nra|]).
    exact (Htail H).
Qed.

Lemma sameOrb_pulsed (o : option Orb.t) : sameOrb o (pulsed o).
Proof.
  destruct o as [orb|]; [|exact I]. unfold pulsed, sameOrb.
  destruct (Orb.collected orb) eqn:Ec; repeat split; try reflexivity;
    exact Ec.
Qed.

Lemma Forall2_sameOrb_pulsed (os : list (option Orb.t)) :
  Forall2 sameOrb os (map pulsed os).
Proof.
  induction os; constructor; [apply sameOrb_pulsed | assumption].
Qed.

(** X15.  [drawOrbs] changes nothing in the orb array but the
    [pulsePhase] of the uncollected orbs, which it advances by 0.1:
    positions, radii, [collected] flags, holes and the array's size stay.
    It draws three discs for each uncollected orb and none for a collected
    one; when every orb has a radius above 3 (those of [generateOrbs] have
    at least 8) every disc has a positive radius. *)
Theorem X15_drawOrbs_only_advances_pulse (os : list (option Orb.t)) :
  fst (drawOrbs os) = map pulsed os /\
  List.length (fst (drawOrbs os)) = List.length os /\
  Forall2 sameOrb os (fst (drawOrbs os)) /\
  (forall i orb,
     nth_error os i = Some (Some orb) ->
     nth_error (fst (drawOrbs os)) i =
     Some (Some (if Orb.collected orb then orb
                 else Orb.mk (Orb.x orb) (Orb.y orb) (Orb.radius orb)
                             (Orb.pulsePhase orb + 0.1) false))) /\
  List.length (snd (drawOrbs os))
    = (3 * List.length (filter visible os))%nat /\
  ((forall orb, In (Some orb) os -> 3 < Orb.radius orb) ->
   Forall (fun d => 0 < Disc.radius d) (snd (drawOrbs os))).
Proof.
  unfold drawOrbs. rewrite drawOrbsFrom_fst.
  split; [reflexivity|]. split; [apply length_map|].
  split; [apply Forall2_sameOrb_pulsed|].
  split; [|apply drawOrbsFrom_discs].
  intros i orb Hn. rewrite nth_error_map, Hn. cbn [option_map pulsed].
  unfold pulse. destruct (Orb.collected orb) eqn:Ec; [reflexivity|].
  reflexivity.
Qed.

Lemma X15_drawOrbs_only_advances_pulse_witness :
  Forall (fun d => 0 < Disc.radius d) (snd (drawOrbs (Game.orbs onOrbGame))).
Proof.
  destruct (X15_drawOrbs_only_advances_pulse (Game.orbs onOrbGame))
    as (_ & _ & _ & _ & _ & H).
  apply H. intros orb [Ho | [Ho | [Ho | []]]];
    injection Ho as <-; simpl; lra.
Defined.

(** ** The drawing half does not change the play *)

Lemma sameOrb_hit (m : Monster.t) (o o' : option Orb.t) :
  sameOrb o o' -> hit m o' = hit m o.
Proof.
  destruct o as [a|], o' as [b|]; simpl; try tauto.
  intros (Hx & Hy & Hr & Hc). unfold touches. now rewrite Hx, Hy, Hr, Hc.
Qed.

Lemma sameOrb_mark (m : Monster.t) (o o' : option Orb.t) :
  sameOrb o o' -> sameOrb (mark m o) (mark m o').
Proof.
  intros H. pose proof (sameOrb_hit m o o' H) as Hh.
  destruct o as [a|], o' as [b|]; simpl in H; try tauto.
  unfold mark. rewrite Hh. destruct H as (Hx & Hy & Hr & Hc).
  destruct (hit m (Some a)); simpl; repeat split; assumption.
Qed.

Lemma sameOrb_hitIndices (m : Monster.t) (os os' : list (option Orb.t)) :
  Forall2 sameOrb os os' ->
  forall base, hitIndices m base os' = hitIndices m base os.
Proof.
  induction 1 as [|o o' os os' Ho _ IH]; intros base; [reflexivity|].
  cbn [hitIndices]. rewrite (sameOrb_hit m o o' Ho), IH. reflexivity.
Qed.

Lemma sameOrb_bursts (m : Monster.t) (rnd : Rand.stream)
    (os os' : list (option Orb.t)) :
  Forall2 sameOrb os os' ->
  forall k, bursts m os' rnd k = bursts m os rnd k.
Proof.
  induction 1 as [|o o' os os' Ho _ IH]; intros k; [reflexivity|].
  pose proof (sameOrb_hit m o o' Ho) as Hh.
  destruct o as [a|], o' as [b|]; simpl in Ho; try tauto; cbn [bursts].
  - rewrite Hh. destruct Ho as (Hx & Hy & _).
    rewrite Hx, Hy, !IH. reflexivity.
  - apply IH.
Qed.

Lemma sameOrb_map_mark (m : Monster.t) (os os' : list (option Orb.t)) :
  Forall2 sameOrb os os' ->
  Forall2 sameOrb (map (mark m) os) (map (mark m) os').
Proof.
  induction 1; simpl; constructor; [now apply sameOrb_mark | assumption].
Qed.

Lemma Forall2_length_eq {A B : Type} (R : A -> B -> Prop) (l : list A)
    (l' : list B) :
  Forall2 R l l' -> List.length l' = List.length l.
Proof. induction 1; simpl; congruence. Qed.

Lemma checkCollisions_samePlay (canvas : Canvas.t) (g gd : Game.t)
    (rnd : Rand.stream) (k : nat) :
  Game.canvasRef g = Some canvas -> samePlay g gd ->
  sameOutcome (checkCollisions g rnd k) (checkCollisions gd rnd k).
Proof.
  intros Hc (H1 & H2 & H3 & H4 & H5 & H6 & H7 & H8).
  assert (Hcd : Game.canvasRef gd = Some canvas) by congruence.
  destruct (boundaryHit canvas (Game.monster g)) eqn:Hb.
  - rewrite (checkCollisions_border canvas g rnd k Hc Hb).
    rewrite <- H5 in Hb.
    rewrite (checkCollisions_border canvas gd rnd k Hcd Hb).
    simpl. split; [reflexivity|]. repeat split; assumption.
  - rewrite (checkCollisions_inside canvas g rnd k Hc Hb).
    pose proof Hb as Hbd. rewrite <- H5 in Hbd.
    rewrite (checkCollisions_inside canvas gd rnd k Hcd Hbd).
    cbv zeta. rewrite H5.
    set (m1 := with_nearBoundary _ _).
    rewrite (sameOrb_hitIndices m1 _ _ H6 0%nat).
    rewrite (sameOrb_bursts m1 rnd _ _ H6 k).
    unfold sameOutcome, samePlay.
    cbn [Game.canvasRef Game.gameState Game.score Game.timeLeft Game.monster
         Game.orbs Game.particles Game.timeouts].
    rewrite H2, H3, H4, H7, H8.
    split; [reflexivity|]. do 5 (split; [reflexivity|]).
    split; [apply sameOrb_map_mark; exact H6|]. split; reflexivity.
Qed.

Lemma gameLoop_samePlay (g gd : Game.t) (rnd : Rand.stream) (k : nat) :
  samePlay g gd ->
  sameOutcome (gameLoop g rnd k) (gameLoop gd rnd k).
Proof.
  intros HS. pose proof HS as (H1 & H2 & H3 & H4 & H5 & H6 & H7 & H8).
  unfold gameLoop. rewrite H1, H2, H5.
  destruct (Game.canvasRef g) as [canvas|] eqn:Ec;
    [|simpl; split; [reflexivity | exact HS]].
  destruct (Game.gameState g) eqn:Eg;
    [|simpl; split; [reflexivity | exact HS]].
  unfold Rand.bind, Rand.lift.
  destruct (updateMonster (Some canvas) (Game.monster g)) as [m'|];
    [|exact I].
  apply (checkCollisions_samePlay canvas); [exact Ec|].
  unfold Game.with_particles, Game.with_monster. cbn.
  rewrite H7. unfold samePlay.
  cbn [Game.canvasRef Game.gameState Game.score Game.timeLeft Game.monster
       Game.orbs Game.particles Game.timeouts].
  repeat split; solve [assumption | congruence].
Qed.

Lemma samePlay_drawPhase (g : Game.t) : samePlay g (drawPhase g).
Proof.
  unfold drawPhase. destruct (Game.canvasRef g) eqn:Ec.
  - unfold samePlay.
    cbn [Game.canvasRef Game.gameState Game.score Game.timeLeft Game.monster
         Game.orbs Game.particles Game.timeouts].
    unfold drawOrbs. rewrite drawOrbsFrom_fst.
    split; [symmetry; exact Ec|].
    repeat split; apply Forall2_sameOrb_pulsed.
  - repeat split.
    induction (Game.orbs g) as [|o os IH]; constructor; [|exact IH].
    destruct o; simpl; tauto.
Qed.

Lemma wellFormed_stroke (tn : Tentacle.t) :
  wellFormed tn -> exists st, tentacleStroke tn = Some st.
Proof.
  intros (_ & Hlen & _). unfold tentacleStroke.
  rewrite <- Hlen.
  pose proof (lineTos_map (Tentacle.segments tn) []) as H.
  cbn [List.length app] in H. rewrite H.
  eexists. reflexivity.
Qed.

(** X16.  With the canvas mounted and well-formed tentacles, a whole frame
    (drawing, then simulation) and the simulation alone, started 90 random
    numbers later (the stars of [drawBackground]), either both throw or
    return states that agree on the session state, the score, the
    countdown, the monster, the particles, the pending respawns and, for
    every orb, its position, radius and [collected] flag: the drawing half
    moves nothing but the orbs' [pulsePhase]. *)
Theorem X16_drawing_does_not_change_play (canvas : Canvas.t) (g : Game.t)
    (rnd : Rand.stream) (k : nat) :
  Game.canvasRef g = Some canvas ->
  Forall wellFormed (Monster.tentacles (Game.monster g)) ->
  samePlay g (drawPhase g) /\
  sameOutcome (gameLoop g rnd (90 + k)%nat) (frame g rnd k).
Proof.
  intros Ec Hwf. split; [apply samePlay_drawPhase|].
  unfold frame. rewrite Ec.
  destruct (drawTentacleLines_total (Game.monster g)
              (Monster.tentacles (Game.monster g))) as (strokes & Es).
  { intros tn Hin _. apply wellFormed_stroke.
    rewrite Forall_forall in Hwf. apply Hwf. exact Hin. }
  rewrite Es.
  apply gameLoop_samePlay. apply samePlay_drawPhase.
Qed.

(** X16 on the state with the core on an orb. *)
Lemma X16_drawing_does_not_change_play_witness :
  sameOutcome (gameLoop onOrbGame (fun _ => 0) 90%nat)
              (frame onOrbGame (fun _ => 0) 0%nat).
Proof.
  destruct (X16_drawing_does_not_change_play (Canvas.mk 800 600) onOrbGame
              (fun _ => 0) 0%nat eq_refl (Forall_nil _)) as (_ & H).
  exact H.
Defined.

(** ** Respawning an orb at any index *)

Lemma assign_length {A : Type} (i : nat) (v : A) (arr : list (option A)) :
  List.length (Js.assign i v arr) = Nat.max (List.length arr) (S i).
Proof.
  unfold Js.assign. destruct (Nat.ltb_spec i (List.length arr)) as [H | H].
  - rewrite set_nth_length. lia.
  - rewrite !length_app, repeat_length. simpl. lia.
Qed.

Lemma assign_same {A : Type} (i : nat) (v : A) (arr : list (option A)) :
  nth_error (Js.assign i v arr) i = Some (Some v).
Proof.
  unfold Js.assign. destruct (Nat.ltb_spec i (List.length arr)) as [H | H].
  - apply set_nth_same. exact H.
  - rewrite nth_error_app2 by exact H.
    rewrite nth_error_app2 by (rewrite repeat_length; lia).
    rewrite repeat_length, Nat.sub_diag. reflexivity.
Qed.

Lemma assign_other {A : Type} (i j : nat) (v : A) (arr : list (option A)) :
  j <> i -> (j < List.length arr)%nat ->
  nth_error (Js.assign i v arr) j = nth_error arr j.
Proof.
  intros Hne Hj. unfold Js.assign.
  destruct (Nat.ltb_spec i (List.length arr)) as [H | H].
  - apply set_nth_other. congruence.
  - apply nth_error_app1. exact Hj.
Qed.

Lemma assign_hole {A : Type} (i j : nat) (v : A) (arr : list (option A)) :
  (List.length arr <= j)%nat -> (j < i)%nat ->
  nth_error (Js.assign i v arr) j = Some None.
Proof.
  intros Hj Hji. unfold Js.assign.
  destruct (Nat.ltb_spec i (List.length arr)) as [H | H]; [lia|].
  rewrite nth_error_app2 by exact Hj.
  rewrite nth_error_app1 by (rewrite repeat_length; lia).
  apply nth_error_repeat. lia.
Qed.

(** X17.  With the canvas mounted, [regenerateOrb(index)] at any index
    takes four random numbers and leaves at [index] the orb built from
    them, uncollected; every other slot the array had is as it was, and
    when [index] is past the end the array grows to [index + 1] slots with
    holes between its old end and [index]. *)
Theorem X17_regenerateOrb_replaces_one_slot (canvas : Canvas.t)
    (index : nat) (old : list (option Orb.t)) (rnd : Rand.stream) (k : nat) :
  exists o os',
    newOrb canvas rnd k = Some (o, (4 + k)%nat) /\
    regenerateOrb (Some canvas) index old rnd k = Some (os', (4 + k)%nat) /\
    Orb.collected o = false /\
    nth_error os' index = Some (Some o) /\
    List.length os' = Nat.max (List.length old) (S index) /\
    (forall j, j <> index -> (j < List.length old)%nat ->
               nth_error os' j = nth_error old j) /\
    (forall j, (List.length old <= j)%nat -> (j < index)%nat ->
               nth_error os' j = Some None).
Proof.
  eexists. eexists. split; [reflexivity|]. split; [reflexivity|].
  split; [reflexivity|]. split; [apply assign_same|].
  split; [apply assign_length|]. split.
  - intros j Hne Hj. apply assign_other; assumption.
  - intros j Hj Hji. apply assign_hole; assumption.
Qed.

(** ** The halo round the core *)

Lemma updateMonster_lastTarget (canvas : Canvas.t) (m m' : Monster.t) :
  updateMonster (Some canvas) m = Some m' ->
  Monster.lastTarget m' = Point.mk (Monster.coreX m') (Monster.coreY m').
Proof.
  unfold updateMonster. destruct (targetError canvas m) as [ex ey].
  destruct (forEachTry _ _) as [ts'|]; [|discriminate].
  intros E. injection E as <-. reflexivity.
Qed.

Lemma haloRadius_at_rest (m : Monster.t) :
  Monster.lastTarget m = Point.mk (Monster.coreX m) (Monster.coreY m) ->
  haloRadius m = 5.
Proof.
  intros H. unfold haloRadius. rewrite H. cbn [Point.x Point.y].
  rewrite dist_self. ring.
Qed.

(** An event other than [startGame] and a resize keeps [lastTarget] on the
    core. *)
Lemma step_lastTarget (e : Event) (g : Game.t) (rnd : Rand.stream)
    (k : nat) :
  Inv g ->
  (forall iw, e <> StartGame iw) /\ (forall w h, e <> Resize w h) ->
  Monster.lastTarget (Game.monster g) =
    Point.mk (Monster.coreX (Game.monster g)) (Monster.coreY (Game.monster g)) ->
  exists g' k',
    step e g rnd k = Some (g', k') /\ Inv g' /\
    Monster.lastTarget (Game.monster g') =
      Point.mk (Monster.coreX (Game.monster g'))
               (Monster.coreY (Game.monster g')).
Proof.
  intros HI (Hns & Hnr) Hrest.
  destruct (step_Inv e g rnd k HI) as (g' & k' & E & HI' & _).
  exists g', k'. split; [exact E|]. split; [exact HI'|].
  pose proof HI as (Hc & Hwf & _).
  destruct (Game.canvasRef g) as [canvas|] eqn:Ec; [|congruence].
  destruct e; cbn [step] in E; unfold Rand.ret in E.
  - destruct (Game.gameState g) eqn:Eg.
    + destruct (gameLoop_playing canvas g rnd k Ec Eg Hwf)
        as (m' & Em & _ & El).
      pose proof (updateMonster_lastTarget canvas _ _ Em) as Hm.
      rewrite El in E.
      destruct (boundaryHit canvas m') eqn:Hb.
      * match type of E with checkCollisions ?gg _ _ = _ =>
          rewrite (checkCollisions_border canvas gg rnd k eq_refl Hb) in E end.
        injection E as <- <-. exact Hm.
      * match type of E with checkCollisions ?gg _ _ = _ =>
          rewrite (checkCollisions_inside canvas gg rnd k eq_refl Hb) in E end.
        injection E as <- <-. exact Hm.
    + rewrite (gameLoop_ended g rnd k Eg) in E. injection E as <- <-.
      exact Hrest.
  - injection E as <- <-. unfold tickSecond.
    destruct (Game.gameState g); [|exact Hrest].
    destruct (0 <? Game.timeLeft g)%Z; [|exact Hrest].
    destruct (Game.timeLeft g <=? 1)%Z; exact Hrest.
  - injection E as <- <-. unfold handlePointer. rewrite Ec. exact Hrest.
  - injection E as <- <-. exact Hrest.
  - injection E as <- <-. unfold handlePointer. rewrite Ec. exact Hrest.
  - injection E as <- <-. unfold handlePointer. rewrite Ec. exact Hrest.
  - injection E as <- <-. exact Hrest.
  - destruct (fireTimeout_Inv index g rnd k HI)
      as (g1 & k1 & E1 & _ & _ & Hm & _).
    rewrite E1 in E. injection E as <- <-. rewrite Hm. exact Hrest.
  - exfalso. exact (Hns innerWidth eq_refl).
  - exfalso. exact (Hnr w h eq_refl).
Qed.

Lemma run_lastTarget (es : list Event) :
  forall g rnd k,
    Inv g -> noJump es ->
    Monster.lastTarget (Game.monster g) =
      Point.mk (Monster.coreX (Game.monster g))
               (Monster.coreY (Game.monster g)) ->
    exists g' k',
      run es g rnd k = Some (g', k') /\
      Monster.lastTarget (Game.monster g') =
        Point.mk (Monster.coreX (Game.monster g'))
                 (Monster.coreY (Game.monster g')).
Proof.
  induction es as [|e es IH]; intros g rnd k HI Hno Hrest.
  - exists g, k. split; [reflexivity | exact Hrest].
  - inversion Hno as [|e0 es0 He Hes]; subst.
    destruct (step_lastTarget e g rnd k HI He Hrest)
      as (g1 & k1 & E1 & HI1 & H1).
    destruct (IH g1 rnd k1 HI1 Hes H1) as (g' & k' & E & H').
    exists g', k'. cbn [run]. unfold Rand.bind. rewrite E1.
    split; [exact E | exact H'].
Qed.

(** X4.  The halo that [drawMonster] draws round the core has radius
    [dist(lastTarget, core) + 5].  (1) Every tick leaves [lastTarget] on
    the core, and no event other than [startGame] and a resize moves either
    of them apart: from a state with [lastTarget] on the core (the mount is
    one), after any events that include neither, the halo has radius
    exactly 5.  (2) [startGame] moves the core to the centre of the canvas
    and leaves [lastTarget] where it was, so the state it leaves, which the
    next frame draws before it updates, has a halo of radius
    [dist(lastTarget, centre) + 5].  (3) [resizeCanvas] leaves [lastTarget]
    where it was too, wherever it puts the core. *)
Theorem X4_halo_radius_between_jumps :
  (forall es g rnd k,
     Inv g -> noJump es ->
     Monster.lastTarget (Game.monster g) =
       Point.mk (Monster.coreX (Game.monster g))
                (Monster.coreY (Game.monster g)) ->
     exists g' k',
       run es g rnd k = Some (g', k') /\
       haloRadius (Game.monster g') = 5) /\
  (forall canvas innerWidth g rnd k,
     Game.canvasRef g = Some canvas ->
     exists g1 k1,
       startGame innerWidth g rnd k = Some (g1, k1) /\
       haloRadius (Game.monster g1) =
         dist (Point.x (Monster.lastTarget (Game.monster g)))
              (Point.y (Monster.lastTarget (Game.monster g)))
              (Canvas.width canvas / 2) (Canvas.height canvas / 2) + 5) /\
  (forall w h g,
     let m' := Game.monster (resizeCanvas w h g) in
     haloRadius m' =
       dist (Point.x (Monster.lastTarget (Game.monster g)))
            (Point.y (Monster.lastTarget (Game.monster g)))
            (Monster.coreX m') (Monster.coreY m') + 5).
Proof.
  split; [|split].
  - intros es g rnd k HI Hno Hrest.
    destruct (run_lastTarget es g rnd k HI Hno Hrest) as (g' & k' & E & H).
    exists g', k'. split; [exact E|]. apply haloRadius_at_rest. exact H.
  - intros canvas innerWidth g rnd k Ec.
    destruct (startGame_closed canvas innerWidth g rnd k Ec)
      as (ts & o1 & o2 & o3 & k' & _ & _ & _ & _ & E).
    eexists. eexists. split; [exact E|]. reflexivity.
  - intros w h g m'. subst m'. unfold resizeCanvas.
    destruct (Game.canvasRef g); reflexivity.
Qed.

(** X4 on two sessions from the mount: after a pointer move, a frame, a
    second and a frame on an 800 x 600 canvas the halo has radius 5; on a
    1000 x 800 canvas [startGame] moves the core from (400, 300) to
    (500, 400) and the halo it leaves is wider than 5. *)
Lemma X4_halo_radius_between_jumps_witness :
  (exists g' k',
     run [MouseMove 500 200; Frame; Second; Frame]
         (Game.mounted (Canvas.mk 800 600)) (fun _ => 0) 0%nat
       = Some (g', k') /\
     haloRadius (Game.monster g') = 5) /\
  (exists g1 k1,
     startGame 1024 (Game.mounted (Canvas.mk 1000 800)) (fun _ => 0) 0%nat
       = Some (g1, k1) /\
     haloRadius (Game.monster g1) = dist 400 300 500 400 + 5 /\
     5 < haloRadius (Game.monster g1)).
Proof.
  destruct X4_halo_radius_between_jumps as (H1 & H2 & _).
  split.
  - apply H1.
    + apply Inv_mounted.
    + repeat constructor; intros; discriminate.
    + reflexivity.
  - destruct (H2 (Canvas.mk 1000 800) 1024
                (Game.mounted (Canvas.mk 1000 800)) (fun _ => 0) 0%nat
                eq_refl) as (g1 & k1 & E & Hh).
    exists g1, k1. split; [exact E|].
    cbn [Game.mounted Game.monster Monster.initial Monster.lastTarget
         Point.x Point.y Canvas.width Canvas.height] in Hh.
    replace (1000 / 2) with 500 in Hh by field.
    replace (800 / 2) with 400 in Hh by field.
    split; [exact Hh|]. rewrite Hh.
    assert (0 < dist 400 300 500 400).
    { unfold dist. apply sqrt_lt_R0. nra. }
    lra.
Defined.
